(** * promise-clerk: the fallback getter and the resumable transaction

    A shallow embedding of [src/promise-chain-error-catcher.js] (which
    also holds [assertIsPromise]), of the [Quitter] class that the getter
    imports, of [src/really-determined-property-getter.js] and of
    [src/transaction.js], and the properties of the specification that
    were checked against it.

    Conventions of the embedding.
    - JavaScript [Error] objects are mutable and shared by reference: they
      live in a store (a list, addressed by position), and the functions
      that assign to [error.message] or [error.stepName] update the store.
    - A promise chain is a computation over the state it can touch that
      ends fulfilled, rejected or not settled; [.then] and [.catch] are the
      two combinators [THEN] and [CATCH].
    - User functions (sources, synchronizers, steps) are opaque: each is
      given by what its n-th invocation returns, and every invocation is
      written to a log, which is what the ordering properties talk about. *)

From Stdlib Require Import String Ascii ZArith Lia List.
From stdpp Require Import base option list strings gmap pretty.

Open Scope string_scope.
Open Scope list_scope.

(* ================================================================== *)
(** * JavaScript values, strings and Error objects                     *)
(* ================================================================== *)

(** The values that flow through the library are data: strings,
    numbers, plain objects and the like, which hold no function. The
    library stringifies them for messages and hands them on; the one
    thing it looks at is whether a value that a user function returned
    could be a promise, which it decides by the property [then]. *)
Class JsValue (V : Type) := {
  undefined : V;
  (** the text that [JSON.stringify(v)] contributes to a message *)
  JSON_stringify : V -> string;
  (** [v && v.then] is truthy. Such a value is still no promise: it has
      no method, so that calling its [then] or its [catch] throws a
      [TypeError]. *)
  has_then : V -> bool
}.

(** The newline of the message templates. *)
Definition nl : string := String "010"%char EmptyString.

(** [String(n)] for a non-negative integer. *)
Definition js_string_of_nat (n : nat) : string := pretty n.

(** An [Error] object: the two properties the library reads and writes.
    The objects that user code and the library make are instances of
    [Error]; those that the engine throws when something that is not a
    function is called are instances of [TypeError]. *)
Inductive Error :=
| mkError (message : string) (stepName : option string)
| mkTypeError (message : string) (stepName : option string).

Definition message (e : Error) : string :=
  match e with
  | mkError msg _ | mkTypeError msg _ => msg
  end.

Definition stepName (e : Error) : option string :=
  match e with
  | mkError _ name | mkTypeError _ name => name
  end.

(** Error objects are addressed by their position in the store. *)
Abbreviation ref := nat (only parsing).
Abbreviation store := (list Error) (only parsing).

Definition set_message (m : string) (e : Error) : Error :=
  match e with
  | mkError _ name => mkError m name
  | mkTypeError _ name => mkTypeError m name
  end.
Definition set_stepName (n : string) (e : Error) : Error :=
  match e with
  | mkError msg _ => mkError msg (Some n)
  | mkTypeError msg _ => mkTypeError msg (Some n)
  end.

(** [new Error(msg)]: a fresh object at the end of the store. *)
Definition new_Error (msg : string) (st : store) : ref * store :=
  (length st, st ++ [mkError msg None]).

(** The [TypeError] that the engine makes when [callee], which is not a
    function, is called. The wording is that of V8. *)
Definition is_not_a_function (callee : string) : string :=
  callee +:+ " is not a function".

Definition new_TypeError (msg : string) (st : store) : ref * store :=
  (length st, st ++ [mkTypeError msg None]).

Definition update (r : ref) (f : Error -> Error) (st : store) : store :=
  match st !! r with
  | Some e => <[r := f e]> st
  | None => st
  end.

Definition message_of (st : store) (r : ref) : string :=
  from_option message EmptyString (st !! r).
Definition stepName_of (st : store) (r : ref) : option string :=
  st !! r ≫= stepName.

(** [Error.prototype.toString] for an object whose name is [Error]. *)
Definition Error_toString (msg : string) : string :=
  match msg with
  | EmptyString => "Error"
  | _ => "Error: " +:+ msg
  end.

(** [error.toString()]: the name of the class, then the message. *)
Definition toString (e : Error) : string :=
  match e with
  | mkError msg _ => Error_toString msg
  | mkTypeError EmptyString _ => "TypeError"
  | mkTypeError msg _ => "TypeError: " +:+ msg
  end.

(** What a user function throws or rejects with: an error object made
    for the occasion, or one that already exists (the same object thrown
    again). *)
Inductive thrown :=
| NewError (msg : string)
| SameError (r : ref).

Definition materialize (t : thrown) (st : store) : ref * store :=
  match t with
  | NewError msg => new_Error msg st
  | SameError r => (r, st)
  end.

(** What a call to a user function produces. *)
Inductive settlement (V : Type) :=
| Resolves (v : V)
| Rejects (t : thrown)
| Pending.
Arguments Resolves {V} v.
Arguments Rejects {V} t.
Arguments Pending {V}.

Inductive returned (V : Type) :=
| NotPromise (v : V)
| Promise (s : settlement V).
Arguments NotPromise {V} v.
Arguments Promise {V} s.

Inductive call_result (V : Type) :=
| Throws (t : thrown)
| Returns (x : returned V).
Arguments Throws {V} t.
Arguments Returns {V} x.

(** How a promise stands once the microtask queue has drained. *)
Inductive settled (A : Type) :=
| Fulfilled (a : A)
| Rejected (e : ref)
| Unsettled.
Arguments Fulfilled {A} a.
Arguments Rejected {A} e.
Arguments Unsettled {A}.

(** What a synchronous call does: it returns, or it throws. *)
Inductive exn :=
| UsageError (msg : string)
| Propagated (e : ref).

(** What a call of a function of the library gives before any promise
    is looked at: what it returns, or the message of the [TypeError] in
    which it ends. *)
Inductive call_of (A : Type) :=
| Gave (a : A)
| ThrewTypeError (msg : string).
Arguments Gave {A} a.
Arguments ThrewTypeError {A} msg.

(* ================================================================== *)
(** * Promise chains                                                   *)
(* ================================================================== *)

Section Chain.
Context {S : Type}.

Definition chain (A : Type) := S -> settled A * S.

Definition resolve {A} (a : A) : chain A := fun s => (Fulfilled a, s).
Definition reject {A} (e : ref) : chain A := fun s => (Rejected e, s).
Definition pending {A} : chain A := fun s => (Unsettled, s).

(** [p.then(f)] *)
Definition then_ {A B} (p : chain A) (f : A -> chain B) : chain B :=
  fun s =>
    match p s with
    | (Fulfilled a, s') => f a s'
    | (Rejected e, s') => (Rejected e, s')
    | (Unsettled, s') => (Unsettled, s')
    end.

(** [p.catch(h)] *)
Definition catch_ {A} (p : chain A) (h : ref -> chain A) : chain A :=
  fun s =>
    match p s with
    | (Rejected e, s') => h e s'
    | other => other
    end.

(** a statement that only changes the state *)
Definition modify (f : S -> S) : chain unit := fun s => (Fulfilled tt, f s).
End Chain.

Arguments chain : clear implicits.

Notation "p 'THEN' f" := (then_ p f) (at level 61, left associativity).
Notation "p 'CATCH' h" := (catch_ p h) (at level 61, left associativity).
Notation "c1 ;;; c2" := (then_ c1 (fun _ => c2)) (at level 62, right associativity).

(** [array.forEach((x, index) => ...)] where the body reassigns one
    local variable, which is threaded as [acc]. *)
Fixpoint forEach_from {A B} (f : A -> nat -> B -> B) (index : nat) (l : list A) (acc : B) : B :=
  match l with
  | [] => acc
  | x :: l' => forEach_from f (Datatypes.S index) l' (f x index acc)
  end.
Definition forEach {A B} (l : list A) (f : A -> nat -> B -> B) (acc : B) : B :=
  forEach_from f 0 l acc.

(* ================================================================== *)
(** * The determined getter and its helpers                            *)
(* ================================================================== *)

Module Getter.

(** The user functions of a getter, by position. *)
Inductive callee :=
| Primary
| Secondary (index : nat)
| Synchronizer (index : nat).

#[global] Instance callee_eq_dec : EqDecision callee.
Proof. solve_decision. Defined.

(** One entry of the invocation log. *)
Record call (V : Type) := Call { who : callee; arg : option V }.
Arguments Call {V} who arg.
Arguments who {V} c.
Arguments arg {V} c.

(** How often [f] has been invoked so far. *)
Definition attempts {V} (f : callee) (log : list (call V)) : nat :=
  length (filter (fun c => who c = f) log).

(** A source is called without arguments, a synchronizer with the value;
    the natural number is the number of earlier invocations. *)
Definition source (V : Type) := nat -> call_result V.
Definition synchronizer (V : Type) := nat -> V -> call_result V.

Record Configuration (V : Type) := {
  primarySource : option (source V);
  secondarySources : list (source V);
  verifier : option (V -> bool);
  primarySourceSynchronizers : list (synchronizer V);
  ignoreSynchronizationErrors : bool
}.
Arguments primarySource {V} c.
Arguments secondarySources {V} c.
Arguments verifier {V} c.
Arguments primarySourceSynchronizers {V} c.
Arguments ignoreSynchronizationErrors {V} c.

(** An entry of [errorCatcher.results]: a reference to an error object,
    or the record [{ success: true, stepName, toString }]. *)
Inductive result (V : Type) :=
| Failure (e : ref)
| Success (name : string) (value : V).
Arguments Failure {V} e.
Arguments Success {V} name value.

Record PromiseChainErrorCatcher (V : Type) := {
  callingEntityName : string;
  results : list (result V)
}.
Arguments callingEntityName {V} p.
Arguments results {V} p.

Record Quitter := { doQuit : bool }.

(** Everything a chain started by [get] can read or write: the instance
    ([configuration], [getInProgress]), the two objects [get] creates for
    the call, the error objects and the invocation log. *)
Record machine (V : Type) := Machine {
  configuration : Configuration V;
  getInProgress : bool;
  errorCatcher : PromiseChainErrorCatcher V;
  quitter : Quitter;
  errors : store;
  calls : list (call V)
}.
Arguments Machine {V}.
Arguments configuration {V} m.
Arguments getInProgress {V} m.
Arguments errorCatcher {V} m.
Arguments quitter {V} m.
Arguments errors {V} m.
Arguments calls {V} m.

Section WithValues.
Context {V : Type} `{JsValue V}.

Definition set_getInProgress (b : bool) (m : machine V) : machine V :=
  Machine (configuration m) b (errorCatcher m) (quitter m) (errors m) (calls m).
Definition set_errorCatcher (c : PromiseChainErrorCatcher V) (m : machine V) : machine V :=
  Machine (configuration m) (getInProgress m) c (quitter m) (errors m) (calls m).
Definition set_quitter (q : Quitter) (m : machine V) : machine V :=
  Machine (configuration m) (getInProgress m) (errorCatcher m) q (errors m) (calls m).
Definition set_errors (st : store) (m : machine V) : machine V :=
  Machine (configuration m) (getInProgress m) (errorCatcher m) (quitter m) st (calls m).
Definition set_calls (l : list (call V)) (m : machine V) : machine V :=
  Machine (configuration m) (getInProgress m) (errorCatcher m) (quitter m) (errors m) l.

(** [throw new Error(msg)] inside a handler *)
Definition throw_new {A} (msg : string) : chain (machine V) A :=
  fun m => let '(e, st) := new_Error msg (errors m) in (Rejected e, set_errors st m).

(** [throw t] for what a user function raises *)
Definition throw_ {A} (t : thrown) : chain (machine V) A :=
  fun m => let '(e, st) := materialize t (errors m) in (Rejected e, set_errors st m).

(** A [TypeError] of the engine, thrown inside a handler *)
Definition throw_TypeError {A} (msg : string) : chain (machine V) A :=
  fun m => let '(e, st) := new_TypeError msg (errors m) in (Rejected e, set_errors st m).

(** A callback that ends in [return call.then(...)]: when the call
    throws, the promise that [then] or [catch] made for the callback is
    rejected with the exception, and what would have been chained onto
    the result of the call is never built. *)
Definition returning {A B} (call : call_of (chain (machine V) A))
    (rest : chain (machine V) A -> chain (machine V) B) : chain (machine V) B :=
  match call with
  | Gave promise => rest promise
  | ThrewTypeError msg => throw_TypeError msg
  end.

(** Invoking a user function: the call is logged, and the function
    answers according to the number of its earlier invocations. *)
Definition invoke (f : callee) (a : option V) (body : nat -> call_result V)
    (m : machine V) : call_result V * machine V :=
  (body (attempts f (calls m)), set_calls (calls m ++ [Call f a]) m).

(** ** promise-chain-error-catcher.js *)

Definition new_PromiseChainErrorCatcher (name : string) : PromiseChainErrorCatcher V :=
  {| callingEntityName := name; results := [] |}.

(** [push (result) { this.results.push(result) }] *)
Definition push (r : result V) (m : machine V) : machine V :=
  set_errorCatcher
    {| callingEntityName := callingEntityName (errorCatcher m);
       results := results (errorCatcher m) ++ [r] |} m.

Definition recordSuccess (name : string) : V -> chain (machine V) V :=
  fun value => modify (push (Success name value)) ;;; resolve value.

Definition catchError : ref -> chain (machine V) V :=
  fun error => modify (push (Failure error)) ;;; resolve undefined.

(** [error.stepName = error.stepName || name; throw error] *)
Definition or_name (name : string) (e : Error) : Error :=
  match stepName e with
  | Some (String c s) => e
  | _ => set_stepName name e
  end.

Definition nameError {A} (name : string) : ref -> chain (machine V) A :=
  fun error =>
    modify (fun m => set_errors (update error (or_name name) (errors m)) m) ;;;
    reject error.

(** One line of the report. A missing [stepName] prints as
    [undefined], as a template literal does. *)
Definition report_line (st : store) (oneError : result V) : string :=
  match oneError with
  | Success name value =>
      "  - " +:+ name +:+ " " +:+ "resolved with " +:+ JSON_stringify value +:+ nl
  | Failure e =>
      "  - " +:+ default "undefined" (stepName_of st e) +:+ " " +:+
      "failed because " +:+ message_of st e +:+ nl
  end.

(** [reportError]: the message of the error it returns. The branch on
    [oneError.tag] is never taken, since no entry carries a tag. *)
Definition reportError (c : PromiseChainErrorCatcher V) (st : store) : string :=
  fold_left (fun errorMessage oneError => errorMessage +:+ report_line st oneError)
            (results c)
            (callingEntityName c +:+ " has failed." +:+ nl).

Definition handleFinalError {A} : ref -> chain (machine V) A :=
  fun finalError =>
    modify (push (Failure finalError)) ;;;
    (fun m => throw_new (reportError (errorCatcher m) (errors m)) m).

(** [assertIsPromise]. What passes the test
    [maybeAPromise && maybeAPromise.then] has its [catch] called: for a
    promise that gives the promise with its rejection reworded; for a
    value that is no promise and yet has a truthy [then] the call of
    [catch] throws. What fails the test becomes a rejection. *)
Definition assertIsPromise (maybeAPromise : returned V) : call_of (chain (machine V) V) :=
  match maybeAPromise with
  | Promise (Resolves v) => Gave (resolve v)
  | Promise (Rejects t) =>
      Gave
        (throw_ t CATCH (fun error =>
           modify (fun m =>
             set_errors
               (update error
                  (fun e => set_message ("it was rejected with '" +:+ toString e +:+ "'") e)
                  (errors m)) m) ;;;
           reject error))
  | Promise Pending => Gave pending
  | NotPromise v =>
      if has_then v
      then ThrewTypeError (is_not_a_function "maybeAPromise.catch")
      else Gave (throw_new ("it was expected to return a Promise, but instead it returned "
                            +:+ JSON_stringify v))
  end.

(** ** quitter.js *)

Definition new_Quitter : Quitter := {| doQuit := false |}.

(** [maybeQuit (error) { if (this.doQuit) throw error }] *)
Definition maybeQuit (error : ref) : chain (machine V) unit :=
  fun m => if doQuit (quitter m) then (Rejected error, m) else (Fulfilled tt, m).

Definition quit {A} : ref -> chain (machine V) A :=
  fun error => modify (set_quitter {| doQuit := true |}) ;;; reject error.

Definition quitOnCondition (condition : bool) : ref -> chain (machine V) V :=
  if condition then quit else fun _ => resolve undefined.

(** ** really-determined-property-getter.js *)

(** A user function called inside a [then] or [catch] callback: what it
    throws rejects the promise the callback returns, past whatever the
    callback would have chained onto the function's result. *)
Definition called (f : callee) (a : option V) (body : nat -> call_result V)
    : chain (machine V) (returned V) :=
  fun m =>
    match invoke f a body m with
    | (Throws t, m') => throw_ t m'
    | (Returns x, m') => (Fulfilled x, m')
    end.

Definition verifyValue (value : V) : chain (machine V) V :=
  fun m =>
    match verifier (configuration m) with
    | Some verify =>
        if negb (verify value)
        then throw_new ("the verifier function did not accept the value "
                        +:+ JSON_stringify value) m
        else resolve value m
    | None => resolve value m
    end.

(** The callback of the [forEach] in
    [performSynchronizationWithPrimary]: one more synchronizer is
    appended to [syncPromise]. *)
Definition eachSynchronizer (ignore : bool) (value : V)
    (primarySourceSynchronizer : synchronizer V) (index : nat)
    (syncPromise : chain (machine V) V) : chain (machine V) V :=
  let name := "primarySourceSynchronizer function #" +:+ js_string_of_nat (index + 1) in
  syncPromise
    THEN (fun _ => called (Synchronizer index) (Some value)
                     (fun n => primarySourceSynchronizer n value)
                   THEN (fun maybeAPromise =>
                           returning (assertIsPromise maybeAPromise) (fun promise => promise)))
    CATCH nameError name
    CATCH quitOnCondition (negb ignore)
    THEN (fun _ => resolve value).

Definition performSynchronizationWithPrimary (value : V) : chain (machine V) V :=
  fun m =>
    forEach (primarySourceSynchronizers (configuration m))
      (eachSynchronizer (ignoreSynchronizationErrors (configuration m)) value)
      (resolve value) m.

(** The handler that the [forEach] in [getFromSecondaries] attaches for
    one secondary source. *)
Definition trySecondarySource (secondarySource : source V) (index : nat)
    : ref -> chain (machine V) V :=
  let name := "secondary source #" +:+ js_string_of_nat (index + 1) in
  fun secondaryError =>
    maybeQuit secondaryError ;;;
    modify (push (Failure secondaryError)) ;;;
    called (Secondary index) None secondarySource THEN (fun maybeAPromise =>
      returning (assertIsPromise maybeAPromise) (fun promise =>
        promise
          THEN verifyValue
          CATCH nameError name
          THEN recordSuccess name
          THEN performSynchronizationWithPrimary)).

Definition getFromSecondaries (primaryError : ref) : chain (machine V) V :=
  fun m =>
    forEach (secondarySources (configuration m))
      (fun secondarySource index secondaryPromise =>
         secondaryPromise CATCH trySecondarySource secondarySource index)
      (reject primaryError) m.

(** What a call of [get] does: it throws, or it returns a promise. *)
Inductive get_outcome :=
| Raises (x : exn)
| Gives (p : settled V).

Definition get (m : machine V) : get_outcome * machine V :=
  if getInProgress m
  then (Raises (UsageError "`get` was called again before the first call to `get` completed. This will produce unexpected behavior and is not allowed."), m)
  else
    match primarySource (configuration m) with
    | None => (Raises (UsageError "Cannot get value without a primary source. Use `.primarySource(() => primarySourcePromise)`"), m)
    | Some primary =>
        let m := set_errorCatcher
                   (new_PromiseChainErrorCatcher "The Really Determined Property Getter") m in
        let m := set_quitter new_Quitter m in
        let m := set_getInProgress true m in
        match invoke Primary None primary m with
        | (Throws t, m) =>
            let '(e, st) := materialize t (errors m) in
            (Raises (Propagated e), set_errors st m)
        | (Returns x, m) =>
            match assertIsPromise x with
            | ThrewTypeError msg =>
                let '(e, st) := new_TypeError msg (errors m) in
                (Raises (Propagated e), set_errors st m)
            | Gave promise =>
                let '(p, m) :=
                  (promise
                     THEN verifyValue
                     CATCH nameError "primary source"
                     CATCH getFromSecondaries
                     THEN (fun value => modify (set_getInProgress false) ;;; resolve value)
                     CATCH (fun error => modify (set_getInProgress false) ;;; reject error)
                     CATCH handleFinalError) m in
                (Gives p, m)
            end
        end
    end.
(** ** Reading a run *)

(** What a call added to the invocation log. *)
Definition calls_during (before after : machine V) : list (call V) :=
  drop (length (calls before)) (calls after).

(** [verifyValue] lets the value through. *)
Definition accepts (c : Configuration V) (value : V) : bool :=
  match verifier c with
  | Some verify => verify value
  | None => true
  end.

(** A source fails: it throws, returns something that does not pass for
    a promise, its promise is rejected, or the value is not verified.
    (A value that passes for a promise without being one makes
    [assertIsPromise] throw, which in the primary source ends [get]: it
    is not counted here.) *)
Definition source_fails (c : Configuration V) (r : call_result V) : bool :=
  match r with
  | Throws _ => true
  | Returns (NotPromise v) => negb (has_then v)
  | Returns (Promise (Rejects _)) => true
  | Returns (Promise (Resolves value)) => negb (accepts c value)
  | Returns (Promise Pending) => false
  end.

(** After this answer of a synchronizer the next one is called. *)
Definition continues (ignore : bool) (r : call_result V) : bool :=
  match r with
  | Returns (Promise (Resolves _)) => true
  | Returns (Promise Pending) => false
  | _ => ignore
  end.

(** How many of the synchronizers [l], registered from position
    [index] on, are called with [value], when [log] is the invocation
    log at the start of the run. *)
Fixpoint synchronizers_called (ignore : bool) (value : V) (log : list (call V))
    (index : nat) (l : list (synchronizer V)) : nat :=
  match l with
  | [] => 0
  | f :: l' =>
      S (if continues ignore (f (attempts (Synchronizer index) log) value)
         then synchronizers_called ignore value log (S index) l'
         else 0)
  end.

Definition secondary_calls (first count : nat) : list (call V) :=
  (fun i => Call (Secondary i) None) <$> seq first count.

Definition synchronizer_calls (value : V) (count : nat) : list (call V) :=
  (fun j => Call (Synchronizer j) (Some value)) <$> seq 0 count.

(** ** The chain of [get], in stages *)

Implicit Types (m : machine V).

(** The state in which a loop of [get] stands, relative to the machine
    [m0] it started from: nothing but the log, the error objects and
    the exit latch has changed. *)
Definition same_instance m0 m : Prop :=
  configuration m = configuration m0 /\
  getInProgress m = getInProgress m0 /\
  errorCatcher m = errorCatcher m0.

Definition same_configuration m0 m : Prop :=
  configuration m = configuration m0 /\ getInProgress m = getInProgress m0.

(** The chain that [getFromSecondaries] builds, read as a loop: the
    next source is tried as long as the promise is rejected. *)
Fixpoint secondaries_from (index : nat) (l : list (source V)) (e : ref) (m : machine V)
    : settled V * machine V :=
  match l with
  | [] => (Rejected e, m)
  | f :: l' =>
      match trySecondarySource f index e m with
      | (Rejected e', m') => secondaries_from (S index) l' e' m'
      | other => other
      end
  end.

(** The log of invocations only grows. *)
Definition extends m m' : Prop := exists l, calls m' = calls m ++ l.

(** The machine when [get] has called the primary source. *)
Definition started m : machine V :=
  set_calls (calls m ++ [Call Primary None])
    (set_getInProgress true
       (set_quitter new_Quitter
          (set_errorCatcher
             (new_PromiseChainErrorCatcher "The Really Determined Property Getter") m))).

(** When [assertIsPromise] throws for what the primary source returned,
    [get] throws. *)
Definition TypeError_of (x : returned V) : option string :=
  match assertIsPromise x with
  | ThrewTypeError msg => Some msg
  | Gave _ => None
  end.

Definition primary_stage (x : returned V) : chain (machine V) V :=
  returning (assertIsPromise x)
    (fun promise => promise THEN verifyValue CATCH nameError "primary source").

(** The last three handlers of the chain of [get], applied to the way
    the promise before them stands. *)
Definition settle (rm : settled V * machine V) : settled V * machine V :=
  ((fun _ => rm)
     THEN (fun value => modify (set_getInProgress false) ;;; resolve value)
     CATCH (fun error => modify (set_getInProgress false) ;;; reject error)
     CATCH handleFinalError) rm.2.

Definition fall_back (rm : settled V * machine V) : settled V * machine V :=
  match rm with
  | (Rejected e, m) => getFromSecondaries e m
  | other => other
  end.
End WithValues.

(** The message of the usage error that [get] throws while a call is in
    flight. *)
Definition reentrancy_message : string :=
  "`get` was called again before the first call to `get` completed. This will produce unexpected behavior and is not allowed.".

(** The composite message for a primary source rejected with
    [Error('X')] and one secondary source rejected with [Error('Y')]. *)
Definition expected_message : string :=
  "The Really Determined Property Getter has failed." +:+ nl +:+
  "  - primary source failed because it was rejected with 'Error: X'" +:+ nl +:+
  "  - secondary source #1 failed because it was rejected with 'Error: Y'" +:+ nl.

(** ** Configuring a getter *)

(** [Function.prototype.toString]: the source text of a function, which
    the two set-once methods quote in the error they throw. *)
Class JsFunction (F : Type) := {
  Function_toString : F -> string
}.

Section Registration.
Context {V : Type} `{JsFunction (source V)} `{JsFunction (V -> bool)}.

(** [this.configuration] as the constructor leaves it. *)
Definition new_ReallyDeterminedPropertyGetter : Configuration V :=
  {| primarySource := None;
     secondarySources := [];
     verifier := None;
     primarySourceSynchronizers := [];
     ignoreSynchronizationErrors := false |}.

(** The method [primarySource]: the message of the error it throws, or
    the configuration it leaves. (The primed names are the methods
    whose name is also that of the property they set.) *)
Definition primarySource' (getter : source V) (c : Configuration V)
    : string + Configuration V :=
  match primarySource c with
  | Some registered =>
      inl ("There can only be one primary source. You already registered this primary source:"
           +:+ nl +:+ Function_toString registered)
  | None =>
      inr {| primarySource := Some getter;
             secondarySources := secondarySources c;
             verifier := verifier c;
             primarySourceSynchronizers := primarySourceSynchronizers c;
             ignoreSynchronizationErrors := ignoreSynchronizationErrors c |}
  end.

Definition secondarySource (getter : source V) (c : Configuration V) : Configuration V :=
  {| primarySource := primarySource c;
     secondarySources := secondarySources c ++ [getter];
     verifier := verifier c;
     primarySourceSynchronizers := primarySourceSynchronizers c;
     ignoreSynchronizationErrors := ignoreSynchronizationErrors c |}.

Definition verify (verifier' : V -> bool) (c : Configuration V)
    : string + Configuration V :=
  match verifier c with
  | Some registered =>
      inl ("There can only be one verifier function. You already registered this verifier function:"
           +:+ nl +:+ Function_toString registered)
  | None =>
      inr {| primarySource := primarySource c;
             secondarySources := secondarySources c;
             verifier := Some verifier';
             primarySourceSynchronizers := primarySourceSynchronizers c;
             ignoreSynchronizationErrors := ignoreSynchronizationErrors c |}
  end.

Definition synchronizeWithPrimarySource (primarySourceSynchronizer : synchronizer V)
    (c : Configuration V) : Configuration V :=
  {| primarySource := primarySource c;
     secondarySources := secondarySources c;
     verifier := verifier c;
     primarySourceSynchronizers := primarySourceSynchronizers c ++ [primarySourceSynchronizer];
     ignoreSynchronizationErrors := ignoreSynchronizationErrors c |}.

Definition ignoreSynchronizationErrors' (c : Configuration V) : Configuration V :=
  {| primarySource := primarySource c;
     secondarySources := secondarySources c;
     verifier := verifier c;
     primarySourceSynchronizers := primarySourceSynchronizers c;
     ignoreSynchronizationErrors := true |}.

(** One call of a configuring method. *)
Inductive registration :=
| PrimarySource (getter : source V)
| SecondarySource (getter : source V)
| Verify (verifier' : V -> bool)
| SynchronizeWithPrimarySource (primarySourceSynchronizer : synchronizer V)
| IgnoreSynchronizationErrors.

Definition register (r : registration) (c : Configuration V) : string + Configuration V :=
  match r with
  | PrimarySource getter => primarySource' getter c
  | SecondarySource getter => inr (secondarySource getter c)
  | Verify verifier' => verify verifier' c
  | SynchronizeWithPrimarySource f => inr (synchronizeWithPrimarySource f c)
  | IgnoreSynchronizationErrors => inr (ignoreSynchronizationErrors' c)
  end.

(** A series of such calls; a call that throws has changed nothing. *)
Definition configure (rs : list registration) (c : Configuration V) : Configuration V :=
  fold_left (fun c r => match register r c with
                        | inr c' => c'
                        | inl _ => c
                        end) rs c.

Definition secondaries_of (rs : list registration) : list (source V) :=
  omap (fun r => match r with SecondarySource g => Some g | _ => None end) rs.

Definition synchronizers_of (rs : list registration) : list (synchronizer V) :=
  omap (fun r => match r with SynchronizeWithPrimarySource f => Some f | _ => None end) rs.

Definition sets_primary (r : registration) : bool :=
  match r with PrimarySource _ => true | _ => false end.

Definition sets_verifier (r : registration) : bool :=
  match r with Verify _ => true | _ => false end.

Definition sets_ignore (r : registration) : bool :=
  match r with IgnoreSynchronizationErrors => true | _ => false end.
End Registration.

(** The message of the usage error that [get] throws on a getter without
    a primary source. *)
Definition missing_primary_message : string :=
  "Cannot get value without a primary source. Use `.primarySource(() => primarySourcePromise)`".

Section Reports.
Context {V : Type} `{JsValue V}.

(** Why a source that returned [r] counts as failed: the message its
    error carries when it is reported. (An error object that is thrown
    or rejected a second time is left aside here, and so is a value
    that passes for a promise without being one.) *)
Definition failure_text (c : Configuration V) (r : call_result V) : option string :=
  match r with
  | Returns (NotPromise v) =>
      if has_then v then None
      else Some ("it was expected to return a Promise, but instead it returned "
                 +:+ JSON_stringify v)
  | Returns (Promise (Rejects (NewError msg))) =>
      Some ("it was rejected with '" +:+ Error_toString msg +:+ "'")
  | Returns (Promise (Resolves v)) =>
      if accepts c v then None
      else Some ("the verifier function did not accept the value " +:+ JSON_stringify v)
  | _ => None
  end.

Definition failure_line (name text : string) : string :=
  "  - " +:+ name +:+ " failed because " +:+ text +:+ nl.

Definition success_line (name : string) (value : V) : string :=
  "  - " +:+ name +:+ " resolved with " +:+ JSON_stringify value +:+ nl.

Definition secondary_name (index : nat) : string :=
  "secondary source #" +:+ js_string_of_nat (index + 1).

Definition synchronizer_name (index : nat) : string :=
  "primarySourceSynchronizer function #" +:+ js_string_of_nat (index + 1).

Definition header : string :=
  "The Really Determined Property Getter has failed." +:+ nl.

(** The lines of a report, one after the other. *)
Definition join (lines : list string) : string :=
  foldr String.append EmptyString lines.

(** The report of a call in which no source delivered: one line for
    the primary source, then one for each secondary source. *)
Definition failure_report (primary : string) (secondary : nat -> string) (count : nat)
    : string :=
  header +:+ failure_line "primary source" primary +:+
  join ((fun j => failure_line (secondary_name j) (secondary j)) <$> seq 0 count).

(** Why a synchronizer that answered [r] counts as failed. What a
    synchronizer throws is caught and named like a rejection, with the
    message left as it is. (A value that passes for a promise without
    being one is left aside here.) *)
Definition synchronizer_failure_text (r : call_result V) : option string :=
  match r with
  | Throws (NewError msg) => Some msg
  | Returns (NotPromise v) =>
      if has_then v then None
      else Some ("it was expected to return a Promise, but instead it returned "
                 +:+ JSON_stringify v)
  | Returns (Promise (Rejects (NewError msg))) =>
      Some ("it was rejected with '" +:+ Error_toString msg +:+ "'")
  | _ => None
  end.

(** The report of a call in which the secondary source at position [k]
    delivered [value] and the synchronizer at position [i] failed. *)
Definition synchronization_report (primary : string) (secondary : nat -> string)
    (k : nat) (value : V) (i : nat) (text : string) : string :=
  header +:+ failure_line "primary source" primary +:+
  join ((fun j => failure_line (secondary_name j) (secondary j)) <$> seq 0 k) +:+
  success_line (secondary_name k) value +:+
  failure_line (synchronizer_name i) text.

(** The line of an error that was recorded without having been named:
    the template prints the missing name as [undefined]. *)
Definition unnamed_line (text : string) : string :=
  "  - undefined failed because " +:+ text +:+ nl.

(** The report of a call in which no source delivered and the
    secondary source at position [k] failed by throwing an error with
    the message [msg]; [count] sources come after it. *)
Definition report_with_an_exception (primary : string) (secondary : nat -> string)
    (k : nat) (msg : string) (count : nat) : string :=
  header +:+ failure_line "primary source" primary +:+
  join ((fun j => failure_line (secondary_name j) (secondary j)) <$> seq 0 k) +:+
  unnamed_line msg +:+
  join ((fun j => failure_line (secondary_name j) (secondary j)) <$> seq (S k) count).

(** The first synchronizer, from position [index] on, after which the
    next one is not called, with what it answered. *)
Fixpoint stops_at (ignore : bool) (value : V) (log : list (call V))
    (index : nat) (l : list (synchronizer V)) : option (nat * call_result V) :=
  match l with
  | [] => None
  | f :: l' =>
      let r := f (attempts (Synchronizer index) log) value in
      if continues ignore r then stops_at ignore value log (S index) l'
      else Some (index, r)
  end.

(** How a promise stands behind the synchronizers, given the one at
    which the sequence stopped: fulfilled with the value when none
    stopped it, not settled when that synchronizer has not settled,
    rejected otherwise. *)
Definition decided (stop : option (nat * call_result V)) (value : V) (s : settled V) : Prop :=
  match stop with
  | None => s = Fulfilled value
  | Some (_, Returns (Promise Pending)) => s = Unsettled
  | Some _ => exists e, s = Rejected e
  end.

(** Calling [get] again and again. *)
Fixpoint get_again (n : nat) (m : machine V) : machine V :=
  match n with
  | O => m
  | S n => get_again n (get m).2
  end.
End Reports.

End Getter.

(* ================================================================== *)
(** * The transaction                                                  *)
(* ================================================================== *)

Module Tx.

(** The regular expressions of the JavaScript engine: [RegExp source] is
    [new RegExp(source)], and [matches str re] tells whether
    [str.match(re)] finds a match. *)
Class RegExpEngine (R : Type) := {
  RegExp : string -> R;
  matches : string -> R -> bool
}.

(** What [handleStepSuccess] asks of a resolved value: whether its
    [typeof] is ['object'], and which own enumerable properties
    [Object.assign] copies from it (none from [null]). *)
Class JsObject (V : Type) := {
  is_object : V -> bool;
  own_properties : V -> gmap string V
}.

(** [this.currentStep]: missing, [NaN], or an integer. *)
Inductive step_index :=
| Unset
| NaN
| Index (z : Z).

(** [typeof x !== 'number' ? 0 : x + 1] *)
Definition advance (x : step_index) : step_index :=
  match x with
  | Unset => Index 0
  | NaN => NaN
  | Index z => Index (z + 1)
  end.

(** [x -= 1] *)
Definition decrement (x : step_index) : step_index :=
  match x with
  | Unset => NaN
  | NaN => NaN
  | Index z => Index (z - 1)
  end.

(** [x >= n] *)
Definition at_least (x : step_index) (n : Z) : bool :=
  match x with
  | Index z => (n <=? z)%Z
  | _ => false
  end.

(** Modelled from the spec: the [ordinal] function that transaction.js
    imports is an external package whose source is not part of the
    repository; the specification describes it as the standard English
    ordinal suffix rules (1st, 2nd, 3rd, 4th, ..., 11th, 12th, 13th,
    21st, ...). *)
Definition indicator (i : Z) : string :=
  let cent := (Z.abs i mod 100)%Z in
  if ((10 <=? cent) && (cent <=? 20))%Z then "th"
  else match (Z.abs i mod 10)%Z with
       | 1%Z => "st"
       | 2%Z => "nd"
       | 3%Z => "rd"
       | _ => "th"
       end.

(** [ordinal(i)]: the number followed by its suffix. *)
Definition ordinal (i : Z) : string := pretty i +:+ indicator i.

(** A step is called with the context; the natural number is the number
    of earlier invocations of that step. *)
Definition step (V : Type) := nat -> option (gmap string V) -> call_result V.

(** The callbacks a caller registers. Error and resume handlers are
    identified by a number. In the methods that follow they are
    observers, which receive their argument and return; the module
    [Raising] below has the same methods for handlers of which some
    throw, and the two agree when the handlers return. The success
    callback may throw, which the transaction reports as a failure of
    the [onSuccess callback]. *)
Definition handler := nat.
Record success_callback := { callback_id : nat; callback_raises : option thrown }.

Record specific (R : Type) := { callback : handler; pattern : R }.
Arguments callback {R} s.
Arguments pattern {R} s.

Module callbacks.
Record t (R : Type) := make {
  onSuccess : option success_callback;
  onResume : option handler;
  onError : option handler;
  onSpecificErrors : list (specific R)
}.
Arguments make {R}.
Arguments onSuccess {R} _.
Arguments onResume {R} _.
Arguments onError {R} _.
Arguments onSpecificErrors {R} _.
End callbacks.

Record Transaction (V R : Type) := {
  steps : list (step V);
  callbacks : callbacks.t R;
  currentStep : step_index;
  context : option (gmap string V);
  resumedBeforeNextTick : bool
}.
Arguments steps {V R} t.
Arguments callbacks {V R} t.
Arguments currentStep {V R} t.
Arguments context {V R} t.
Arguments resumedBeforeNextTick {V R} t.

(** What the outside world sees of a run. An error callback is logged
    with the error object it receives and the message that object carries
    at that moment. *)
Inductive event (V : Type) :=
| StepCalled (index : nat) (ctx : option (gmap string V))
| SuccessCalled (id : nat)
| ResumeCalled (id : nat)
| ErrorCalled (id : handler) (error : ref) (msg : string)
| ConsoleWarn (text : string).
Arguments StepCalled {V} index ctx.
Arguments SuccessCalled {V} id.
Arguments ResumeCalled {V} id.
Arguments ErrorCalled {V} id error msg.
Arguments ConsoleWarn {V} text.

Record machine (V R : Type) := Machine {
  self : Transaction V R;
  errors : store;
  log : list (event V)
}.
Arguments Machine {V R}.
Arguments self {V R} m.
Arguments errors {V R} m.
Arguments log {V R} m.

(** What the constructor is given: an array, whose elements are
    functions or not, or something that is not an array. *)
Inductive element (V : Type) :=
| Function (f : step V)
| NotFunction (v : V).
Arguments Function {V} f.
Arguments NotFunction {V} v.

Inductive argument (V : Type) :=
| Array (l : list (element V))
| NotArray (v : V).
Arguments Array {V} l.
Arguments NotArray {V} v.

(** How a private method ends: it returns, or an error object is
    thrown through it. *)
Inductive completion :=
| Normal
| Threw (e : ref).

(** What a call of the public interface does. *)
Inductive outcome :=
| Returned
| Raised (x : exn).

Definition to_outcome (c : completion) : outcome :=
  match c with
  | Normal => Returned
  | Threw e => Raised (Propagated e)
  end.

Section WithValues.
Context {V R : Type} `{JsValue V} `{JsObject V} `{RegExpEngine R}.

Definition is_step (i : nat) (ev : event V) : bool :=
  match ev with
  | StepCalled j _ => Nat.eqb i j
  | _ => false
  end.

(** How often step [i] has been invoked so far. *)
Definition attempts (i : nat) (l : list (event V)) : nat :=
  length (List.filter (is_step i) l).

Definition set_self (t : Transaction V R) (m : machine V R) : machine V R :=
  Machine t (errors m) (log m).
Definition set_errors (st : store) (m : machine V R) : machine V R :=
  Machine (self m) st (log m).
Definition emit (ev : event V) (m : machine V R) : machine V R :=
  Machine (self m) (errors m) (log m ++ [ev]).

Definition set_callbacks (c : callbacks.t R) (t : Transaction V R) : Transaction V R :=
  {| steps := steps t; callbacks := c; currentStep := currentStep t;
     context := context t; resumedBeforeNextTick := resumedBeforeNextTick t |}.
Definition set_currentStep (x : step_index) (t : Transaction V R) : Transaction V R :=
  {| steps := steps t; callbacks := callbacks t; currentStep := x;
     context := context t; resumedBeforeNextTick := resumedBeforeNextTick t |}.
Definition set_context (c : option (gmap string V)) (t : Transaction V R) : Transaction V R :=
  {| steps := steps t; callbacks := callbacks t; currentStep := currentStep t;
     context := c; resumedBeforeNextTick := resumedBeforeNextTick t |}.
Definition set_resumedBeforeNextTick (b : bool) (t : Transaction V R) : Transaction V R :=
  {| steps := steps t; callbacks := callbacks t; currentStep := currentStep t;
     context := context t; resumedBeforeNextTick := b |}.

(** ** The constructor *)

(** The [forEach] of the constructor: it throws at the first element
    that is not a function. *)
Fixpoint check_steps (i : nat) (l : list (element V)) : string + list (step V) :=
  match l with
  | [] => inr []
  | Function f :: l' =>
      match check_steps (S i) l' with
      | inr fs => inr (f :: fs)
      | inl msg => inl msg
      end
  | NotFunction _ :: _ =>
      inl (ordinal (Z.of_nat i + 1) +:+ " Transaction step is not a function")
  end.

(** [new Transaction(steps)]: the message of the error it throws, or
    the new object. *)
Definition new_Transaction (arg : argument V) : string + Transaction V R :=
  match arg with
  | NotArray v => inl ("Expected a list of functions, got " +:+ JSON_stringify v)
  | Array l =>
      if (length l <=? 0)%nat
      then inl "A transaction needs at least one step"
      else match check_steps 0 l with
           | inl msg => inl msg
           | inr fs =>
               inr {| steps := fs;
                      callbacks := callbacks.make None None None [];
                      currentStep := Unset;
                      context := None;
                      resumedBeforeNextTick := false |}
           end
  end.

(** ** Registering callbacks *)

Definition onSuccess (cb : option success_callback) (t : Transaction V R) : Transaction V R :=
  let c := callbacks t in
  set_callbacks (callbacks.make cb (callbacks.onResume c) (callbacks.onError c)
                   (callbacks.onSpecificErrors c)) t.

Definition then' (cb : option success_callback) (t : Transaction V R) : Transaction V R :=
  onSuccess cb t.

Definition onResume (cb : option handler) (t : Transaction V R) : Transaction V R :=
  let c := callbacks t in
  set_callbacks (callbacks.make (callbacks.onSuccess c) cb (callbacks.onError c)
                   (callbacks.onSpecificErrors c)) t.

Definition onError (cb : option handler) (t : Transaction V R) : Transaction V R :=
  let c := callbacks t in
  set_callbacks (callbacks.make (callbacks.onSuccess c) (callbacks.onResume c) cb
                   (callbacks.onSpecificErrors c)) t.

(** The first argument of [onSpecificError]: a string or a [RegExp]. *)
Inductive error_pattern :=
| Text (s : string)
| Regex (re : R).

Definition onSpecificError (error : error_pattern) (cb : handler) (t : Transaction V R)
    : Transaction V R :=
  let pattern :=
    match error with
    | Regex re => re
    | Text s => RegExp ("^" +:+ s +:+ "$")
    end in
  let c := callbacks t in
  set_callbacks (callbacks.make (callbacks.onSuccess c) (callbacks.onResume c)
                   (callbacks.onError c)
                   (callbacks.onSpecificErrors c ++ [{| callback := cb; pattern := pattern |}])) t.

(** ** Running *)

(** [this.steps[this.currentStep]] *)
Definition step_at (l : list (step V)) (x : step_index) : option (step V) :=
  match x with
  | Index z => if (0 <=? z)%Z then l !! Z.to_nat z else None
  | _ => None
  end.

Definition getNextStep (t : Transaction V R) : option (step V) * Transaction V R :=
  let t := set_currentStep (advance (currentStep t)) t in
  (step_at (steps t) (currentStep t), t).

(** The label is only asked for after a step or the success callback
    has run, when [currentStep] is an integer; for the two other cases
    the comparison is false and [ordinal] receives [NaN]. *)
Definition currentStepText (t : Transaction V R) : string :=
  if at_least (currentStep t) (Z.of_nat (length (steps t)))
  then "onSuccess callback"
  else match currentStep t with
       | Index z => ordinal (z + 1) +:+ " step"
       | _ => "NaNth step"
       end.

(** [findErrorCallback]: the handlers that the function it returns
    will call, or [None] when it returns a missing [onError]. *)
Definition findErrorCallback (errorMessage : string) (t : Transaction V R)
    : option (list handler) :=
  let errorCallbacks :=
    callback <$> List.filter (fun s => matches errorMessage (pattern s))
                   (callbacks.onSpecificErrors (callbacks t)) in
  match errorCallbacks with
  | [] => (fun h => [h]) <$> callbacks.onError (callbacks t)
  | _ => Some errorCallbacks
  end.

(** Calling the handlers with the error. *)
Definition call_handlers (hs : list handler) (error : ref) (m : machine V R) : machine V R :=
  fold_left (fun m h => emit (ErrorCalled h error (message_of (errors m) error)) m) hs m.

Definition handleStepError (error : ref) (m : machine V R) : completion * machine V R :=
  let errorCallback := findErrorCallback (message_of (errors m) error) (self m) in
  let m := set_errors
             (update error
                (fun e => set_message
                   ("Error in " +:+ currentStepText (self m) +:+ ": " +:+ message e) e)
                (errors m)) m in
  let m := set_self (set_resumedBeforeNextTick true (self m)) m in
  match errorCallback with
  | None =>
      let '(e, st) := new_TypeError (is_not_a_function "errorCallback") (errors m) in
      (Threw e, set_errors st m)
  | Some hs =>
      let m := call_handlers hs error m in
      (Normal, set_self (set_resumedBeforeNextTick false (self m)) m)
  end.

Definition afterTransactionIsComplete (m : machine V R) : completion * machine V R :=
  match callbacks.onSuccess (callbacks (self m)) with
  | None => (Normal, m)
  | Some cb =>
      let m := emit (SuccessCalled (callback_id cb)) m in
      match callback_raises cb with
      | None => (Normal, m)
      | Some t =>
          let '(e, st) := materialize t (errors m) in
          (Threw e, set_errors st m)
      end
  end.

(** [Object.assign({}, this.context, newContext)] after
    [newContext = typeof newContext === 'object' ? newContext : {}] *)
Definition merge_context (ctx : option (gmap string V)) (newContext : V) : gmap string V :=
  (if is_object newContext then own_properties newContext else ∅) ∪ default ∅ ctx.

(** [handleStepSuccess], with the [runNextStep] it ends in. *)
Definition handleStepSuccess {A} (runNextStep : machine V R -> A) (newContext : V)
    (m : machine V R) : A :=
  runNextStep
    (set_self (set_context (Some (merge_context (context (self m)) newContext)) (self m)) m).

(** The second half of [runNextStep]: what it does with the value the
    step returned, together with what the two handlers it attaches to
    a promise do once that promise settles. A value that passes the
    test [!promise || !promise.then] without being a promise has its
    [then] called, which throws. [next] is the [runNextStep] that
    [handleStepSuccess] ends in. *)
Definition afterStep (next : machine V R -> option (completion * machine V R))
    (promise : call_result V) (m : machine V R) : option (completion * machine V R) :=
  match promise with
  | Throws t =>
      let '(e, st) := materialize t (errors m) in
      Some (Threw e, set_errors st m)
  | Returns (NotPromise v) =>
      if has_then v
      then
        let '(e, st) := new_TypeError (is_not_a_function "promise.then") (errors m) in
        Some (Threw e, set_errors st m)
      else
        let '(e, st) :=
          new_Error ("it didn't return a Promise. Instead, it returned "
                     +:+ JSON_stringify v) (errors m) in
        Some (handleStepError e (set_errors st m))
  | Returns (Promise Pending) => Some (Normal, m)
  | Returns (Promise (Resolves newContext)) =>
      match handleStepSuccess next newContext m with
      | None => None
      | Some (Normal, m) => Some (Normal, m)
      | Some (Threw error, m) => Some (Normal, (handleStepError error m).2)
      end
  | Returns (Promise (Rejects t)) =>
      let '(error, st) := materialize t (errors m) in
      Some (Normal, (handleStepError error (set_errors st m)).2)
  end.

(** The position of the step that [getNextStep] has just returned. *)
Definition position (t : Transaction V R) : nat :=
  match currentStep t with
  | Index z => Z.to_nat z
  | _ => O
  end.

(** [runNextStep]. The result is how its synchronous part ends; the
    machine is the one left when everything the call set in motion has
    run. The recursion is on the number of steps that can still be
    started. *)
Fixpoint runNextStep_within (fuel : nat) (m : machine V R) : option (completion * machine V R) :=
  match fuel with
  | O => None
  | S fuel =>
      let '(nextStep, t) := getNextStep (self m) in
      let m := set_self t m in
      match nextStep with
      | None => Some (afterTransactionIsComplete m)
      | Some nextStep =>
          afterStep (runNextStep_within fuel)
            (nextStep (attempts (position t) (log m)) (context t))
            (emit (StepCalled (position t) (context t)) m)
      end
  end.

Definition runNextStep (m : machine V R) : completion * machine V R :=
  default (Normal, m) (runNextStep_within (S (length (steps (self m)))) m).

Definition execute (ctx : option (gmap string V)) (m : machine V R)
    : outcome * machine V R :=
  match callbacks.onError (callbacks (self m)) with
  | None => (Raised (UsageError "You called `execute` before assigning an `onError` callback. This means that errors in steps will be silenced. Add an `onError` callback before calling `execute`."), m)
  | Some _ =>
      if at_least (currentStep (self m)) 0
      then (Raised (UsageError "Transaction is already in progress. To resume the transaction, use the `resume` method instead of `execute`"), m)
      else
        let '(c, m) := runNextStep (set_self (set_context (Some (default ∅ ctx)) (self m)) m) in
        (to_outcome c, m)
  end.

Definition warning : string :=
  "You called `resolve` synchronously in an onError callback, which could produce an infinite loop. " +:+
  "You should probably get user input before resuming the transaction -- or if you intend to restart it automatically, you should implement that inside of the Transaction class as an auto-retry param. " +:+
  "If you do, only show this warning if auto-retry is not set to true.".

Definition resume (suppressWarning : option string) (m : machine V R)
    : outcome * machine V R :=
  if resumedBeforeNextTick (self m)
     && negb (bool_decide (suppressWarning = Some "Yes this is in test code"))
  then (Raised (UsageError warning), emit (ConsoleWarn warning) m)
  else
    let m := match callbacks.onResume (callbacks (self m)) with
             | Some h => emit (ResumeCalled h) m
             | None => m
             end in
    let m := set_self (set_currentStep (decrement (currentStep (self m))) (self m)) m in
    let '(c, m) := runNextStep m in
    (to_outcome c, m).

(** ** Sequences of calls of the public interface *)

Inductive operation :=
| Execute (ctx : option (gmap string V))
| OnSuccess (cb : option success_callback)
| Then (cb : option success_callback)
| OnResume (cb : option handler)
| OnError (cb : option handler)
| OnSpecificError (error : error_pattern) (cb : handler)
| Resume (suppressWarning : option string).

Definition register (f : Transaction V R -> Transaction V R) (m : machine V R)
    : outcome * machine V R :=
  (Returned, set_self (f (self m)) m).

Definition perform (op : operation) (m : machine V R) : outcome * machine V R :=
  match op with
  | Execute ctx => execute ctx m
  | OnSuccess cb => register (onSuccess cb) m
  | Then cb => register (then' cb) m
  | OnResume cb => register (onResume cb) m
  | OnError cb => register (onError cb) m
  | OnSpecificError error cb => register (onSpecificError error cb) m
  | Resume suppressWarning => resume suppressWarning m
  end.

Definition perform_all (ops : list operation) (m : machine V R) : machine V R :=
  fold_left (fun m op => (perform op m).2) ops m.

Definition is_execute (op : operation) : bool :=
  match op with
  | Execute _ => true
  | _ => false
  end.

(** ** Reading the log *)

(** The steps that were invoked, with the context each one received. *)
Definition steps_called (l : list (event V)) : list (nat * option (gmap string V)) :=
  omap (fun ev => match ev with StepCalled i c => Some (i, c) | _ => None end) l.

(** The error handlers that were invoked, with the error and the
    message it carried. *)
Definition handlers_called (l : list (event V)) : list (handler * ref * string) :=
  omap (fun ev => match ev with ErrorCalled h e msg => Some (h, e, msg) | _ => None end) l.

(** What a call added to the log. *)
Definition new_events (before after : machine V R) : list (event V) :=
  drop (length (log before)) (log after).

(** The dispatch as the specification words it: the patterns are tested
    against the message that already carries the prefix. *)
Definition findErrorCallback_on_prefixed (error : ref) (m : machine V R)
    : option (list handler) :=
  findErrorCallback
    ("Error in " +:+ currentStepText (self m) +:+ ": " +:+ message_of (errors m) error)
    (self m).

(** ** Describing runs *)

Implicit Types (m : machine V R) (t : Transaction V R).

(** The number of steps that [runNextStep] can still start. *)
Definition remaining t : nat :=
  match advance (currentStep t) with
  | Index z => if (0 <=? z)%Z then length (steps t) - Z.to_nat z else 0
  | _ => 0
  end.

(** The message an error carries once [handleStepError] has prefixed it. *)
Definition prefixed (error : ref) (m : machine V R) : string :=
  "Error in " +:+ currentStepText (self m) +:+ ": " +:+ message_of (errors m) error.

(** The handlers registered for patterns that match [msg]. *)
Definition matching (msg : string) (t : Transaction V R) : list handler :=
  callback <$> List.filter (fun s => matches msg (pattern s))
                 (callbacks.onSpecificErrors (callbacks t)).

(** The handlers a failure goes to: those that match, or else the
    general one. *)
Definition selected (onErr : handler) (hs : list handler) : list handler :=
  match hs with
  | [] => [onErr]
  | _ => hs
  end.

(** [execute] has not been called: the step counter is missing, or
    [NaN] after a [resume], and no failure was ever handled. *)
Definition idle t : Prop :=
  (currentStep t = Unset \/ currentStep t = NaN) /\ resumedBeforeNextTick t = false.

Definition resume_events (t : Transaction V R) : list (event V) :=
  match callbacks.onResume (callbacks t) with
  | Some h => [ResumeCalled h]
  | None => []
  end.

Definition success_events (t : Transaction V R) : list (event V) :=
  match callbacks.onSuccess (callbacks t) with
  | Some cb => [SuccessCalled (callback_id cb)]
  | None => []
  end.

(** What the [catch] handler attached by [runNextStep] adds to the way
    [handleStepSuccess] ended. *)
Definition finish (r : completion * machine V R) : machine V R :=
  match r.1 with
  | Normal => r.2
  | Threw e => (handleStepError e r.2).2
  end.

(** A step that fails: it throws, returns something that is not a
    promise, or its promise is rejected. *)
Definition fails (r : call_result V) : bool :=
  match r with
  | Throws _ | Returns (NotPromise _) | Returns (Promise (Rejects _)) => true
  | _ => false
  end.

Definition extends m m' : Prop := exists evs, log m' = log m ++ evs.

(** ** Runs of any length *)

(** The context after the steps that resolved with [rs], from [c] on. *)
Definition merged (c : gmap string V) (rs : list V) : gmap string V :=
  fold_left (fun c r => merge_context (Some c) r) rs c.

(** The invocations of the steps at positions [k], [k+1], ... that
    resolve with [rs], the first of them receiving [c]. *)
Fixpoint step_events (k : nat) (c : gmap string V) (rs : list V) : list (event V) :=
  match rs with
  | [] => []
  | r :: rs' => StepCalled k (Some c) :: step_events (S k) (merge_context (Some c) r) rs'
  end.

(** From position [k] on, with context [c], the steps resolve one after
    the other with [rs]; [lg] is the log from which their invocations
    are counted. *)
Fixpoint resolve_in_turn (fs : list (step V)) (lg : list (event V)) (k : nat)
    (c : gmap string V) (rs : list V) : Prop :=
  match rs with
  | [] => True
  | r :: rs' =>
      (exists f, fs !! k = Some f /\
         f (attempts k lg) (Some c) = Returns (Promise (Resolves r))) /\
      resolve_in_turn fs lg (S k) (merge_context (Some c) r) rs'
  end.

(** The message of the error with which [handleStepError] is called
    when a step has returned [r]: that of the rejection, or the
    complaint about a value that does not pass for a promise. (An error
    object that is rejected a second time is left aside here, and so is
    a value that passes for a promise without being one.) *)
Definition step_failure_text (r : returned V) : option string :=
  match r with
  | NotPromise v =>
      if has_then v then None
      else Some ("it didn't return a Promise. Instead, it returned " +:+ JSON_stringify v)
  | Promise (Rejects (NewError msg)) => Some msg
  | _ => None
  end.

(** The calls of the error handlers [hs] with the error [error], whose
    message is [msg] by then. *)
Definition error_events (hs : list handler) (error : ref) (msg : string) : list (event V) :=
  (fun h => ErrorCalled h error msg) <$> hs.

(** The call registers an [onError] handler. *)
Definition registers_onError (op : operation) : bool :=
  match op with
  | OnError (Some _) => true
  | _ => false
  end.

(** The call takes the [onError] handler away. *)
Definition removes_onError (op : operation) : bool :=
  match op with
  | OnError None => true
  | _ => false
  end.

(** The call only registers a callback. *)
Definition is_registration (op : operation) : bool :=
  match op with
  | Execute _ | Resume _ => false
  | _ => true
  end.

(** The pattern that [onSpecificError] stores for its first argument. *)
Definition pattern_of (error : error_pattern) : R :=
  match error with
  | Regex re => re
  | Text s => RegExp ("^" +:+ s +:+ "$")
  end.

(** The specific handlers that a series of calls registers. *)
Definition specifics_of (ops : list operation) : list (specific R) :=
  omap (fun op => match op with
                  | OnSpecificError error cb =>
                      Some {| callback := cb; pattern := pattern_of error |}
                  | _ => None
                  end) ops.

(** The success callback in place after a series of calls: what the
    last call of [onSuccess] or [then] was given. *)
Definition success_callback_after (ops : list operation)
    (before : option success_callback) : option success_callback :=
  fold_left (fun cb op => match op with
                          | OnSuccess cb' | Then cb' => cb'
                          | _ => cb
                          end) ops before.

(** What a resolved value adds to the context. *)
Definition contribution (r : V) : gmap string V :=
  if is_object r then own_properties r else ∅.

(** The message [msg] with the prefix that [handleStepError] puts in
    front of it on the transaction [t]. *)
Definition with_prefix (t : Transaction V R) (msg : string) : string :=
  "Error in " +:+ currentStepText t +:+ ": " +:+ msg.

(** The success callback returns. *)
Definition succeeds_quietly (t : Transaction V R) : Prop :=
  forall cb, callbacks.onSuccess (callbacks t) = Some cb -> callback_raises cb = None.

(** The handler [h] is registered on the transaction. *)
Definition registered (t : Transaction V R) (h : handler) : Prop :=
  callbacks.onError (callbacks t) = Some h \/
  callbacks.onResume (callbacks t) = Some h \/
  h ∈ callback <$> callbacks.onSpecificErrors (callbacks t).



End WithValues.

(** ** Callbacks that throw *)

(** [handleStepError], and the methods through which it is reached, once
    more: here [raises h] is what the error or resume callback [h]
    throws when it is called, if it throws. A callback that throws ends
    the calls of [findErrorCallback]'s function, and [handleStepError]
    with them, before the mark [resumedBeforeNextTick] is cleared. (A
    callback that calls back into the transaction is not modelled. One
    that calls [resume] at once, without the words that suppress the
    warning, has the warning thrown at it, as [resume] does on any
    transaction whose mark is set; when it lets that error through it
    ends like a callback that throws.) *)
Module Raising.
Section WithValues.
Context {V R : Type} `{JsValue V} `{JsObject V} `{RegExpEngine R}.
Variable raises : handler -> option thrown.

(** [errorCallbacks.map(errorCallback => errorCallback(...args))], or
    the call of [onError]. *)
Fixpoint call_handlers (hs : list handler) (error : ref) (m : machine V R)
    : completion * machine V R :=
  match hs with
  | [] => (Normal, m)
  | h :: hs' =>
      let m := emit (ErrorCalled h error (message_of (errors m) error)) m in
      match raises h with
      | Some t =>
          let '(e, st) := materialize t (errors m) in
          (Threw e, set_errors st m)
      | None => call_handlers hs' error m
      end
  end.

Definition handleStepError (error : ref) (m : machine V R) : completion * machine V R :=
  let errorCallback := findErrorCallback (message_of (errors m) error) (self m) in
  let m := set_errors
             (update error
                (fun e => set_message
                   ("Error in " +:+ currentStepText (self m) +:+ ": " +:+ message e) e)
                (errors m)) m in
  let m := set_self (set_resumedBeforeNextTick true (self m)) m in
  match errorCallback with
  | None =>
      let '(e, st) := new_TypeError (is_not_a_function "errorCallback") (errors m) in
      (Threw e, set_errors st m)
  | Some hs =>
      match call_handlers hs error m with
      | (Normal, m) => (Normal, set_self (set_resumedBeforeNextTick false (self m)) m)
      | (Threw e, m) => (Threw e, m)
      end
  end.

Definition afterStep (next : machine V R -> option (completion * machine V R))
    (promise : call_result V) (m : machine V R) : option (completion * machine V R) :=
  match promise with
  | Throws t =>
      let '(e, st) := materialize t (errors m) in
      Some (Threw e, set_errors st m)
  | Returns (NotPromise v) =>
      if has_then v
      then
        let '(e, st) := new_TypeError (is_not_a_function "promise.then") (errors m) in
        Some (Threw e, set_errors st m)
      else
        let '(e, st) :=
          new_Error ("it didn't return a Promise. Instead, it returned "
                     +:+ JSON_stringify v) (errors m) in
        Some (handleStepError e (set_errors st m))
  | Returns (Promise Pending) => Some (Normal, m)
  | Returns (Promise (Resolves newContext)) =>
      match handleStepSuccess next newContext m with
      | None => None
      | Some (Normal, m) => Some (Normal, m)
      | Some (Threw error, m) => Some (Normal, (handleStepError error m).2)
      end
  | Returns (Promise (Rejects t)) =>
      let '(error, st) := materialize t (errors m) in
      Some (Normal, (handleStepError error (set_errors st m)).2)
  end.

Fixpoint runNextStep_within (fuel : nat) (m : machine V R) : option (completion * machine V R) :=
  match fuel with
  | O => None
  | S fuel =>
      let '(nextStep, t) := getNextStep (self m) in
      let m := set_self t m in
      match nextStep with
      | None => Some (afterTransactionIsComplete m)
      | Some nextStep =>
          afterStep (runNextStep_within fuel)
            (nextStep (attempts (position t) (log m)) (context t))
            (emit (StepCalled (position t) (context t)) m)
      end
  end.

Definition runNextStep (m : machine V R) : completion * machine V R :=
  default (Normal, m) (runNextStep_within (S (length (steps (self m)))) m).

Definition execute (ctx : option (gmap string V)) (m : machine V R)
    : outcome * machine V R :=
  match callbacks.onError (callbacks (self m)) with
  | None => (Raised (UsageError "You called `execute` before assigning an `onError` callback. This means that errors in steps will be silenced. Add an `onError` callback before calling `execute`."), m)
  | Some _ =>
      if at_least (currentStep (self m)) 0
      then (Raised (UsageError "Transaction is already in progress. To resume the transaction, use the `resume` method instead of `execute`"), m)
      else
        let '(c, m) := runNextStep (set_self (set_context (Some (default ∅ ctx)) (self m)) m) in
        (to_outcome c, m)
  end.

Definition resume (suppressWarning : option string) (m : machine V R)
    : outcome * machine V R :=
  if resumedBeforeNextTick (self m)
     && negb (bool_decide (suppressWarning = Some "Yes this is in test code"))
  then (Raised (UsageError warning), emit (ConsoleWarn warning) m)
  else
    let m := match callbacks.onResume (callbacks (self m)) with
             | Some h => emit (ResumeCalled h) m
             | None => m
             end in
    match callbacks.onResume (callbacks (self m)) ≫= raises with
    | Some t =>
        let '(e, st) := materialize t (errors m) in
        (Raised (Propagated e), set_errors st m)
    | None =>
        let m := set_self (set_currentStep (decrement (currentStep (self m))) (self m)) m in
        let '(c, m) := runNextStep m in
        (to_outcome c, m)
    end.

Definition perform (op : operation) (m : machine V R) : outcome * machine V R :=
  match op with
  | Execute ctx => execute ctx m
  | OnSuccess cb => register (onSuccess cb) m
  | Then cb => register (then' cb) m
  | OnResume cb => register (onResume cb) m
  | OnError cb => register (onError cb) m
  | OnSpecificError error cb => register (onSpecificError error cb) m
  | Resume suppressWarning => resume suppressWarning m
  end.

Definition perform_all (ops : list operation) (m : machine V R) : machine V R :=
  fold_left (fun m op => (perform op m).2) ops m.

(** The callbacks registered on the transaction return. *)
Definition callbacks_return (t : Transaction V R) : Prop :=
  forall h, registered t h -> raises h = None.

(** The handlers of [hs] that are called: those up to the first that
    throws. *)
Fixpoint reached (hs : list handler) : list handler :=
  match hs with
  | [] => []
  | h :: hs' =>
      h :: match raises h with
           | Some _ => []
           | None => reached hs'
           end
  end.
End WithValues.
End Raising.

(** [haystack] contains [needle]. *)
Definition includes (needle haystack : string) : bool :=
  bool_decide (is_Some (index 0 needle haystack)).

End Tx.

(* ================================================================== *)
(** * Sample values and a fragment of the regular expressions          *)
(* ================================================================== *)

(** Concrete instances on which the definitions above can be run: a
    small type of values (strings and flat objects of strings, none of
    which holds a character that [JSON.stringify] escapes), and the
    regular expressions whose source is plain text, free of
    metacharacters, between an optional [^] and an optional [$]. On these
    the functions below agree with the JavaScript engine. *)
Module Sample.

Inductive value :=
| Undefined
| Str (s : string)
| Obj (fields : list (string * string)).

Definition quote : string := String "034"%char EmptyString.

Definition quoted (s : string) : string := quote +:+ s +:+ quote.

Fixpoint members (fields : list (string * string)) : string :=
  match fields with
  | [] => EmptyString
  | [(k, v)] => quoted k +:+ ":" +:+ quoted v
  | (k, v) :: rest => quoted k +:+ ":" +:+ quoted v +:+ "," +:+ members rest
  end.

Definition stringify (v : value) : string :=
  match v with
  | Undefined => "undefined"
  | Str s => quoted s
  | Obj fields => "{" +:+ members fields +:+ "}"
  end.

(** [v && v.then]: an object has the property when the first field of
    that name holds a string that is not empty. *)
Definition truthy_then (v : value) : bool :=
  match v with
  | Obj fields =>
      match (list_to_map fields : gmap string string) !! "then" with
      | Some (String _ _) => true
      | _ => false
      end
  | _ => false
  end.

#[global] Instance value_JsValue : JsValue value :=
  {| undefined := Undefined; JSON_stringify := stringify; has_then := truthy_then |}.

#[global] Instance value_JsObject : Tx.JsObject value :=
  {| Tx.is_object := fun v => match v with Obj _ => true | _ => false end;
     Tx.own_properties := fun v =>
       match v with
       | Obj fields => list_to_map (prod_map id Str <$> fields)
       | _ => ∅
       end |}.

Record regexp := { from_start : bool; to_end : bool; body : string }.

Definition ends_with (suffix str : string) : bool :=
  let n := String.length str in
  let k := String.length suffix in
  (k <=? n)%nat && String.eqb (substring (n - k) k str) suffix.

Definition strip_end (s : string) : string :=
  substring 0 (String.length s - 1) s.

Definition compile (source : string) : regexp :=
  let '(a, s) := match source with
                 | String "^"%char rest => (true, rest)
                 | _ => (false, source)
                 end in
  if ends_with "$" s
  then {| from_start := a; to_end := true; body := strip_end s |}
  else {| from_start := a; to_end := false; body := s |}.

Definition search (str : string) (re : regexp) : bool :=
  match from_start re, to_end re with
  | true, true => String.eqb (body re) str
  | true, false => String.prefix (body re) str
  | false, true => ends_with (body re) str
  | false, false => bool_decide (is_Some (index 0 (body re) str))
  end.

#[global] Instance regexp_engine : Tx.RegExpEngine regexp :=
  {| Tx.RegExp := compile; Tx.matches := search |}.


(** The source text of the sample functions: a source is printed after
    what it answers when it is first called, a verifier as a call of a
    check. *)
#[global] Instance source_text : Getter.JsFunction (Getter.source value) :=
  {| Getter.Function_toString := fun f =>
       match f 0 with
       | Returns (Promise (Resolves v)) => "() => Promise.resolve(" +:+ stringify v +:+ ")"
       | Returns (Promise (Rejects (NewError msg))) =>
           "() => Promise.reject(new Error(" +:+ quoted msg +:+ "))"
       | _ => "() => {}"
       end |}.

#[global] Instance verifier_text : Getter.JsFunction (value -> bool) :=
  {| Getter.Function_toString := fun _ => "value => check(value)" |}.

End Sample.

(* ================================================================== *)
(** * Scenarios                                                        *)
(* ================================================================== *)

(** Getters and transactions over the sample values, in the manner of
    the test suite of the repository. *)
Module Scenario.
Import Sample.

(** ** Getters *)

Definition rejecting (msg : string) : Getter.source value :=
  fun _ => Returns (Promise (Rejects (NewError msg))).

Definition resolving (v : value) : Getter.source value :=
  fun _ => Returns (Promise (Resolves v)).

Definition never_settling : Getter.source value :=
  fun _ => Returns (Promise Pending).

Definition synchronizing : Getter.synchronizer value :=
  fun _ _ => Returns (Promise (Resolves Undefined)).

Definition failing_to_synchronize (msg : string) : Getter.synchronizer value :=
  fun _ _ => Returns (Promise (Rejects (NewError msg))).

(** A getter on which [get] has not been called yet. *)
Definition getter (c : Getter.Configuration value) : Getter.machine value :=
  Getter.Machine c false (Getter.new_PromiseChainErrorCatcher EmptyString)
    Getter.new_Quitter [] [].

(** Primary rejected with [Error('X')], one secondary rejected with
    [Error('Y')]. *)
Definition two_rejections : Getter.Configuration value :=
  {| Getter.primarySource := Some (rejecting "X");
     Getter.secondarySources := [rejecting "Y"];
     Getter.verifier := None;
     Getter.primarySourceSynchronizers := [];
     Getter.ignoreSynchronizationErrors := false |}.

(** The primary source delivers, and a synchronizer is registered. *)
Definition primary_delivers : Getter.Configuration value :=
  {| Getter.primarySource := Some (resolving (Str "from primary"));
     Getter.secondarySources := [resolving (Str "from secondary")];
     Getter.verifier := None;
     Getter.primarySourceSynchronizers := [synchronizing];
     Getter.ignoreSynchronizationErrors := false |}.

(** The second of four secondary sources delivers; the second of three
    synchronizers fails. *)
Definition second_secondary_delivers (ignore : bool) : Getter.Configuration value :=
  {| Getter.primarySource := Some (rejecting "no luck with the primary");
     Getter.secondarySources :=
       [rejecting "no luck with the first secondary source";
        resolving (Str "good stuff");
        resolving (Str "too late");
        rejecting "never asked"];
     Getter.verifier := None;
     Getter.primarySourceSynchronizers :=
       [synchronizing; failing_to_synchronize "nope"; synchronizing];
     Getter.ignoreSynchronizationErrors := ignore |}.

(** The primary source returns a promise that has not settled. *)
Definition primary_in_flight : Getter.Configuration value :=
  {| Getter.primarySource := Some never_settling;
     Getter.secondarySources := [];
     Getter.verifier := None;
     Getter.primarySourceSynchronizers := [];
     Getter.ignoreSynchronizationErrors := false |}.

(** The configuration of the test [displays a detailed error message]:
    the verifier accepts the value [five] only. *)
Definition five : value := Str "1 2 3 4 5".
Definition is_five (v : value) : bool :=
  match v with
  | Str s => String.eqb s "1 2 3 4 5"
  | _ => false
  end.

Definition detailed : Getter.Configuration value :=
  {| Getter.primarySource := Some (rejecting "no luck with the primary");
     Getter.secondarySources :=
       [rejecting "no luck with the first secondary source";
        resolving (Str "1 2 3");
        fun _ => Returns (NotPromise (Obj [("vanilla", "object")]));
        resolving five;
        resolving five];
     Getter.verifier := Some is_five;
     Getter.primarySourceSynchronizers :=
       [synchronizing; failing_to_synchronize "nope"; synchronizing];
     Getter.ignoreSynchronizationErrors := false |}.

(** ** Transactions *)

Definition succeeding (v : value) : Tx.step value :=
  fun _ _ => Returns (Promise (Resolves v)).

Definition failing (msg : string) : Tx.step value :=
  fun _ _ => Returns (Promise (Rejects (NewError msg))).

(** Fails when it is first called, succeeds afterwards. *)
Definition failing_once (msg : string) (v : value) : Tx.step value :=
  fun n _ =>
    match n with
    | O => Returns (Promise (Rejects (NewError msg)))
    | _ => Returns (Promise (Resolves v))
    end.

Definition transaction_of (l : list (Tx.step value)) : Tx.Transaction value regexp :=
  {| Tx.steps := l;
     Tx.callbacks := Tx.callbacks.make None None None [];
     Tx.currentStep := Tx.Unset;
     Tx.context := None;
     Tx.resumedBeforeNextTick := false |}.

(** A transaction on which nothing has been called yet, in a world
    without error objects. *)
Definition fresh (t : Tx.Transaction value regexp) : Tx.machine value regexp :=
  Tx.Machine t [] [].

Definition five_steps : list (Tx.step value) :=
  [succeeding (Obj [("step1", "foo")]);
   succeeding (Obj [("step2", "bar")]);
   failing_once "step 3 failed" (Obj [("step3", "baz")]);
   succeeding (Str "foobar");
   succeeding Undefined].

Definition watched : Tx.callbacks.t regexp :=
  Tx.callbacks.make (Some {| Tx.callback_id := 9; Tx.callback_raises := None |})
    (Some 8) (Some 7) [].

Definition initial : gmap string value := {[ "initial" := Str "zilch" ]}.

(** Two steps, the second of which is rejected with [fizzle-quux]; a
    specific handler (1) for that text, another (2) for [something else],
    and the general handler (7). *)
Definition routed : Tx.Transaction value regexp :=
  Tx.onSpecificError (Tx.Text "something else") 2
    (Tx.onSpecificError (Tx.Text "fizzle-quux") 1
       (Tx.onError (Some 7)
          (transaction_of [succeeding Undefined; failing "fizzle-quux"]))).

(** The machine in which the second step of [routed] has just failed. *)
Definition routed_at_failure : Tx.machine value regexp :=
  Tx.Machine
    (Tx.set_context (Some ∅) (Tx.set_currentStep (Tx.Index 1) routed))
    [mkError "fizzle-quux" None]
    [Tx.StepCalled 0 (Some ∅); Tx.StepCalled 1 (Some ∅)].

(** [routed] with a second handler (3) for the text [fizzle-quux]. *)
Definition doubly_routed : Tx.Transaction value regexp :=
  Tx.onSpecificError (Tx.Text "fizzle-quux") 3 routed.


(** Two steps that succeed, with all callbacks registered. *)
Definition two_steps : Tx.machine value regexp :=
  fresh (Tx.set_callbacks watched
           (transaction_of [succeeding Undefined; succeeding Undefined])).


(** ** Further getters *)

(** A source that throws instead of returning a promise. *)
Definition throwing_source (msg : string) : Getter.source value :=
  fun _ => Throws (NewError msg).

Definition primary_throws : Getter.Configuration value :=
  {| Getter.primarySource := Some (throwing_source "boom");
     Getter.secondarySources := [resolving (Str "never asked")];
     Getter.verifier := None;
     Getter.primarySourceSynchronizers := [];
     Getter.ignoreSynchronizationErrors := false |}.

(** The primary source returns an object that has a property [then]
    and is no promise. *)
Definition primary_looks_like_a_promise : Getter.Configuration value :=
  {| Getter.primarySource := Some (fun _ => Returns (NotPromise (Obj [("then", "soon")])));
     Getter.secondarySources := [resolving (Str "never asked")];
     Getter.verifier := None;
     Getter.primarySourceSynchronizers := [];
     Getter.ignoreSynchronizationErrors := false |}.

(** No source delivers: a rejection, a value that is not verified, and
    something that is not a promise. *)
Definition nothing_delivered : Getter.Configuration value :=
  {| Getter.primarySource := Some (rejecting "no luck with the primary");
     Getter.secondarySources :=
       [rejecting "no luck with the first secondary source";
        resolving (Str "1 2 3");
        fun _ => Returns (NotPromise (Obj [("vanilla", "object")]))];
     Getter.verifier := Some is_five;
     Getter.primarySourceSynchronizers := [synchronizing];
     Getter.ignoreSynchronizationErrors := false |}.

Definition reasons (j : nat) : string :=
  match j with
  | 0 => "it was rejected with 'Error: no luck with the first secondary source'"
  | 1 => "the verifier function did not accept the value " +:+ quoted "1 2 3"
  | _ => "it was expected to return a Promise, but instead it returned {"
         +:+ quoted "vanilla" +:+ ":" +:+ quoted "object" +:+ "}"
  end.

(** The second of three secondary sources throws; no source delivers. *)
Definition one_source_throws : Getter.Configuration value :=
  {| Getter.primarySource := Some (rejecting "no luck with the primary");
     Getter.secondarySources :=
       [rejecting "no luck with the first secondary source";
        throwing_source "kaboom";
        resolving (Str "1 2 3")];
     Getter.verifier := Some is_five;
     Getter.primarySourceSynchronizers := [synchronizing];
     Getter.ignoreSynchronizationErrors := false |}.

Definition excuses (j : nat) : string :=
  match j with
  | 0 => "it was rejected with 'Error: no luck with the first secondary source'"
  | _ => "the verifier function did not accept the value " +:+ quoted "1 2 3"
  end.

(** The secondary source is rejected with the error object that the
    primary source was rejected with: the first object of a store that
    was empty. *)
Definition rejected_again : Getter.Configuration value :=
  {| Getter.primarySource := Some (rejecting "X");
     Getter.secondarySources := [fun _ => Returns (Promise (Rejects (SameError 0)))];
     Getter.verifier := None;
     Getter.primarySourceSynchronizers := [];
     Getter.ignoreSynchronizationErrors := false |}.

(** A series of calls of the configuring methods. *)
Definition registrations : list (Getter.registration (V:=value)) :=
  [Getter.SecondarySource (rejecting "Y");
   Getter.PrimarySource (resolving (Str "first"));
   Getter.Verify is_five;
   Getter.PrimarySource (resolving (Str "second"));
   Getter.IgnoreSynchronizationErrors;
   Getter.Verify (fun _ => true)].

(** A machine that holds one error object, which carries no name. *)
Definition with_an_error : Getter.machine value :=
  Getter.Machine two_rejections false (Getter.new_PromiseChainErrorCatcher "The chain")
    Getter.new_Quitter [mkError "bad stuff" None] [].

(** ** Further transactions *)

Definition throwing (msg : string) : Tx.step value :=
  fun _ _ => Throws (NewError msg).

Definition hanging : Tx.step value :=
  fun _ _ => Returns (Promise Pending).


(** No callback throws. *)
Definition obliging : Tx.handler -> option thrown := fun _ => None.

(** The callback 1 throws, the others return. *)
Definition touchy : Tx.handler -> option thrown :=
  fun h => if Nat.eqb h 1 then Some (NewError "unlucky") else None.

(** The machine in which the second step of [doubly_routed] has just
    failed. *)
Definition doubly_routed_at_failure : Tx.machine value regexp :=
  Tx.Machine
    (Tx.set_context (Some ∅) (Tx.set_currentStep (Tx.Index 1) doubly_routed))
    [mkError "fizzle-quux" None]
    [Tx.StepCalled 0 (Some ∅); Tx.StepCalled 1 (Some ∅)].

(** A transaction with the general handler 7 and the steps [l]. *)
Definition handled (l : list (Tx.step value)) : Tx.machine value regexp :=
  fresh (Tx.onError (Some 7) (transaction_of l)).

(** Three steps of which the second has failed once: the counter stands
    at it, and the log holds its first invocation. *)
Definition stalled : Tx.machine value regexp :=
  Tx.Machine
    (Tx.set_context (Some initial)
       (Tx.set_currentStep (Tx.Index 1)
          (Tx.set_callbacks watched
             (transaction_of
                [succeeding Undefined;
                 failing_once "not yet" (Obj [("second", "done")]);
                 succeeding (Str "third")]))))
    [mkError "Error in 2nd step: not yet" None]
    [Tx.StepCalled 0 (Some initial); Tx.StepCalled 1 (Some initial);
     Tx.ErrorCalled 7 0 "Error in 2nd step: not yet"].

(** The success callback throws. *)
Definition ungrateful : Tx.callbacks.t regexp :=
  Tx.callbacks.make
    (Some {| Tx.callback_id := 9; Tx.callback_raises := Some (NewError "oops") |})
    None (Some 7) [].

(** A series of registrations on a transaction. *)
Definition bookings : list (Tx.operation (V:=value) (R:=regexp)) :=
  [Tx.OnSuccess (Some {| Tx.callback_id := 9; Tx.callback_raises := None |});
   Tx.OnSpecificError (Tx.Text "fizzle-quux") 1;
   Tx.Then (Some {| Tx.callback_id := 10; Tx.callback_raises := None |});
   Tx.OnError (Some 7);
   Tx.OnSpecificError (Tx.Text "fizzle-quux") 1].

(** A failure is being handled. *)
Definition handling : Tx.machine value regexp :=
  Tx.Machine (Tx.set_resumedBeforeNextTick true (Tx.self routed_at_failure))
    (Tx.errors routed_at_failure) (Tx.log routed_at_failure).

End Scenario.

(* ================================================================== *)
(** * Properties of the determined getter                              *)
(* ================================================================== *)

(** ** Error objects *)

Lemma message_set_message msg (e : Error) : message (set_message msg e) = msg.
Proof. by destruct e. Qed.

Lemma stepName_set_message msg (e : Error) : stepName (set_message msg e) = stepName e.
Proof. by destruct e. Qed.

Lemma message_set_stepName name (e : Error) : message (set_stepName name e) = message e.
Proof. by destruct e. Qed.

Lemma stepName_set_stepName name (e : Error) : stepName (set_stepName name e) = Some name.
Proof. by destruct e. Qed.

Section GetterRuns.
Import Getter.
Context {V : Type} `{JsValue V}.
Implicit Types (m : machine V) (c : Configuration V) (log : list (call V)).

Lemma attempts_app f log1 log2 :
  attempts f (log1 ++ log2) = attempts f log1 + attempts f log2.
Proof. unfold attempts. by rewrite filter_app, length_app. Qed.

Lemma attempts_other f g (a : option V) log :
  f <> g -> attempts f (log ++ [Call g a]) = attempts f log.
Proof.
  intros Hne. rewrite attempts_app. unfold attempts at 2.
  rewrite filter_cons_False by (simpl; congruence). simpl. lia.
Qed.

(** ** One synchronizer *)

Lemma eachSynchronizer_fulfilled ignore value f index p m a m1 :
  p m = (Fulfilled a, m1) ->
  let r := f (attempts (Synchronizer index) (calls m1)) value in
  let rm := eachSynchronizer ignore value f index p m in
  same_instance m1 rm.2 /\
  calls rm.2 = calls m1 ++ [Call (Synchronizer index) (Some value)] /\
  match rm.1 with
  | Fulfilled v => v = value /\ quitter rm.2 = quitter m1 /\ continues ignore r = true
  | Rejected _ => ignore = false /\ doQuit (quitter rm.2) = true /\ continues ignore r = false
  | Unsettled => continues ignore r = false
  end.
Proof.
  intros Hp r rm. unfold rm, eachSynchronizer, then_, catch_, called, invoke. rewrite Hp.
  simpl. fold r. unfold same_instance.
  destruct r as [t|[v|[v|t|]]]; simpl;
    try destruct (has_then v); simpl;
    try destruct t; destruct ignore; simpl; unfold update; simpl;
    repeat case_match; simpl; auto.
Qed.

Lemma eachSynchronizer_rejected value f index p m e m1 :
  p m = (Rejected e, m1) ->
  let rm := eachSynchronizer false value f index p m in
  same_instance m1 rm.2 /\ calls rm.2 = calls m1 /\
  rm.1 = Rejected e /\ doQuit (quitter rm.2) = true.
Proof.
  intros Hp rm. unfold rm, eachSynchronizer, then_, catch_. rewrite Hp.
  simpl. unfold same_instance, update. repeat case_match; simpl; auto.
Qed.

Lemma eachSynchronizer_unsettled ignore value f index p m m1 :
  p m = (Unsettled, m1) ->
  eachSynchronizer ignore value f index p m = (Unsettled, m1).
Proof. intros Hp. unfold eachSynchronizer, then_, catch_. by rewrite Hp. Qed.

Lemma same_instance_trans m0 m1 m2 :
  same_instance m0 m1 -> same_instance m1 m2 -> same_instance m0 m2.
Proof. unfold same_instance. intros (-> & -> & ->) (-> & -> & ->). done. Qed.

Lemma same_instance_refl m : same_instance m m.
Proof. done. Qed.

(** ** All synchronizers *)

Lemma synchronizer_calls_S (value : V) n :
  synchronizer_calls value (S n) =
    synchronizer_calls value n ++ [Call (Synchronizer n) (Some value)].
Proof. unfold synchronizer_calls. by rewrite seq_S, fmap_app. Qed.

Lemma attempts_synchronizer_calls j (value : V) n log :
  n <= j ->
  attempts (Synchronizer j) (log ++ synchronizer_calls value n) =
    attempts (Synchronizer j) log.
Proof.
  induction n as [|n IH]; intros Hle.
  - unfold synchronizer_calls. simpl. by rewrite app_nil_r.
  - rewrite synchronizer_calls_S, app_assoc, attempts_other; [apply IH; lia|].
    intros [= ->]. lia.
Qed.

(** The loop of [performSynchronizationWithPrimary], entered at
    synchronizer [index] with the promise built so far: [log0] is the
    log from which the synchronizers count their invocations, [m1] the
    machine when the first synchronizer was reached. *)
Lemma synchronizers_loop ignore value log0 :
  forall l index p m m1 n,
    (forall j, attempts (Synchronizer j) (calls m1) = attempts (Synchronizer j) log0) ->
    same_instance m1 (p m).2 ->
    calls (p m).2 = calls m1 ++ synchronizer_calls value n ->
    match (p m).1 with
    | Fulfilled v => v = value /\ quitter (p m).2 = quitter m1 /\ n = index
    | Rejected _ => ignore = false /\ doQuit (quitter (p m).2) = true /\ n <= index
    | Unsettled => n <= index
    end ->
    let rm := forEach_from (eachSynchronizer ignore value) index l p m in
    let n' := match (p m).1 with
              | Fulfilled _ => index + synchronizers_called ignore value log0 index l
              | _ => n
              end in
    same_instance m1 rm.2 /\
    calls rm.2 = calls m1 ++ synchronizer_calls value n' /\
    match rm.1 with
    | Fulfilled v => v = value /\ quitter rm.2 = quitter m1
    | Rejected _ => ignore = false /\ doQuit (quitter rm.2) = true
    | Unsettled => True
    end.
Proof.
  induction l as [|f l IH]; intros index p m m1 n Hatt Hsame Hcalls Hres; simpl.
  - destruct (p m) as [[v|e|] m2]; simpl in *.
    + destruct Hres as (-> & Hq & ->). by rewrite Nat.add_0_r.
    + destruct Hres as (-> & Hq & _). done.
    + done.
  - destruct (p m) as [[a|e|] m2] eqn:Hp; simpl in *.
    + destruct Hres as (-> & Hq & ->).
      pose proof (eachSynchronizer_fulfilled ignore value f index p m _ _ Hp) as (Hs & Hc & Hr).
      simpl in Hr.
      assert (attempts (Synchronizer index) (calls m2) = attempts (Synchronizer index) log0) as Hai.
      { rewrite Hcalls, attempts_synchronizer_calls by lia. apply Hatt. }
      rewrite Hai in Hr.
      specialize (IH (S index) (eachSynchronizer ignore value f index p) m m1 (S index) Hatt).
      destruct IH as (Hs' & Hc' & Hr').
      * by eapply same_instance_trans.
      * by rewrite Hc, Hcalls, synchronizer_calls_S, app_assoc.
      * destruct (eachSynchronizer ignore value f index p m) as [[v|e|] m3]; simpl in *.
        -- destruct Hr as (-> & Hq' & _). split; [done|]. split; [congruence|done].
        -- destruct Hr as (-> & Hq' & _). auto.
        -- lia.
      * split; [done|]. split; [|done]. rewrite Hc'.
        destruct (eachSynchronizer ignore value f index p m) as [[v|e|] m3]; simpl in *.
        -- destruct Hr as (_ & _ & ->). do 2 f_equal. lia.
        -- destruct Hr as (_ & _ & ->). do 2 f_equal. lia.
        -- rewrite Hr. do 2 f_equal. lia.
    + destruct Hres as (-> & Hq & Hle).
      pose proof (eachSynchronizer_rejected value f index p m _ _ Hp) as (Hs & Hc & Hr & Hd).
      specialize (IH (S index) (eachSynchronizer false value f index p) m m1 n Hatt).
      rewrite Hr in IH. apply IH.
      * by eapply same_instance_trans.
      * by rewrite Hc.
      * auto.
    + pose proof (eachSynchronizer_unsettled ignore value f index p m _ Hp) as Hu.
      specialize (IH (S index) (eachSynchronizer ignore value f index p) m m1 n Hatt).
      rewrite Hu in IH. simpl in IH. apply IH; auto.
Qed.

Lemma performSynchronizationWithPrimary_spec value m log0 :
  (forall j, attempts (Synchronizer j) (calls m) = attempts (Synchronizer j) log0) ->
  let rm := performSynchronizationWithPrimary value m in
  let n := synchronizers_called (ignoreSynchronizationErrors (configuration m)) value log0 0
             (primarySourceSynchronizers (configuration m)) in
  same_instance m rm.2 /\
  calls rm.2 = calls m ++ synchronizer_calls value n /\
  match rm.1 with
  | Fulfilled v => v = value /\ quitter rm.2 = quitter m
  | Rejected _ => doQuit (quitter rm.2) = true
  | Unsettled => True
  end.
Proof.
  intros Hatt rm n. unfold rm, performSynchronizationWithPrimary, forEach.
  pose proof (synchronizers_loop (ignoreSynchronizationErrors (configuration m)) value log0
                (primarySourceSynchronizers (configuration m)) 0 (resolve value) m m 0 Hatt)
    as Hloop.
  simpl in Hloop. destruct Hloop as (Hs & Hc & Hr); try done.
  { unfold synchronizer_calls. simpl. by rewrite app_nil_r. }
  split; [done|]. split; [done|].
  revert Hr. generalize (forEach_from
    (eachSynchronizer (ignoreSynchronizationErrors (configuration m)) value) 0
    (primarySourceSynchronizers (configuration m)) (resolve value) m).
  intros [[v|e|] m']; simpl; tauto.
Qed.

(** ** One secondary source *)

Lemma same_instance_configuration m0 m : same_instance m0 m -> same_configuration m0 m.
Proof. intros (? & ? & ?). by split. Qed.

Lemma same_configuration_trans m0 m1 m2 :
  same_configuration m0 m1 -> same_configuration m1 m2 -> same_configuration m0 m2.
Proof. unfold same_configuration. intros (-> & ->) (-> & ->). done. Qed.

(** Closes a goal about a handler that only allocates or updates error
    objects, by cases on the objects it looks up. *)
Ltac by_cases_on_the_store :=
  unfold same_configuration, update; simpl;
  repeat case_match; simpl; repeat split; eauto.

Lemma trySecondarySource_quit f index e m :
  doQuit (quitter m) = true ->
  trySecondarySource f index e m = (Rejected e, m).
Proof. intros Hq. unfold trySecondarySource, then_, maybeQuit. by rewrite Hq. Qed.

Lemma trySecondarySource_spec f index e m log0 :
  doQuit (quitter m) = false ->
  (forall j, attempts (Synchronizer j) (calls m) = attempts (Synchronizer j) log0) ->
  let r := f (attempts (Secondary index) (calls m)) in
  let rm := trySecondarySource f index e m in
  same_configuration m rm.2 /\
  match r with
  | Returns (Promise Pending) =>
      rm.1 = Unsettled /\ calls rm.2 = calls m ++ [Call (Secondary index) None]
  | Returns (Promise (Resolves value)) =>
      if accepts (configuration m) value
      then calls rm.2 =
             calls m ++ [Call (Secondary index) None] ++
             synchronizer_calls value
               (synchronizers_called (ignoreSynchronizationErrors (configuration m))
                  value log0 0 (primarySourceSynchronizers (configuration m))) /\
           match rm.1 with
           | Fulfilled v => v = value
           | Rejected _ => doQuit (quitter rm.2) = true
           | Unsettled => True
           end
      else (exists e', rm.1 = Rejected e') /\ quitter rm.2 = quitter m /\
           calls rm.2 = calls m ++ [Call (Secondary index) None]
  | _ =>
      (exists e', rm.1 = Rejected e') /\ quitter rm.2 = quitter m /\
      calls rm.2 = calls m ++ [Call (Secondary index) None]
  end.
Proof.
  intros Hq Hatt r rm.
  unfold rm, trySecondarySource, then_, catch_, maybeQuit, called, invoke, modify.
  rewrite Hq. simpl. fold r.
  destruct r as [t|[v|[v|t|]]]; simpl.
  - destruct t; simpl; unfold same_configuration; simpl; repeat split; eauto.
  - by_cases_on_the_store.
  - assert (forall m1,
      same_configuration m m1 ->
      calls m1 = calls m ++ [Call (Secondary index) None] ->
      let rm := performSynchronizationWithPrimary v m1 in
      same_configuration m rm.2 /\
      calls rm.2 = calls m ++ [Call (Secondary index) None] ++
         synchronizer_calls v
           (synchronizers_called (ignoreSynchronizationErrors (configuration m))
              v log0 0 (primarySourceSynchronizers (configuration m))) /\
      match rm.1 with
      | Fulfilled v' => v' = v
      | Rejected _ => doQuit (quitter rm.2) = true
      | Unsettled => True
      end) as Hsync.
    { intros m1 [Hcfg Hgip] Hc1 rm'.
      pose proof (performSynchronizationWithPrimary_spec v m1 log0) as Hp.
      simpl in Hp. rewrite Hcfg in Hp.
      destruct Hp as (Hs & Hc & Hr).
      { intros j. rewrite Hc1, attempts_other by done. apply Hatt. }
      split.
      { eapply same_configuration_trans; [|by apply same_instance_configuration]. done. }
      fold rm' in Hc, Hr. rewrite Hc, Hc1, <- app_assoc. split; [done|].
      destruct rm' as [[v'|e'|] m']; simpl in *; tauto. }
    unfold verifyValue, accepts, nameError, recordSuccess, then_, modify, resolve, reject,
      throw_new. simpl.
    destruct (verifier (configuration m)) as [verify|]; simpl;
      [destruct (verify v) eqn:Hv; simpl|].
    + apply Hsync; done.
    + by_cases_on_the_store.
    + apply Hsync; done.
  - destruct t; by_cases_on_the_store.
  - unfold same_configuration; simpl; repeat split; eauto.
Qed.

(** ** All secondary sources *)

Lemma forEach_secondaries l : forall index (p : chain (machine V) V) m,
  forEach_from (fun f i q => q CATCH trySecondarySource f i) index l p m =
    match p m with
    | (Rejected e, m1) => secondaries_from index l e m1
    | other => other
    end.
Proof.
  induction l as [|f l IH]; intros index p m; simpl.
  - by destruct (p m) as [[v|e|] m1].
  - rewrite IH. unfold catch_. by destruct (p m) as [[v|e|] m1].
Qed.

Lemma getFromSecondaries_loop e m :
  getFromSecondaries e m = secondaries_from 0 (secondarySources (configuration m)) e m.
Proof. unfold getFromSecondaries, forEach. by rewrite forEach_secondaries. Qed.

Lemma secondaries_from_quit l : forall index e m,
  doQuit (quitter m) = true -> secondaries_from index l e m = (Rejected e, m).
Proof.
  induction l as [|f l IH]; intros index e m Hq; [done|].
  simpl. rewrite trySecondarySource_quit by done. by apply IH.
Qed.

Lemma secondary_calls_cons first count :
  secondary_calls (V:=V) first (S count) =
    Call (Secondary first) None :: secondary_calls (S first) count.
Proof. done. Qed.

(** Whatever the sources do, the loop leaves the configuration and the
    guard of the instance alone. *)
Lemma secondaries_from_configuration l : forall index e m,
  same_configuration m (secondaries_from index l e m).2.
Proof.
  induction l as [|f l IH]; intros index e m; [done|]. simpl.
  destruct (doQuit (quitter m)) eqn:Hq.
  - rewrite trySecondarySource_quit by done. apply IH.
  - destruct (trySecondarySource_spec f index e m (calls m) Hq ltac:(done)) as [Hs _].
    destruct (trySecondarySource f index e m) as [[v|e'|] m']; simpl in *; try done.
    eapply same_configuration_trans; [exact Hs|apply IH].
Qed.

(** The loop when the sources before position [index + d] fail and the
    one at that position is accepted. *)
Lemma secondaries_from_accepted log0 value : forall d l index e m f,
  doQuit (quitter m) = false ->
  (forall j, attempts (Synchronizer j) (calls m) = attempts (Synchronizer j) log0) ->
  (forall j, index <= j -> attempts (Secondary j) (calls m) = attempts (Secondary j) log0) ->
  (forall j g, j < d -> l !! j = Some g ->
     source_fails (configuration m) (g (attempts (Secondary (index + j)) log0)) = true) ->
  l !! d = Some f ->
  f (attempts (Secondary (index + d)) log0) = Returns (Promise (Resolves value)) ->
  accepts (configuration m) value = true ->
  let rm := secondaries_from index l e m in
  same_configuration m rm.2 /\
  calls rm.2 =
    calls m ++ secondary_calls index (S d) ++
    synchronizer_calls value
      (synchronizers_called (ignoreSynchronizationErrors (configuration m)) value log0 0
         (primarySourceSynchronizers (configuration m))) /\
  match rm.1 with
  | Fulfilled v => v = value
  | _ => True
  end.
Proof.
  induction d as [|d IH]; intros l index e m f Hq Hsync Hsec Hfail Hl Hf Hacc;
    destruct l as [|g l]; try done; simpl in Hl; simpl.
  - injection Hl as ->.
    pose proof (trySecondarySource_spec f index e m log0 Hq Hsync) as [Hs Hr].
    simpl in Hr. rewrite Hsec in Hr by lia. rewrite Nat.add_0_r in Hf. rewrite Hf, Hacc in Hr.
    destruct Hr as [Hc Hr].
    destruct (trySecondarySource f index e m) as [[v|e'|] m'] eqn:Ht; simpl in *.
    + done.
    + by rewrite secondaries_from_quit.
    + done.
  - pose proof (trySecondarySource_spec g index e m log0 Hq Hsync) as [Hs Hr].
    simpl in Hr. rewrite Hsec in Hr by lia.
    pose proof (Hfail 0 g ltac:(lia) eq_refl) as Hg. rewrite Nat.add_0_r in Hg.
    assert (exists e' m', trySecondarySource g index e m = (Rejected e', m') /\
              quitter m' = quitter m /\
              calls m' = calls m ++ [Call (Secondary index) None]) as (e' & m' & Ht & Hq' & Hc').
    { destruct (g (attempts (Secondary index) log0)) as [t|[v|[v|t|]]]; simpl in Hg; try done;
        try (apply negb_true_iff in Hg; rewrite Hg in Hr);
        destruct Hr as ([e' He'] & Hq' & Hc');
        destruct (trySecondarySource g index e m) as [r m']; simpl in *; subst r; eauto. }
    rewrite Ht in Hs. simpl in Hs. rewrite Ht.
    destruct Hs as [Hcfg Hgip].
    destruct (IH l (S index) e' m' f) as (Hs2 & Hc2 & Hr2).
    + congruence.
    + intros j. rewrite Hc', attempts_other by done. apply Hsync.
    + intros j Hj. rewrite Hc', attempts_other by (intros [= ->]; lia). apply Hsec. lia.
    + intros j g' Hj Hg'. rewrite Hcfg.
      replace (S index + j) with (index + S j) by lia. apply (Hfail (S j)); [lia|done].
    + done.
    + by replace (S index + d) with (index + S d) by lia.
    + by rewrite Hcfg.
    + split; [by eapply same_configuration_trans|].
      rewrite Hcfg in Hc2. rewrite Hc2, Hc', <- app_assoc. split; [|done].
      reflexivity.
Qed.

Lemma extends_refl m : extends m m.
Proof. exists []. by rewrite app_nil_r. Qed.

Lemma extends_trans m1 m2 m3 : extends m1 m2 -> extends m2 m3 -> extends m1 m3.
Proof. intros [l1 H1'] [l2 H2']. exists (l1 ++ l2). by rewrite H2', H1', <- app_assoc. Qed.

Lemma trySecondarySource_extends f index e m :
  extends m (trySecondarySource f index e m).2.
Proof.
  destruct (doQuit (quitter m)) eqn:Hq.
  - rewrite trySecondarySource_quit by done. apply extends_refl.
  - destruct (trySecondarySource_spec f index e m (calls m) Hq ltac:(done)) as [_ Hr].
    simpl in Hr. unfold extends.
    destruct (f _) as [t|[v|[v|t|]]]; try destruct (accepts _ _);
      try destruct Hr as (_ & _ & ->); try destruct Hr as (-> & _);
      try destruct Hr as (_ & ->); eauto.
Qed.

Lemma secondaries_from_extends l : forall index e m,
  extends m (secondaries_from index l e m).2.
Proof.
  induction l as [|f l IH]; intros index e m; [apply extends_refl|]. simpl.
  pose proof (trySecondarySource_extends f index e m) as Hx.
  destruct (trySecondarySource f index e m) as [[v|e'|] m']; simpl in *; try done.
  eapply extends_trans; [exact Hx|apply IH].
Qed.

(** ** [get] *)

Lemma TypeError_of_promise (s : settlement V) : TypeError_of (Promise s) = None.
Proof. by destruct s. Qed.

Lemma TypeError_of_NotPromise (v : V) :
  TypeError_of (NotPromise v) =
    if has_then v then Some (is_not_a_function "maybeAPromise.catch") else None.
Proof. unfold TypeError_of. simpl. by destruct (has_then v). Qed.

Lemma source_fails_gave c x : source_fails c (Returns x) = true -> TypeError_of x = None.
Proof.
  destruct x as [v|s]; [|intros _; apply TypeError_of_promise].
  simpl. rewrite TypeError_of_NotPromise. by destruct (has_then v).
Qed.

Lemma get_unfold m p :
  getInProgress m = false ->
  primarySource (configuration m) = Some p ->
  get m =
    match p (attempts Primary (calls m)) with
    | Throws t =>
        let '(e, st) := materialize t (errors (started m)) in
        (Raises (Propagated e), set_errors st (started m))
    | Returns x =>
        match TypeError_of x with
        | Some msg =>
            (Raises (Propagated (length (errors m))),
             set_errors (errors m ++ [mkTypeError msg None]) (started m))
        | None =>
            let out := settle (fall_back (primary_stage x (started m))) in
            (Gives out.1, out.2)
        end
    end.
Proof.
  intros Hgip Hp. unfold get. rewrite Hgip, Hp. unfold invoke. simpl.
  destruct (p _) as [t|x]; [done|].
  unfold TypeError_of, primary_stage, returning. fold (started m).
  destruct (assertIsPromise x) as [promise|msg]; [|done].
  unfold settle, fall_back, then_, catch_.
  destruct (promise (started m)) as [[v|e|] m1]; simpl; try done.
  - destruct (verifyValue v m1) as [[v'|e|] m2]; simpl; try done.
    match goal with |- context [getFromSecondaries ?e ?m] =>
      by destruct (getFromSecondaries e m) as [[?|?|] ?] end.
  - match goal with |- context [getFromSecondaries ?e ?m] =>
      by destruct (getFromSecondaries e m) as [[?|?|] ?] end.
Qed.

Lemma primary_stage_spec x m :
  let rm := primary_stage x m in
  same_configuration m rm.2 /\ calls rm.2 = calls m /\ quitter rm.2 = quitter m /\
  match x with
  | Promise Pending => rm.1 = Unsettled
  | Promise (Resolves value) =>
      if accepts (configuration m) value
      then rm.1 = Fulfilled value
      else exists e, rm.1 = Rejected e
  | _ => exists e, rm.1 = Rejected e
  end.
Proof.
  unfold primary_stage, then_, catch_, same_configuration.
  destruct x as [v|[v|t|]]; simpl.
  - unfold update; simpl. repeat case_match; simpl; repeat split; eauto.
  - unfold verifyValue, accepts. destruct (verifier (configuration m)) as [verify|]; simpl;
      [destruct (verify v); simpl|]; unfold update; simpl;
      repeat case_match; simpl; repeat split; eauto.
  - destruct t; unfold update; simpl; repeat case_match; simpl; repeat split; eauto.
  - repeat split; eauto.
Qed.

Lemma settle_spec rm :
  let out := settle rm in
  configuration out.2 = configuration rm.2 /\ calls out.2 = calls rm.2 /\
  match rm.1 with
  | Fulfilled value => out.1 = Fulfilled value /\ getInProgress out.2 = false
  | Rejected _ => (exists e, out.1 = Rejected e) /\ getInProgress out.2 = false
  | Unsettled => out = (Unsettled, rm.2)
  end.
Proof.
  unfold settle, then_, catch_. destruct rm as [[v|e|] m]; simpl; repeat split; eauto.
Qed.

Lemma fall_back_spec rm :
  same_configuration rm.2 (fall_back rm).2 /\ extends rm.2 (fall_back rm).2 /\
  match rm.1 with
  | Rejected _ => True
  | _ => fall_back rm = rm
  end.
Proof.
  destruct rm as [[v|e|] m]; simpl; repeat split; try apply extends_refl.
  - rewrite getFromSecondaries_loop. apply secondaries_from_configuration.
  - rewrite getFromSecondaries_loop. apply secondaries_from_configuration.
  - rewrite getFromSecondaries_loop. apply secondaries_from_extends.
Qed.

Lemma calls_during_app m m' l : calls m' = calls m ++ l -> calls_during m m' = l.
Proof. unfold calls_during. intros ->. by rewrite drop_app_length. Qed.

Lemma calls_during_same m m' : calls m' = calls m -> calls_during m m' = [].
Proof. intros Hc. apply calls_during_app. by rewrite app_nil_r. Qed.

(** The run in which the primary source fails, the secondary sources
    before position [k] fail, and the one at position [k] is
    accepted. *)
Lemma get_falls_back m p x k f value :
  getInProgress m = false ->
  primarySource (configuration m) = Some p ->
  p (attempts Primary (calls m)) = Returns x ->
  source_fails (configuration m) (Returns x) = true ->
  (forall j g, j < k -> secondarySources (configuration m) !! j = Some g ->
     source_fails (configuration m) (g (attempts (Secondary j) (calls m))) = true) ->
  secondarySources (configuration m) !! k = Some f ->
  f (attempts (Secondary k) (calls m)) = Returns (Promise (Resolves value)) ->
  accepts (configuration m) value = true ->
  calls (get m).2 =
    calls m ++ [Call Primary None] ++ secondary_calls 0 (S k) ++
    synchronizer_calls value
      (synchronizers_called (ignoreSynchronizationErrors (configuration m)) value (calls m) 0
         (primarySourceSynchronizers (configuration m))) /\
  exists s, (get m).1 = Gives s /\
            match s with Fulfilled v => v = value | _ => True end.
Proof.
  intros Hgip Hp Hx Hfail Hbefore Hk Hf Hacc.
  rewrite (get_unfold m p Hgip Hp), Hx, (source_fails_gave _ _ Hfail). simpl.
  pose proof (primary_stage_spec x (started m)) as ((Hcfg & _) & Hc & Hq & Hr).
  simpl in Hcfg, Hc, Hq.
  assert (exists e, (primary_stage x (started m)).1 = Rejected e) as [e He].
  { destruct x as [v|[v|t|]]; simpl in *; try done.
    apply negb_true_iff in Hfail. by rewrite Hfail in Hr. }
  destruct (primary_stage x (started m)) as [r m1]. simpl in *. subst r.
  unfold fall_back. rewrite getFromSecondaries_loop.
  pose proof (secondaries_from_accepted (calls m) value k
                (secondarySources (configuration m1)) 0 e m1 f) as Hloop.
  simpl in Hloop. rewrite Hcfg in Hloop.
  destruct Hloop as (_ & Hcalls & Hres); try done.
  - by rewrite Hq.
  - intros j. by rewrite Hc, attempts_other.
  - intros j _. by rewrite Hc, attempts_other.
  - rewrite Hcfg.
    match goal with |- context [settle ?x] => set (rm := x) in * end.
    pose proof (settle_spec rm) as (_ & Hcs & Hs).
    rewrite Hcs, Hcalls, Hc, <- app_assoc. split; [done|].
    exists (settle rm).1. split; [done|].
    destruct rm as [[v|e'|] m2]; cbn [fst snd] in *.
    + destruct Hs as [-> _]. done.
    + by destruct Hs as [[e'' ->] _].
    + by rewrite Hs.
Qed.

(** The run in which the primary source does not fail. *)
Lemma get_primary_only m p r :
  getInProgress m = false ->
  primarySource (configuration m) = Some p ->
  p (attempts Primary (calls m)) = r ->
  source_fails (configuration m) r = false \/ (exists t, r = Throws t) ->
  calls (get m).2 = calls m ++ [Call Primary None] /\
  forall value, r = Returns (Promise (Resolves value)) ->
                (get m).1 = Gives (Fulfilled value).
Proof.
  intros Hgip Hp Hr Hok. rewrite (get_unfold m p Hgip Hp), Hr.
  destruct r as [t|x]; simpl.
  - destruct (materialize t _) as [e st]. by split.
  - destruct Hok as [Hok|[t Ht]]; [|done].
    destruct (TypeError_of x) as [msg|] eqn:Hthrows; [split; [done|]; intros value [= ->]; by rewrite TypeError_of_promise in Hthrows|]; simpl.
    pose proof (primary_stage_spec x (started m)) as (_ & Hc & _ & Hres).
    assert (fall_back (primary_stage x (started m)) = primary_stage x (started m)) as ->.
    { destruct x as [v|[v|t|]]; simpl in *; try done.
      - rewrite TypeError_of_NotPromise in Hthrows.
        apply negb_false_iff in Hok. by rewrite Hok in Hthrows.
      - apply negb_false_iff in Hok. rewrite Hok in Hres.
        destruct (primary_stage _ _) as [r m1]. simpl in *. by subst r. }
    pose proof (settle_spec (primary_stage x (started m))) as (_ & Hcs & Hs).
    rewrite Hcs, Hc. split; [done|].
    intros value [= ->]. simpl in *. apply negb_false_iff in Hok. rewrite Hok in Hres.
    rewrite Hres in Hs. by destruct Hs as [-> _].
Qed.

Lemma get_refused m :
  getInProgress m = true \/ primarySource (configuration m) = None ->
  (get m).2 = m.
Proof.
  unfold get. intros [-> | Hn]; [done|].
  destruct (getInProgress m); [done|]. by rewrite Hn.
Qed.

(** ** The properties *)

Lemma who_secondary_calls first count :
  who <$> secondary_calls (V:=V) first count = Secondary <$> seq first count.
Proof. unfold secondary_calls. by rewrite <- list_fmap_compose. Qed.

Lemma who_synchronizer_calls (value : V) count :
  who <$> synchronizer_calls value count = Synchronizer <$> seq 0 count.
Proof. unfold synchronizer_calls. by rewrite <- list_fmap_compose. Qed.

Lemma secondary_not_primary j : Secondary j ∉ who <$> [Call (V:=V) Primary None].
Proof. simpl. apply not_elem_of_cons. split; [done|apply not_elem_of_nil]. Qed.

(** C3. In a run of [get] in which the secondary sources before
    position [k] fail and the source at position [k] resolves with a
    value that passes verification, no source at a later position is
    invoked during that run (positions are counted from 0 here, so
    source [k] is the one the message calls [#k+1]). *)
Theorem later_secondaries_never_invoked m k f value :
  (forall j g, j < k -> secondarySources (configuration m) !! j = Some g ->
     source_fails (configuration m) (g (attempts (Secondary j) (calls m))) = true) ->
  secondarySources (configuration m) !! k = Some f ->
  f (attempts (Secondary k) (calls m)) = Returns (Promise (Resolves value)) ->
  accepts (configuration m) value = true ->
  forall j, k < j -> Secondary j ∉ who <$> calls_during m (get m).2.
Proof.
  intros Hbefore Hk Hf Hacc j Hj.
  destruct (getInProgress m) eqn:Hgip.
  { rewrite calls_during_same; [apply not_elem_of_nil|]. by rewrite get_refused by auto. }
  destruct (primarySource (configuration m)) as [p|] eqn:Hp.
  2:{ rewrite calls_during_same; [apply not_elem_of_nil|]. by rewrite get_refused by auto. }
  destruct (p (attempts Primary (calls m))) as [t|x] eqn:Hr.
  { destruct (get_primary_only m p _ Hgip Hp Hr) as [Hc _]; [eauto|].
    rewrite (calls_during_app _ _ _ Hc). apply secondary_not_primary. }
  destruct (source_fails (configuration m) (Returns x)) eqn:Hfail.
  - destruct (get_falls_back m p x k f value) as [Hc _]; try done.
    rewrite (calls_during_app _ _ _ Hc).
    rewrite !fmap_app, who_secondary_calls, who_synchronizer_calls.
    rewrite !elem_of_app. intros [Hin|[Hin|Hin]].
    + by apply secondary_not_primary in Hin.
    + apply list_elem_of_fmap in Hin as (i & [= ->] & Hin).
      apply elem_of_seq in Hin. lia.
    + by apply list_elem_of_fmap in Hin as (i & ? & _).
  - destruct (get_primary_only m p _ Hgip Hp Hr) as [Hc _]; [eauto|].
    rewrite (calls_during_app _ _ _ Hc). apply secondary_not_primary.
Qed.

Lemma synchronizers_called_all ignore (value : V) log : forall l index,
  (forall j g, l !! j = Some g ->
     continues ignore (g (attempts (Synchronizer (index + j)) log) value) = true) ->
  synchronizers_called ignore value log index l = length l.
Proof.
  induction l as [|g l IH]; intros index Hall; [done|]. simpl.
  pose proof (Hall 0 g eq_refl) as H0. rewrite Nat.add_0_r in H0. rewrite H0.
  f_equal. apply IH. intros j g' Hg'.
  replace (S index + j) with (index + S j) by lia. by apply Hall.
Qed.

(** C2, as amended. When the value of the primary source is accepted,
    [get] resolves with it and calls no synchronizer: the primary source
    is the only function invoked. When the primary source fails and the
    secondary source at position [k] (counted from 0) is the first whose
    value is accepted, the functions invoked are the primary source, the
    secondary sources 0 to [k], and then the synchronizers, each with
    that value, one after the other in the order of registration,
    starting with the first; the sequence stops behind a synchronizer
    whose promise has not settled and, unless
    [ignoreSynchronizationErrors] is set, behind the first synchronizer
    that fails ([synchronizers_called]); it covers every registered
    synchronizer when each of them lets the next one run. *)
Theorem synchronizers_follow_a_secondary_source m p :
  getInProgress m = false ->
  primarySource (configuration m) = Some p ->
  let cfg := configuration m in
  let r := p (attempts Primary (calls m)) in
  (forall value,
      r = Returns (Promise (Resolves value)) -> accepts cfg value = true ->
      (get m).1 = Gives (Fulfilled value) /\
      calls_during m (get m).2 = [Call Primary None]) /\
  (forall x k f value,
      r = Returns x -> source_fails cfg (Returns x) = true ->
      (forall j g, j < k -> secondarySources cfg !! j = Some g ->
         source_fails cfg (g (attempts (Secondary j) (calls m))) = true) ->
      secondarySources cfg !! k = Some f ->
      f (attempts (Secondary k) (calls m)) = Returns (Promise (Resolves value)) ->
      accepts cfg value = true ->
      let n := synchronizers_called (ignoreSynchronizationErrors cfg) value (calls m) 0
                 (primarySourceSynchronizers cfg) in
      calls_during m (get m).2 =
        [Call Primary None] ++ secondary_calls 0 (S k) ++ synchronizer_calls value n /\
      n <= length (primarySourceSynchronizers cfg) /\
      ((forall j g, primarySourceSynchronizers cfg !! j = Some g ->
          continues (ignoreSynchronizationErrors cfg)
            (g (attempts (Synchronizer j) (calls m)) value) = true) ->
       n = length (primarySourceSynchronizers cfg))).
Proof.
  intros Hgip Hp cfg r. split.
  - intros value Hr Hacc.
    destruct (get_primary_only m p r Hgip Hp eq_refl) as [Hc Hv].
    { left. rewrite Hr. simpl. fold cfg. by rewrite Hacc. }
    split; [by apply Hv|]. by apply calls_during_app.
  - intros x k f value Hr Hfail Hbefore Hk Hf Hacc n.
    destruct (get_falls_back m p x k f value) as [Hc _]; try done.
    split; [by apply calls_during_app|]. split.
    + unfold n. generalize 0.
      induction (primarySourceSynchronizers cfg) as [|g l IH]; intros i; simpl; [lia|].
      destruct (continues _ _); [specialize (IH (S i))|]; lia.
    + intros Hall. by apply synchronizers_called_all.
Qed.

(** What is known of the machine a call of [get] leaves when it has
    returned a promise. *)
Lemma get_gives m s m' :
  get m = (Gives s, m') ->
  getInProgress m = false /\
  is_Some (primarySource (configuration m)) /\
  configuration m' = configuration m /\
  getInProgress m' = (if s is Unsettled then true else false) /\
  extends (started m) m'.
Proof.
  intros Hget.
  destruct (getInProgress m) eqn:Hgip; [unfold get in Hget; by rewrite Hgip in Hget|].
  destruct (primarySource (configuration m)) as [p|] eqn:Hp;
    [|unfold get in Hget; by rewrite Hgip, Hp in Hget].
  rewrite (get_unfold m p Hgip Hp) in Hget.
  destruct (p _) as [t|x]; [by destruct (materialize t _)|]. destruct (TypeError_of x) as [msg|]; [done|].
  simpl in Hget. injection Hget as <- <-.
  pose proof (primary_stage_spec x (started m)) as ((Hc1 & Hg1) & Hl1 & _).
  pose proof (fall_back_spec (primary_stage x (started m))) as ((Hc2 & Hg2) & Hx2 & _).
  pose proof (settle_spec (fall_back (primary_stage x (started m)))) as (Hc3 & Hl3 & Hs).
  split; [done|]. split; [eauto|]. split; [by rewrite Hc3, Hc2, Hc1|]. split.
  - destruct (fall_back _) as [[v|e|] m2]; cbn [fst snd] in *.
    + by destruct Hs as [-> ->].
    + by destruct Hs as [[e' ->] ->].
    + rewrite Hs. cbn [fst snd]. by rewrite Hg2, Hg1.
  - destruct Hx2 as [l Hl]. exists l. by rewrite Hl3, Hl, Hl1.
Qed.

Lemma started_fresh m (ledger : PromiseChainErrorCatcher V) (latch : Quitter) :
  started (set_errorCatcher ledger (set_quitter latch m)) = started m.
Proof. by destruct m. Qed.

(** A call that is let through never reads the ledger or the exit
    latch it finds in the machine. *)
Lemma get_ignores_leftovers m (ledger : PromiseChainErrorCatcher V) (latch : Quitter) :
  getInProgress m = false ->
  is_Some (primarySource (configuration m)) ->
  get (set_errorCatcher ledger (set_quitter latch m)) = get m.
Proof.
  intros Hgip [p Hp].
  rewrite (get_unfold m p Hgip Hp), (get_unfold _ p); [|done|done].
  by rewrite started_fresh.
Qed.

(** C7. While the promise returned by a call of [get] has not settled, a
    further call of [get] on the instance throws the usage error whose
    message is [reentrancy_message]. Once the promise has settled,
    fulfilled or rejected, the guard is cleared and the configuration is
    the one the call found; the next call is let through, invokes the
    primary source again, and does what it would do whatever ledger and
    exit latch the previous run had left behind. *)
Theorem get_guard_and_reuse m s m' :
  get m = (Gives s, m') ->
  (s = Unsettled ->
     get m' = (Raises (UsageError reentrancy_message), m')) /\
  (s <> Unsettled ->
     getInProgress m' = false /\
     configuration m' = configuration m /\
     (forall (ledger : PromiseChainErrorCatcher V) (latch : Quitter),
         get (set_errorCatcher ledger (set_quitter latch m')) = get m') /\
     (forall msg, (get m').1 <> Raises (UsageError msg)) /\
     exists l, calls (get m').2 = calls m' ++ Call Primary None :: l).
Proof.
  intros Hget. destruct (get_gives _ _ _ Hget) as (Hgip & Hprim & Hcfg & Hgip' & _).
  split.
  - intros ->. unfold get. by rewrite Hgip'.
  - intros Hs. assert (getInProgress m' = false) as Hfalse by by destruct s.
    rewrite <- Hcfg in Hprim.
    split; [done|]. split; [done|]. split; [|split].
    + intros ledger latch. by apply get_ignores_leftovers.
    + intros msg. destruct Hprim as [p Hp]. rewrite (get_unfold m' p Hfalse Hp).
      destruct (p _) as [t|x]; [by destruct (materialize t _)|].
      by destruct (TypeError_of x).
    + destruct Hprim as [p Hp]. rewrite (get_unfold m' p Hfalse Hp).
      destruct (p _) as [t|x] eqn:Hr.
      * destruct (materialize t _). by exists [].
      * destruct (TypeError_of x) as [msg|] eqn:Hthrows; [by exists []|].
        pose proof (get_gives m' _ _ (eq_trans (get_unfold m' p Hfalse Hp)
                      ltac:(rewrite Hr, Hthrows; reflexivity))) as (_ & _ & _ & _ & [l Hl]).
        exists l. simpl. rewrite Hl. simpl. by rewrite <- app_assoc.
Qed.

(** ** The composite message *)

Lemma update_last (st : store) f e : update (length st) f (st ++ [e]) = st ++ [f e].
Proof.
  unfold update. rewrite lookup_app_r, Nat.sub_diag by lia. simpl.
  rewrite insert_app_r_alt, Nat.sub_diag by lia. done.
Qed.

Lemma lookup_last (st : store) e : (st ++ [e]) !! length st = Some e.
Proof. by rewrite lookup_app_r, Nat.sub_diag by lia. Qed.

Lemma lookup_last_but_one (st : store) e e' : ((st ++ [e]) ++ [e']) !! length st = Some e.
Proof. rewrite lookup_app_l by (rewrite length_app; simpl; lia). apply lookup_last. Qed.

(** C1. When the primary source is rejected with [Error('X')], the only
    secondary source is rejected with [Error('Y')] and there is no other
    source, [get] returns a promise that is rejected with an error whose
    message is, character for character, the name of the getter followed
    by [ has failed.], a newline, and one line per attempt in the order
    of the attempts: [expected_message]. Whatever verifier and
    synchronizers are registered, and whatever error objects and
    invocations the world already holds. *)
Theorem composite_message_of_two_rejections m p f :
  getInProgress m = false ->
  primarySource (configuration m) = Some p ->
  p (attempts Primary (calls m)) = Returns (Promise (Rejects (NewError "X"))) ->
  secondarySources (configuration m) = [f] ->
  f (attempts (Secondary 0) (calls m)) = Returns (Promise (Rejects (NewError "Y"))) ->
  exists e, (get m).1 = Gives (Rejected e) /\
            message_of (errors (get m).2) e = expected_message.
Proof.
  intros Hgip Hp Hr Hsec Hf.
  rewrite (get_unfold m p Hgip Hp), Hr.
  unfold settle, fall_back, primary_stage, then_, catch_. simpl.
  rewrite update_last. simpl.
  unfold getFromSecondaries, forEach. simpl. rewrite Hsec. simpl.
  unfold trySecondarySource, then_, catch_, called, invoke. simpl.
  rewrite attempts_other by done. rewrite Hf. simpl.
  rewrite !update_last. simpl.
  eexists. split; [reflexivity|].
  unfold message_of, stepName_of, reportError. simpl.
  rewrite lookup_last. simpl.
  unfold message_of, stepName_of.
  rewrite !lookup_last_but_one, !lookup_last. simpl.
  reflexivity.
Qed.
End GetterRuns.

Section GetterConfiguration.
Import Getter.
Context {V : Type} `{JsValue V} `{JsFunction (source V)} `{JsFunction (V -> bool)}.
Implicit Types (c : Configuration V) (m : machine V).

Lemma configure_app (rs1 rs2 : list registration) c :
  configure (rs1 ++ rs2) c = configure rs2 (configure rs1 c).
Proof. apply fold_left_app. Qed.

Lemma configure_cons (r : registration) rs c :
  configure (r :: rs) c =
    configure rs (match register r c with inr c' => c' | inl _ => c end).
Proof. done. Qed.

Lemma configure_keeps_primary rs : forall c g,
  primarySource c = Some g -> primarySource (configure rs c) = Some g.
Proof.
  induction rs as [|r rs IH]; intros c g Hg; [done|].
  rewrite configure_cons. apply IH.
  destruct r; simpl; try done; unfold primarySource', verify; [by rewrite Hg|].
  by destruct (verifier c).
Qed.

Lemma configure_keeps_verifier rs : forall c v,
  verifier c = Some v -> verifier (configure rs c) = Some v.
Proof.
  induction rs as [|r rs IH]; intros c v Hv; [done|].
  rewrite configure_cons. apply IH.
  destruct r; simpl; try done; unfold primarySource', verify; [|by rewrite Hv].
  by destruct (primarySource c).
Qed.

Lemma configure_without_primary rs : forall c,
  primarySource c = None ->
  forallb (fun r => negb (sets_primary r)) rs = true ->
  primarySource (configure rs c) = None.
Proof.
  induction rs as [|r rs IH]; intros c Hc Hrs; [done|].
  simpl in Hrs. apply andb_true_iff in Hrs as [Hr Hrs].
  rewrite configure_cons. apply IH; [|done].
  destruct r; simpl in *; try done. unfold verify. by destruct (verifier c).
Qed.

Lemma configure_without_verifier rs : forall c,
  verifier c = None ->
  forallb (fun r => negb (sets_verifier r)) rs = true ->
  verifier (configure rs c) = None.
Proof.
  induction rs as [|r rs IH]; intros c Hc Hrs; [done|].
  simpl in Hrs. apply andb_true_iff in Hrs as [Hr Hrs].
  rewrite configure_cons. apply IH; [|done].
  destruct r; simpl in *; try done. unfold primarySource'. by destruct (primarySource c).
Qed.

(** The primary source and the verifier can each be set once. Of a
    series of calls of the configuring methods on a getter without a
    primary source, the first call of [primarySource] registers its
    argument; whatever is called afterwards, that function stays the
    primary source, and every further call of [primarySource] throws
    the error that quotes it. The same holds of [verify] and the
    verifier. *)
Theorem primary_source_and_verifier_are_set_once
    (rs1 rs2 : list registration) c :
  (forall g, primarySource c = None ->
     forallb (fun r => negb (sets_primary r)) rs1 = true ->
     let c' := configure (rs1 ++ PrimarySource g :: rs2) c in
     primarySource c' = Some g /\
     forall g', primarySource' g' c' =
       inl ("There can only be one primary source. You already registered this primary source:"
            +:+ nl +:+ Function_toString g)) /\
  (forall v, verifier c = None ->
     forallb (fun r => negb (sets_verifier r)) rs1 = true ->
     let c' := configure (rs1 ++ Verify v :: rs2) c in
     verifier c' = Some v /\
     forall v', verify v' c' =
       inl ("There can only be one verifier function. You already registered this verifier function:"
            +:+ nl +:+ Function_toString v)).
Proof.
  split.
  - intros g Hc Hrs c'.
    assert (primarySource c' = Some g) as Hg.
    { unfold c'. rewrite configure_app, configure_cons. apply configure_keeps_primary.
      simpl. unfold primarySource'. by rewrite configure_without_primary. }
    split; [done|]. intros g'. unfold primarySource'. by rewrite Hg.
  - intros v Hc Hrs c'.
    assert (verifier c' = Some v) as Hv.
    { unfold c'. rewrite configure_app, configure_cons. apply configure_keeps_verifier.
      simpl. unfold verify. by rewrite configure_without_verifier. }
    split; [done|]. intros v'. unfold verify. by rewrite Hv.
Qed.

(** Secondary sources and synchronizers are kept in the order in which
    they were registered, behind those already there; registering them
    never fails and never removes one; and the flag set by
    [ignoreSynchronizationErrors] is never cleared. *)
Theorem registrations_keep_their_order (rs : list registration) c :
  secondarySources (configure rs c) = secondarySources c ++ secondaries_of rs /\
  primarySourceSynchronizers (configure rs c) =
    primarySourceSynchronizers c ++ synchronizers_of rs /\
  ignoreSynchronizationErrors (configure rs c) =
    ignoreSynchronizationErrors c || existsb sets_ignore rs.
Proof.
  revert c. induction rs as [|r rs IH]; intros c.
  - simpl. by rewrite !app_nil_r, orb_false_r.
  - rewrite configure_cons.
    destruct (IH (match register r c with inr c' => c' | inl _ => c end)) as (-> & -> & ->).
    destruct r; simpl; unfold primarySource', verify;
      try destruct (primarySource c); try destruct (verifier c); simpl;
      rewrite <- ?app_assoc, ?orb_true_r; done.
Qed.

(** A getter on which [primarySource] was never called refuses [get]
    with the usage error [missing_primary_message], whatever else was
    registered; nothing is invoked and nothing changes. *)
Theorem get_needs_a_primary_source (rs : list registration) m :
  forallb (fun r => negb (sets_primary r)) rs = true ->
  configuration m = configure rs new_ReallyDeterminedPropertyGetter ->
  getInProgress m = false ->
  get m = (Raises (UsageError missing_primary_message), m).
Proof.
  intros Hrs Hcfg Hgip. unfold get. rewrite Hgip, Hcfg.
  by rewrite configure_without_primary.
Qed.
End GetterConfiguration.

Section GetterOutcomes.
Import Getter.
Context {V : Type} `{JsValue V}.
Implicit Types (c : Configuration V) (m : machine V).

Lemma get_again_refused n m :
  getInProgress m = true -> get_again n m = m.
Proof.
  intros Hgip. induction n as [|n IH]; [done|].
  simpl. rewrite get_refused by auto. done.
Qed.

(** A primary source that throws instead of returning makes [get]
    throw that very error, as it is: no secondary source is tried and
    the error is not reworded. The guard against a second call stays
    set, so every later [get] on the instance throws the usage error
    [reentrancy_message] and changes nothing. *)
Theorem throwing_primary_source_latches_the_getter m p t :
  getInProgress m = false ->
  primarySource (configuration m) = Some p ->
  p (attempts Primary (calls m)) = Throws t ->
  let r := get m in
  r.1 = Raises (Propagated (materialize t (errors m)).1) /\
  errors r.2 = (materialize t (errors m)).2 /\
  calls_during m r.2 = [Call Primary None] /\
  configuration r.2 = configuration m /\
  getInProgress r.2 = true /\
  forall n, get (get_again n r.2) = (Raises (UsageError reentrancy_message), r.2).
Proof.
  intros Hgip Hp Ht r. unfold r. rewrite (get_unfold m p Hgip Hp), Ht.
  simpl. destruct (materialize t (errors m)) as [e st] eqn:Hm. simpl.
  repeat split.
  - by apply calls_during_app.
  - intros n. rewrite get_again_refused by done. done.
Qed.

(** ** A value that only looks like a promise *)

(** The library takes what a source returns for a promise when it has a
    truthy [then]. When the primary source returns such a value that is
    no promise, the call of its [catch] throws, and [get] throws that
    [TypeError]: no secondary source is tried, and the guard against a
    second call stays set, so every later [get] on the instance throws
    the usage error [reentrancy_message] and changes nothing. A value
    without a truthy [then] makes [get] return a promise. *)
Theorem a_value_that_only_looks_like_a_promise_latches_the_getter m p v :
  getInProgress m = false ->
  primarySource (configuration m) = Some p ->
  p (attempts Primary (calls m)) = Returns (NotPromise v) ->
  let r := get m in
  (has_then v = true ->
     r.1 = Raises (Propagated (length (errors m))) /\
     errors r.2 =
       errors m ++ [mkTypeError (is_not_a_function "maybeAPromise.catch") None] /\
     calls_during m r.2 = [Call Primary None] /\
     configuration r.2 = configuration m /\
     getInProgress r.2 = true /\
     forall n, get (get_again n r.2) = (Raises (UsageError reentrancy_message), r.2)) /\
  (has_then v = false -> exists s, r.1 = Gives s).
Proof.
  intros Hgip Hp Hx r. unfold r.
  rewrite (get_unfold m p Hgip Hp), Hx, TypeError_of_NotPromise.
  split; intros ->; simpl.
  - repeat split.
    + by apply calls_during_app.
    + intros n. rewrite get_again_refused by done. done.
  - by eexists.
Qed.

(** ** The value a call resolves with *)

Lemma secondaries_from_fulfilled (log0 : list (call V)) value : forall l index e m m',
  (forall j, attempts (Synchronizer j) (calls m) = attempts (Synchronizer j) log0) ->
  (forall j, index <= j -> attempts (Secondary j) (calls m) = attempts (Secondary j) log0) ->
  secondaries_from index l e m = (Fulfilled value, m') ->
  accepts (configuration m) value = true /\
  exists d f, l !! d = Some f /\
    f (attempts (Secondary (index + d)) log0) = Returns (Promise (Resolves value)).
Proof.
  induction l as [|f l IH]; intros index e m m' Hsync Hsec Hrun; [done|].
  simpl in Hrun.
  destruct (doQuit (quitter m)) eqn:Hq.
  { rewrite trySecondarySource_quit in Hrun by done.
    by rewrite secondaries_from_quit in Hrun. }
  pose proof (trySecondarySource_spec f index e m log0 Hq Hsync) as [[Hcfg _] Hr].
  simpl in Hr. rewrite Hsec in Hr by lia.
  destruct (trySecondarySource f index e m) as [[v|e'|] m1] eqn:Htry; simpl in *.
  - injection Hrun as -> ->.
    destruct (f (attempts (Secondary index) log0)) as [t|[v|[v|t|]]] eqn:Hf;
      try (by destruct Hr as ([? ?] & _)); try (by destruct Hr as [? _]).
    destruct (accepts (configuration m) v) eqn:Hacc; [|by destruct Hr as ([? ?] & _)].
    destruct Hr as [_ ->]. split; [done|].
    exists 0, f. by rewrite Nat.add_0_r.
  - assert (doQuit (quitter m1) = true \/
            (quitter m1 = quitter m /\ calls m1 = calls m ++ [Call (Secondary index) None]))
      as [Hquit|[Hq1 Hc1]].
    { destruct (f (attempts (Secondary index) log0)) as [t|[v|[v|t|]]];
        try (right; by destruct Hr as (_ & ? & ?)); [|by destruct Hr].
      destruct (accepts (configuration m) v); [left; by destruct Hr|].
      right. by destruct Hr as (_ & ? & ?). }
    { by rewrite secondaries_from_quit in Hrun. }
    destruct (IH (S index) e' m1 m') as (Hacc & d & g & Hd & Hg); [| |done|].
    + intros j. rewrite Hc1, attempts_other by done. apply Hsync.
    + intros j Hj. rewrite Hc1, attempts_other by (intros [= ->]; lia). apply Hsec. lia.
    + rewrite Hcfg in Hacc. split; [done|].
      exists (S d), g. split; [done|]. by replace (index + S d) with (S index + d) by lia.
  - done.
Qed.

(** A value that [get] resolves with has passed the verifier, if one
    is registered, and is the value with which the primary source or
    one of the secondary sources resolved when it was invoked in this
    call; the guard against a second call is cleared by then. *)
Theorem a_resolved_value_was_verified m value :
  (get m).1 = Gives (Fulfilled value) ->
  accepts (configuration m) value = true /\
  getInProgress (get m).2 = false /\
  ((exists p, primarySource (configuration m) = Some p /\
      p (attempts Primary (calls m)) = Returns (Promise (Resolves value))) \/
   (exists k f, secondarySources (configuration m) !! k = Some f /\
      f (attempts (Secondary k) (calls m)) = Returns (Promise (Resolves value)))).
Proof.
  intros Hget.
  destruct (getInProgress m) eqn:Hgip; [unfold get in Hget; by rewrite Hgip in Hget|].
  destruct (primarySource (configuration m)) as [p|] eqn:Hp;
    [|unfold get in Hget; by rewrite Hgip, Hp in Hget].
  rewrite (get_unfold m p Hgip Hp) in Hget |- *.
  destruct (p (attempts Primary (calls m))) as [t|x] eqn:Hx;
    [by destruct (materialize t _)|]. destruct (TypeError_of x) as [msg|]; [done|].
  simpl in Hget |- *.
  pose proof (primary_stage_spec x (started m)) as ((Hcfg & _) & Hc & _ & Hres).
  simpl in Hcfg, Hres.
  match type of Hget with context [settle ?rm] =>
    pose proof (settle_spec rm) as (_ & _ & Hs); destruct rm as [r m2] eqn:Hfb end.
  cbn [fst snd] in Hs.
  destruct r as [v|e|]; [|by destruct Hs as [[e' He'] _]; rewrite He' in Hget|
                          by rewrite Hs in Hget].
  destruct Hs as [Hout Hflag]. rewrite Hout in Hget. injection Hget as ->.
  split; [|split; [done|]].
  - destruct (primary_stage x (started m)) as [[v|e|] m1] eqn:Hstage; simpl in *.
    + injection Hfb as -> ->.
      destruct x as [v|[v|t|]]; try (by destruct Hres). 
      destruct (accepts (configuration m) v) eqn:Hacc; [congruence|by destruct Hres].
    + rewrite getFromSecondaries_loop in Hfb.
      apply (secondaries_from_fulfilled (calls m)) in Hfb as [Hacc _].
      * by rewrite Hcfg in Hacc.
      * intros j. by rewrite Hc, attempts_other.
      * intros j _. by rewrite Hc, attempts_other.
    + done.
  - destruct (primary_stage x (started m)) as [[v|e|] m1] eqn:Hstage; simpl in *.
    + injection Hfb as -> ->. left. exists p. split; [done|].
      destruct x as [v|[v|t|]]; try (by destruct Hres).
      destruct (accepts (configuration m) v) eqn:Hacc; [congruence|by destruct Hres].
    + right. rewrite getFromSecondaries_loop in Hfb.
      apply (secondaries_from_fulfilled (calls m)) in Hfb as [_ (d & f & Hd & Hf)].
      * exists d, f. by rewrite Hcfg in Hd.
      * intros j. by rewrite Hc, attempts_other.
      * intros j _. by rewrite Hc, attempts_other.
    + done.
Qed.

(** ** The synchronizers decide *)

Lemma eachSynchronizer_result ignore value f index
    (p : chain (machine V) V) m m1 a :
  p m = (Fulfilled a, m1) ->
  let r := f (attempts (Synchronizer index) (calls m1)) value in
  let rm := eachSynchronizer ignore value f index p m in
  match r with
  | Returns (Promise Pending) => rm.1 = Unsettled
  | Returns (Promise (Resolves _)) => rm.1 = Fulfilled value
  | _ => if ignore then rm.1 = Fulfilled value else exists e, rm.1 = Rejected e
  end.
Proof.
  intros Hp r rm. unfold rm, eachSynchronizer, then_, catch_, called, invoke. rewrite Hp.
  simpl. fold r.
  destruct r as [t|[v|[v|t|]]]; simpl;
    try destruct (has_then v); simpl; try destruct t; destruct ignore; simpl; unfold update; simpl;
    repeat case_match; simpl; eauto.
Qed.

Lemma synchronizers_stay_rejected value : forall l index (p : chain (machine V) V) m e m1,
  p m = (Rejected e, m1) ->
  (forEach_from (eachSynchronizer false value) index l p m).1 = Rejected e.
Proof.
  induction l as [|f l IH]; intros index p m e m1 Hp; simpl; [by rewrite Hp|].
  pose proof (eachSynchronizer_rejected value f index p m e m1 Hp) as (_ & _ & Hr & _).
  destruct (eachSynchronizer false value f index p m) as [r m2] eqn:Hstep.
  simpl in Hr. subst r. by eapply IH.
Qed.

Lemma synchronizers_stay_unsettled ignore value :
  forall l index (p : chain (machine V) V) m m1,
    p m = (Unsettled, m1) ->
    forEach_from (eachSynchronizer ignore value) index l p m = (Unsettled, m1).
Proof.
  induction l as [|f l IH]; intros index p m m1 Hp; simpl; [done|].
  apply IH. by apply eachSynchronizer_unsettled.
Qed.

Lemma synchronizers_decide ignore value (log0 : list (call V)) :
  forall l index (p : chain (machine V) V) m m1,
    p m = (Fulfilled value, m1) ->
    (forall j, index <= j ->
       attempts (Synchronizer j) (calls m1) = attempts (Synchronizer j) log0) ->
    decided (stops_at ignore value log0 index l) value
      (forEach_from (eachSynchronizer ignore value) index l p m).1.
Proof.
  induction l as [|f l IH]; intros index p m m1 Hp Hatt; simpl; [by rewrite Hp|].
  pose proof (eachSynchronizer_result ignore value f index p m m1 value Hp) as Hr.
  pose proof (eachSynchronizer_fulfilled ignore value f index p m value m1 Hp) as (_ & Hc & _).
  simpl in Hr, Hc. rewrite Hatt in Hr by lia.
  destruct (eachSynchronizer ignore value f index p m) as [r m2] eqn:Hstep.
  simpl in Hr, Hc.
  assert (forall j, S index <= j ->
            attempts (Synchronizer j) (calls m2) = attempts (Synchronizer j) log0) as Hatt2.
  { intros j Hj. rewrite Hc, attempts_other by (intros [= ->]; lia). apply Hatt. lia. }
  assert (r = Fulfilled value ->
          decided (stops_at ignore value log0 (S index) l) value
            (forEach_from (eachSynchronizer ignore value) (S index) l
               (eachSynchronizer ignore value f index p) m).1) as Hnext.
  { intros ->. by eapply IH. }
  assert ((exists e, r = Rejected e) -> ignore = false ->
          exists e, (forEach_from (eachSynchronizer ignore value) (S index) l
                       (eachSynchronizer ignore value f index p) m).1 = Rejected e) as Hstop.
  { intros [e ->] ->. exists e. by eapply synchronizers_stay_rejected. }
  destruct (f (attempts (Synchronizer index) log0) value) as [t|[v|[v|t|]]] eqn:Hf;
    simpl; try (destruct ignore; simpl); auto.
  all: subst r; by erewrite synchronizers_stay_unsettled.
Qed.

(** The secondary source at position [index + d] is reached, rejection
    in hand, when those before it fail. *)
Lemma secondaries_from_reaches (log0 : list (call V)) : forall d l index e m f,
  doQuit (quitter m) = false ->
  (forall j, attempts (Synchronizer j) (calls m) = attempts (Synchronizer j) log0) ->
  (forall j, index <= j -> attempts (Secondary j) (calls m) = attempts (Secondary j) log0) ->
  (forall j g, j < d -> l !! j = Some g ->
     source_fails (configuration m) (g (attempts (Secondary (index + j)) log0)) = true) ->
  l !! d = Some f ->
  exists e1 m1,
    doQuit (quitter m1) = false /\
    configuration m1 = configuration m /\
    (forall j, attempts (Synchronizer j) (calls m1) = attempts (Synchronizer j) log0) /\
    attempts (Secondary (index + d)) (calls m1) = attempts (Secondary (index + d)) log0 /\
    secondaries_from index l e m =
      match trySecondarySource f (index + d) e1 m1 with
      | (Rejected e2, m2) => secondaries_from (S (index + d)) (drop (S d) l) e2 m2
      | other => other
      end.
Proof.
  induction d as [|d IH]; intros l index e m f Hq Hsync Hsec Hfail Hl;
    destruct l as [|g l]; try done; simpl in Hl.
  - injection Hl as ->. exists e, m. rewrite Nat.add_0_r.
    repeat split; try done. by apply Hsec.
  - pose proof (trySecondarySource_spec g index e m log0 Hq Hsync) as [[Hcfg _] Hr].
    simpl in Hr. rewrite Hsec in Hr by lia.
    pose proof (Hfail 0 g ltac:(lia) eq_refl) as Hg. rewrite Nat.add_0_r in Hg.
    assert (exists e' m', trySecondarySource g index e m = (Rejected e', m') /\
              quitter m' = quitter m /\
              calls m' = calls m ++ [Call (Secondary index) None]) as (e' & m' & Ht & Hq' & Hc').
    { destruct (g (attempts (Secondary index) log0)) as [t|[v|[v|t|]]]; simpl in Hg; try done;
        try (apply negb_true_iff in Hg; rewrite Hg in Hr);
        destruct Hr as ([e' He'] & Hq' & Hc');
        destruct (trySecondarySource g index e m) as [r m']; simpl in *; subst r; eauto. }
    rewrite Ht in Hcfg. simpl in Hcfg.
    destruct (IH l (S index) e' m' f) as (e1 & m1 & Hq1 & Hcfg1 & Hsync1 & Hsec1 & Hrun).
    + congruence.
    + intros j. rewrite Hc', attempts_other by done. apply Hsync.
    + intros j Hj. rewrite Hc', attempts_other by (intros [= ->]; lia). apply Hsec. lia.
    + intros j g' Hj Hg'. rewrite Hcfg.
      replace (S index + j) with (index + S j) by lia. apply (Hfail (S j)); [lia|done].
    + done.
    + exists e1, m1. replace (index + S d) with (S index + d) by lia.
      repeat split; try done; [congruence|]. simpl. by rewrite Ht.
Qed.

Lemma trySecondarySource_accepted f index e m (log0 : list (call V)) value :
  doQuit (quitter m) = false ->
  (forall j, attempts (Synchronizer j) (calls m) = attempts (Synchronizer j) log0) ->
  f (attempts (Secondary index) (calls m)) = Returns (Promise (Resolves value)) ->
  accepts (configuration m) value = true ->
  decided (stops_at (ignoreSynchronizationErrors (configuration m)) value log0 0
             (primarySourceSynchronizers (configuration m))) value
    (trySecondarySource f index e m).1.
Proof.
  intros Hq Hsync Hf Hacc.
  unfold trySecondarySource, then_, catch_, maybeQuit, called, invoke, modify.
  rewrite Hq. simpl. rewrite Hf. simpl.
  unfold verifyValue, accepts in *. simpl.
  set (m1 := set_calls _ _).
  assert (forall m2, configuration m2 = configuration m -> calls m2 = calls m1 ->
            decided (stops_at (ignoreSynchronizationErrors (configuration m)) value log0 0
                       (primarySourceSynchronizers (configuration m))) value
              (performSynchronizationWithPrimary value m2).1) as Hperform.
  { intros m2 Hcfg Hc. unfold performSynchronizationWithPrimary, forEach. rewrite Hcfg.
    eapply synchronizers_decide; [reflexivity|].
    intros j _. rewrite Hc. unfold m1. simpl. rewrite attempts_other by done. apply Hsync. }
  destruct (verifier (configuration m)) as [check|]; [rewrite Hacc|]; simpl;
    unfold recordSuccess, then_, modify, resolve; simpl.
  - match goal with |- context [performSynchronizationWithPrimary value ?m2] =>
      specialize (Hperform m2 eq_refl eq_refl);
      destruct (performSynchronizationWithPrimary value m2) as [[v|e'|] m3] end; done.
  - match goal with |- context [performSynchronizationWithPrimary value ?m2] =>
      specialize (Hperform m2 eq_refl eq_refl);
      destruct (performSynchronizationWithPrimary value m2) as [[v|e'|] m3] end; done.
Qed.

Lemma stops_at_Some ignore value (log0 : list (call V)) j r : forall l index,
  stops_at ignore value log0 index l = Some (j, r) ->
  index <= j /\ continues ignore r = false /\
  exists g, l !! (j - index) = Some g /\ r = g (attempts (Synchronizer j) log0) value.
Proof.
  induction l as [|g l IH]; intros index; simpl; [done|].
  destruct (continues ignore (g _ value)) eqn:Hc.
  - intros Hs. apply IH in Hs as (Hle & Hr & g' & Hg' & Hrg).
    split; [lia|]. split; [done|]. exists g'. split; [|done].
    by replace (j - index) with (S (j - S index)) by lia.
  - intros [= <- <-]. split; [lia|]. split; [done|]. exists g.
    by rewrite Nat.sub_diag.
Qed.

Lemma get_decided m p x k f value :
  getInProgress m = false ->
  primarySource (configuration m) = Some p ->
  p (attempts Primary (calls m)) = Returns x ->
  source_fails (configuration m) (Returns x) = true ->
  (forall j g, j < k -> secondarySources (configuration m) !! j = Some g ->
     source_fails (configuration m) (g (attempts (Secondary j) (calls m))) = true) ->
  secondarySources (configuration m) !! k = Some f ->
  f (attempts (Secondary k) (calls m)) = Returns (Promise (Resolves value)) ->
  accepts (configuration m) value = true ->
  exists s, (get m).1 = Gives s /\
    decided (stops_at (ignoreSynchronizationErrors (configuration m)) value (calls m) 0
               (primarySourceSynchronizers (configuration m))) value s.
Proof.
  intros Hgip Hp Hx Hfail Hbefore Hk Hf Hacc.
  rewrite (get_unfold m p Hgip Hp), Hx, (source_fails_gave _ _ Hfail). simpl.
  pose proof (primary_stage_spec x (started m)) as ((Hcfg & _) & Hc & Hq & Hr).
  simpl in Hcfg, Hc, Hq.
  assert (exists e, (primary_stage x (started m)).1 = Rejected e) as [e He].
  { destruct x as [v|[v|t|]]; simpl in *; try done.
    apply negb_true_iff in Hfail. by rewrite Hfail in Hr. }
  destruct (primary_stage x (started m)) as [r m1]. simpl in *. subst r.
  unfold fall_back. rewrite getFromSecondaries_loop.
  destruct (secondaries_from_reaches (calls m) k (secondarySources (configuration m1)) 0 e m1 f)
    as (e1 & m2 & Hq2 & Hcfg2 & Hsync2 & Hsec2 & ->).
  { by rewrite Hq. }
  { intros j. by rewrite Hc, attempts_other. }
  { intros j _. by rewrite Hc, attempts_other. }
  { intros j g Hj Hg. rewrite Hcfg in Hg |- *. by apply Hbefore. }
  { by rewrite Hcfg. }
  simpl in *.
  pose proof (trySecondarySource_accepted f k e1 m2 (calls m) value Hq2 Hsync2) as Hd.
  pose proof (trySecondarySource_spec f k e1 m2 (calls m) Hq2 Hsync2) as [_ Hspec].
  simpl in Hspec. rewrite Hsec2, Hf, Hcfg2, Hcfg, Hacc in Hspec, Hd.
  specialize (Hd eq_refl eq_refl). destruct Hspec as [_ Hspec].
  destruct (trySecondarySource f k e1 m2) as [[v|e2|] m3]; simpl in *.
  - eexists. split; [reflexivity|]. unfold settle, then_, catch_. simpl.
    by destruct (stops_at _ _ _ _ _) as [[? [?|[?|[?|?|]]]]|].
  - rewrite secondaries_from_quit by done.
    eexists. split; [reflexivity|]. unfold settle, then_, catch_. simpl.
    destruct (stops_at _ _ _ _ _) as [[? [?|[?|[?|?|]]]]|]; simpl in *; eauto; done.
  - eexists. split; [reflexivity|]. unfold settle, then_, catch_. simpl.
    by destruct (stops_at _ _ _ _ _) as [[? [?|[?|[?|?|]]]]|].
Qed.

(** When the primary source has failed and the secondary source at
    position [k] is the first whose value is accepted, what [get]
    returns is decided by the synchronizers: if each of them lets the
    next one run, the promise is fulfilled with the value; if the one
    that stops the sequence has not settled, the promise never settles
    and the guard stays set; and if it failed, which can only stop the
    sequence when [ignoreSynchronizationErrors] is not set, the promise
    is rejected although a source delivered. *)
Theorem synchronizers_decide_the_outcome m p x k f value :
  getInProgress m = false ->
  primarySource (configuration m) = Some p ->
  p (attempts Primary (calls m)) = Returns x ->
  source_fails (configuration m) (Returns x) = true ->
  (forall j g, j < k -> secondarySources (configuration m) !! j = Some g ->
     source_fails (configuration m) (g (attempts (Secondary j) (calls m))) = true) ->
  secondarySources (configuration m) !! k = Some f ->
  f (attempts (Secondary k) (calls m)) = Returns (Promise (Resolves value)) ->
  accepts (configuration m) value = true ->
  let cfg := configuration m in
  let stop := stops_at (ignoreSynchronizationErrors cfg) value (calls m) 0
                (primarySourceSynchronizers cfg) in
  (stop = None ->
     (get m).1 = Gives (Fulfilled value) /\ getInProgress (get m).2 = false) /\
  (forall j, stop = Some (j, Returns (Promise Pending)) ->
     (get m).1 = Gives Unsettled /\ getInProgress (get m).2 = true) /\
  (forall j r, stop = Some (j, r) -> r <> Returns (Promise Pending) ->
     ignoreSynchronizationErrors cfg = false /\
     (exists g, primarySourceSynchronizers cfg !! j = Some g /\
                r = g (attempts (Synchronizer j) (calls m)) value) /\
     (exists e, (get m).1 = Gives (Rejected e)) /\
     getInProgress (get m).2 = false).
Proof.
  intros Hgip Hp Hx Hfail Hbefore Hk Hf Hacc cfg stop.
  destruct (get_decided m p x k f value) as (s & Hs & Hd); try done.
  fold cfg stop in Hd.
  pose proof (get_gives m s (get m).2) as Hgives.
  destruct Hgives as (_ & _ & _ & Hflag & _); [by destruct (get m); simpl in *; subst|].
  split; [|split].
  - intros Hstop. rewrite Hstop in Hd. simpl in Hd. subst s. by rewrite Hs.
  - intros j Hstop. rewrite Hstop in Hd. simpl in Hd. subst s. by rewrite Hs.
  - intros j r Hstop Hr.
    destruct (stops_at_Some _ _ _ _ _ _ _ Hstop) as (_ & Hcont & g & Hg & Hrg).
    rewrite Nat.sub_0_r in Hg.
    assert (exists e, s = Rejected e) as [e ->].
    { rewrite Hstop in Hd. by destruct r as [?|[?|[?|?|]]]. }
    split; [|split; [eauto|split; [by rewrite Hs; eauto|done]]].
    destruct r as [?|[?|[?|?|]]]; simpl in Hcont; done.
Qed.
End GetterOutcomes.

Section GetterReports.
Import Getter.
Context {V : Type} `{JsValue V}.
Implicit Types (c : Configuration V) (m : machine V).

Lemma append_assoc (s1 s2 s3 : string) : (s1 +:+ s2) +:+ s3 = s1 +:+ (s2 +:+ s3).
Proof.
  induction s1 as [|a s1 IH]; [done|].
  change (String a ((s1 +:+ s2) +:+ s3) = String a (s1 +:+ s2 +:+ s3)). by rewrite IH.
Qed.

Lemma append_empty (s : string) : s +:+ EmptyString = s.
Proof.
  induction s as [|a s IH]; [done|].
  change (String a (s +:+ EmptyString) = String a s). by rewrite IH.
Qed.

Lemma join_app (l1 l2 : list string) : join (l1 ++ l2) = join l1 +:+ join l2.
Proof.
  induction l1 as [|x l1 IH]; [done|].
  unfold join in *. simpl. by rewrite IH, append_assoc.
Qed.

(** The report has one line for each entry, in the order of the
    entries. *)
Lemma reportError_lines (catcher : PromiseChainErrorCatcher V) (st : list Error) :
  reportError catcher st =
    (callingEntityName catcher +:+ " has failed." +:+ nl) +:+
    join (report_line st <$> results catcher).
Proof.
  unfold reportError.
  generalize (callingEntityName catcher +:+ " has failed." +:+ nl).
  induction (results catcher) as [|r rs IH]; intros acc; simpl.
  - unfold join. simpl. by rewrite append_empty.
  - rewrite IH. unfold join. simpl. by rewrite append_assoc.
Qed.

(** Runs the handlers of a chain on a store whose last object is the
    one they name or reword. *)
Ltac run_handlers :=
  repeat (progress (unfold returning, nameError, then_, catch_, modify, reject, resolve,
                      throw_new, throw_, throw_TypeError, new_Error, new_TypeError,
                      materialize, or_name; simpl);
          rewrite ?update_last; simpl).

Lemma failure_text_gave c (x : returned V) text :
  failure_text c (Returns x) = Some text -> TypeError_of x = None.
Proof.
  destruct x as [v|s]; [|intros _; apply TypeError_of_promise].
  simpl. rewrite TypeError_of_NotPromise. by destruct (has_then v).
Qed.

Lemma primary_stage_fails x m text :
  failure_text (configuration m) (Returns x) = Some text ->
  primary_stage x m =
    (Rejected (length (errors m)),
     set_errors (errors m ++ [mkError text (Some "primary source")]) m).
Proof.
  unfold primary_stage, failure_text, assertIsPromise.
  destruct x as [v|[v|t|]]; simpl.
  - destruct (has_then v); [done|]. intros [= <-]. by run_handlers.
  - unfold accepts.
    destruct (verifier (configuration m)) as [check|] eqn:Hv; [|done].
    destruct (check v) eqn:Hcheck; [done|]. intros [= <-].
    run_handlers. unfold verifyValue. simpl. rewrite Hv, Hcheck. by run_handlers.
  - destruct t as [msg|r]; [|done]. intros [= <-]. by run_handlers.
  - done.
Qed.

Lemma trySecondarySource_fails f index e m text :
  doQuit (quitter m) = false ->
  failure_text (configuration m) (f (attempts (Secondary index) (calls m))) = Some text ->
  trySecondarySource f index e m =
    (Rejected (length (errors m)),
     set_errors (errors m ++ [mkError text (Some (secondary_name index))])
       (set_calls (calls m ++ [Call (Secondary index) None]) (push (Failure e) m))).
Proof.
  intros Hq Hfail.
  assert (forall r, f (attempts (Secondary index) (calls m)) = r ->
            trySecondarySource f index e m =
              (called (Secondary index) None (fun _ => r) THEN (fun maybeAPromise =>
                 returning (assertIsPromise maybeAPromise) (fun promise =>
                   promise
                     THEN verifyValue
                     CATCH nameError (secondary_name index)
                     THEN recordSuccess (secondary_name index)
                     THEN performSynchronizationWithPrimary)))
                (push (Failure e) m)) as Hrun.
  { intros r <-. unfold trySecondarySource, maybeQuit, called, invoke, then_ at 1 2, modify.
    by rewrite Hq. }
  destruct (f (attempts (Secondary index) (calls m))) as [t|[v|[v|t|]]] eqn:Hf;
    simpl in Hfail; try done; rewrite (Hrun _ eq_refl); clear Hrun.
  - destruct (has_then v) eqn:Hthen; [done|]. injection Hfail as <-.
    unfold called, invoke. run_handlers. rewrite Hthen. by run_handlers.
  - unfold accepts in Hfail.
    destruct (verifier (configuration m)) as [check|] eqn:Hv; [|done].
    destruct (check v) eqn:Hcheck; [done|]. injection Hfail as <-.
    unfold called, invoke. run_handlers. unfold verifyValue. simpl.
    rewrite Hv, Hcheck. by run_handlers.
  - destruct t as [msg|r]; [|done]. injection Hfail as <-.
    unfold called, invoke. by run_handlers.
Qed.

(** The loop of [getFromSecondaries] when every source fails: each
    rejection is recorded when the next source is tried, and each
    failure leaves one new error object, named after its source. *)
Lemma secondaries_all_fail (texts : nat -> string) : forall l index e m,
  doQuit (quitter m) = false ->
  (forall j f, l !! j = Some f ->
     failure_text (configuration m) (f (attempts (Secondary (index + j)) (calls m))) =
       Some (texts (index + j))) ->
  let rm := secondaries_from index l e m in
  exists e',
    rm.1 = Rejected e' /\
    results (errorCatcher rm.2) ++ [Failure e'] =
      results (errorCatcher m) ++
      Failure e :: (Failure <$> seq (length (errors m)) (length l)) /\
    errors rm.2 =
      errors m ++
      ((fun j => mkError (texts j) (Some (secondary_name j))) <$> seq index (length l)) /\
    callingEntityName (errorCatcher rm.2) = callingEntityName (errorCatcher m) /\
    configuration rm.2 = configuration m /\
    quitter rm.2 = quitter m /\
    calls rm.2 = calls m ++ secondary_calls index (length l).
Proof.
  induction l as [|f l IH]; intros index e m Hq Hfail; simpl.
  - exists e. unfold secondary_calls. simpl. by rewrite !app_nil_r.
  - pose proof (Hfail 0 f eq_refl) as Hf. rewrite Nat.add_0_r in Hf.
    rewrite (trySecondarySource_fails f index e m _ Hq Hf).
    match goal with |- context [secondaries_from (S index) l ?e1 ?m1] =>
      destruct (IH (S index) e1 m1)
        as (e' & Hr & Hres & Herr & Hname & Hcfg & Hquit & Hcalls) end.
    + done.
    + intros j g Hg. simpl. rewrite attempts_other by (intros [= Heq]; lia).
      replace (S (index + j)) with (index + S j) by lia. by apply (Hfail (S j)).
    + exists e'. simpl in *. rewrite length_app in Hres. simpl in Hres.
      rewrite Nat.add_1_r in Hres.
      split; [done|]. split; [by rewrite Hres, <- app_assoc|].
      split; [by rewrite Herr, <- app_assoc|]. repeat split; try done.
      by rewrite Hcalls, <- app_assoc.
Qed.

Lemma report_line_failure (st : list Error) e text name :
  st !! e = Some (mkError text (Some name)) ->
  report_line (V:=V) st (Failure e) = failure_line name text.
Proof.
  intros He. unfold report_line, failure_line, stepName_of, message_of. by rewrite He.
Qed.

Lemma report_lines_failures (st0 : list Error) (mk : nat -> Error)
    (line : nat -> string) count : forall first (extra : list Error),
  (forall j, report_line (V:=V) [mk j] (Failure 0) = line j) ->
  report_line (V:=V) (st0 ++ extra ++ (mk <$> seq first count)) <$>
    (Failure <$> seq (length (st0 ++ extra)) count) =
  line <$> seq first count.
Proof.
  induction count as [|count IH]; intros first extra Hline; [done|].
  simpl. f_equal.
  - rewrite <- (Hline first). unfold report_line, stepName_of, message_of.
    rewrite app_assoc, lookup_app_r, Nat.sub_diag by lia. done.
  - specialize (IH (S first) (extra ++ [mk first]) Hline).
    rewrite !app_assoc, length_app, Nat.add_1_r in IH. simpl in IH.
    rewrite <- !app_assoc in IH. exact IH.
Qed.

Lemma all_failed_lines (st : list Error) primary (secondary : nat -> string) n :
  report_line (V:=V)
    ((st ++ [mkError primary (Some "primary source")]) ++
     ((fun j => mkError (secondary j) (Some (secondary_name j))) <$> seq 0 n)) <$>
    (Failure (length st) :: (Failure <$> seq (S (length st)) n)) =
  failure_line "primary source" primary ::
    ((fun j => failure_line (secondary_name j) (secondary j)) <$> seq 0 n).
Proof.
  rewrite fmap_cons. f_equal.
  - apply report_line_failure.
    rewrite <- app_assoc. by rewrite lookup_app_r, Nat.sub_diag by lia.
  - pose proof (report_lines_failures st
                  (fun j => mkError (secondary j) (Some (secondary_name j)))
                  (fun j => failure_line (secondary_name j) (secondary j))
                  n 0 [mkError primary (Some "primary source")]) as Hlines.
    rewrite length_app, Nat.add_1_r in Hlines. simpl in Hlines.
    rewrite <- app_assoc. apply Hlines. done.
Qed.

(** When every source fails, by a promise rejected with a new error, a
    value that does not pass for a promise (it has no truthy [then]) or
    a value that the verifier refuses, and none of them by throwing,
    with an error object that existed before or with a value that only
    passes for a promise, the promise of [get] is rejected with a
    new error whose message is [failure_report]: the name of the
    getter, then one line for the primary source and one for each
    secondary source, in the order in which they were tried, each with
    the reason for which that source failed ([failure_text]). Each
    source has been invoked once, in that order, and no synchronizer
    has been. The guard against a second call is cleared. *)
Theorem every_failure_is_reported m p x (primary : string) (secondary : nat -> string) :
  getInProgress m = false ->
  primarySource (configuration m) = Some p ->
  p (attempts Primary (calls m)) = Returns x ->
  failure_text (configuration m) (Returns x) = Some primary ->
  (forall j f, secondarySources (configuration m) !! j = Some f ->
     failure_text (configuration m) (f (attempts (Secondary j) (calls m))) =
       Some (secondary j)) ->
  exists e,
    (get m).1 = Gives (Rejected e) /\
    errors (get m).2 !! e =
      Some (mkError (failure_report primary secondary
                       (length (secondarySources (configuration m)))) None) /\
    errors m !! e = None /\
    getInProgress (get m).2 = false /\
    calls (get m).2 =
      calls m ++
      Call Primary None :: secondary_calls 0 (length (secondarySources (configuration m))).
Proof.
  intros Hgip Hp Hx Hprimary Hsecondary.
  rewrite (get_unfold m p Hgip Hp), Hx, (failure_text_gave _ _ _ Hprimary). simpl.
  rewrite (primary_stage_fails x (started m) primary) by done.
  unfold fall_back. rewrite getFromSecondaries_loop. simpl.
  match goal with |- context [secondaries_from 0 ?l ?e1 ?m1] =>
    destruct (secondaries_all_fail secondary l 0 e1 m1)
      as (e' & Hr & Hres & Herr & Hname & Hcfg & _ & Hcalls) end.
  { done. }
  { intros j f Hf. simpl. rewrite attempts_other by done. by apply Hsecondary. }
  simpl in Hres, Herr, Hname, Hcfg, Hcalls.
  match goal with |- context [settle ?rm] => destruct rm as [r m2] end.
  simpl in *. subst r.
  unfold settle, handleFinalError, then_, catch_, modify, reject, throw_new, new_Error. simpl.
  exists (length (errors m2)).
  split; [done|]. split; [|split; [|split; [done|]]].
  - rewrite lookup_last. do 2 f_equal.
    rewrite reportError_lines. simpl. rewrite Hres, Herr, Hname, length_app, Nat.add_1_r.
    rewrite all_failed_lines. reflexivity.
  - apply lookup_ge_None_2. rewrite Herr, !length_app. simpl. lia.
  - by rewrite Hcalls, <- app_assoc.
Qed.

Lemma report_line_app (st suffix : list Error) e :
  e < length st ->
  report_line (V:=V) (st ++ suffix) (Failure e) = report_line st (Failure e).
Proof.
  intros He. unfold report_line, stepName_of, message_of. by rewrite lookup_app_l.
Qed.

Lemma report_lines_app (st suffix : list Error) first count :
  first + count <= length st ->
  report_line (V:=V) (st ++ suffix) <$> (Failure <$> seq first count) =
  report_line st <$> (Failure <$> seq first count).
Proof.
  intros Hle. rewrite <- !list_fmap_compose. apply list_fmap_ext.
  intros j x Hx. simpl. apply lookup_seq in Hx as [-> Hj].
  apply report_line_app. lia.
Qed.

Lemma all_failed_lines_app (st suffix : list Error) primary (secondary : nat -> string) n :
  report_line (V:=V)
    (((st ++ [mkError primary (Some "primary source")]) ++
      ((fun j => mkError (secondary j) (Some (secondary_name j))) <$> seq 0 n)) ++ suffix) <$>
    (Failure (length st) :: (Failure <$> seq (S (length st)) n)) =
  failure_line "primary source" primary ::
    ((fun j => failure_line (secondary_name j) (secondary j)) <$> seq 0 n).
Proof.
  rewrite <- (all_failed_lines st primary secondary n).
  change (Failure (length st) :: (Failure <$> seq (S (length st)) n))
    with (Failure (V:=V) <$> seq (length st) (S n)).
  apply report_lines_app. rewrite !length_app, length_fmap, length_seq. simpl. lia.
Qed.

(** ** A synchronizer that fails *)

Lemma secondaries_from_app l1 : forall l2 index e m,
  secondaries_from index (l1 ++ l2) e m =
    match secondaries_from index l1 e m with
    | (Rejected e', m') => secondaries_from (index + length l1) l2 e' m'
    | other => other
    end.
Proof.
  induction l1 as [|f l1 IH]; intros l2 index e m; simpl.
  - by rewrite Nat.add_0_r.
  - destruct (trySecondarySource f index e m) as [[v|e'|] m']; try done.
    rewrite IH. by replace (S index + length l1) with (index + S (length l1)) by lia.
Qed.

Lemma trySecondarySource_delivers f index e m value :
  doQuit (quitter m) = false ->
  f (attempts (Secondary index) (calls m)) = Returns (Promise (Resolves value)) ->
  accepts (configuration m) value = true ->
  trySecondarySource f index e m =
    performSynchronizationWithPrimary value
      (push (Success (secondary_name index) value)
         (set_calls (calls m ++ [Call (Secondary index) None]) (push (Failure e) m))).
Proof.
  intros Hq Hf Hacc.
  transitivity
    ((called (Secondary index) None (fun _ => Returns (Promise (Resolves value)))
        THEN (fun maybeAPromise =>
          returning (assertIsPromise maybeAPromise) (fun promise =>
            promise
              THEN verifyValue
              CATCH nameError (secondary_name index)
              THEN recordSuccess (secondary_name index)
              THEN performSynchronizationWithPrimary)))
       (push (Failure e) m)).
  { rewrite <- Hf.
    unfold trySecondarySource, maybeQuit, called, invoke, then_ at 1 2, modify.
    by rewrite Hq. }
  unfold accepts in Hacc.
  unfold called, invoke, then_, catch_, assertIsPromise, resolve, verifyValue,
    recordSuccess, modify. simpl.
  destruct (verifier (configuration m)) as [check|]; [by rewrite Hacc|done].
Qed.

Lemma eachSynchronizer_resolves ignore value f index (p : chain (machine V) V) m m1 a v :
  p m = (Fulfilled a, m1) ->
  f (attempts (Synchronizer index) (calls m1)) value = Returns (Promise (Resolves v)) ->
  eachSynchronizer ignore value f index p m =
    (Fulfilled value,
     set_calls (calls m1 ++ [Call (Synchronizer index) (Some value)]) m1).
Proof.
  intros Hp Hf. unfold eachSynchronizer, then_, catch_, called, invoke. rewrite Hp.
  simpl. by rewrite Hf.
Qed.

Lemma eachSynchronizer_fails value f index (p : chain (machine V) V) m m1 a text :
  p m = (Fulfilled a, m1) ->
  synchronizer_failure_text (f (attempts (Synchronizer index) (calls m1)) value) =
    Some text ->
  eachSynchronizer false value f index p m =
    (Rejected (length (errors m1)),
     set_quitter {| doQuit := true |}
       (set_errors (errors m1 ++ [mkError text (Some (synchronizer_name index))])
          (set_calls (calls m1 ++ [Call (Synchronizer index) (Some value)]) m1))).
Proof.
  intros Hp Hfail.
  destruct (f (attempts (Synchronizer index) (calls m1)) value) as [t|[v|[v|t|]]] eqn:Hf;
    simpl in Hfail; try done;
    try (destruct (has_then v) eqn:Hthen; [done|]);
    try (destruct t as [msg|r]; [|done]); injection Hfail as <-;
    unfold eachSynchronizer, then_, catch_, called, invoke, assertIsPromise,
      quitOnCondition, quit;
    rewrite Hp; simpl; rewrite Hf; run_handlers; rewrite ?Hthen; by run_handlers.
Qed.

Lemma update_same (st : list Error) e x f :
  st !! e = Some x -> f x = x -> update e f st = st.
Proof. intros He Hf. unfold update. rewrite He, Hf. by apply list_insert_id. Qed.

(** A rejection that passes a later synchronizer: the error keeps the
    name it has, and the exit latch is set once more. *)
Lemma eachSynchronizer_passes value f index (p : chain (machine V) V) m m1 e text a s :
  p m = (Rejected e, m1) ->
  errors m1 !! e = Some (mkError text (Some (String a s))) ->
  eachSynchronizer false value f index p m =
    (Rejected e, set_quitter {| doQuit := true |} m1).
Proof.
  intros Hp He. unfold eachSynchronizer, then_, catch_. rewrite Hp.
  unfold nameError, then_, modify, reject, quitOnCondition, quit. simpl.
  rewrite (update_same _ _ _ _ He) by done. by destruct m1.
Qed.

Lemma synchronizers_pass value : forall l index (p : chain (machine V) V) m m1 e text a s,
  p m = (Rejected e, m1) ->
  errors m1 !! e = Some (mkError text (Some (String a s))) ->
  doQuit (quitter m1) = true ->
  forEach_from (eachSynchronizer false value) index l p m =
    (Rejected e, set_quitter {| doQuit := true |} m1).
Proof.
  induction l as [|f l IH]; intros index p m m1 e text a s Hp He Hq; simpl.
  - rewrite Hp. destruct m1 as [? ? ? [q] ? ?]. simpl in *. by subst q.
  - erewrite (IH (S index) (eachSynchronizer false value f index p) m
                (set_quitter {| doQuit := true |} m1)); try done.
    by eapply eachSynchronizer_passes.
Qed.

(** The loop of [performSynchronizationWithPrimary] when the
    synchronizers before position [index + d] resolve and the one at
    that position fails. *)
Lemma synchronizers_fail_at value (log0 : list (call V)) :
  forall d l index (p : chain (machine V) V) m m1 g text,
    p m = (Fulfilled value, m1) ->
    (forall j, index <= j ->
       attempts (Synchronizer j) (calls m1) = attempts (Synchronizer j) log0) ->
    (forall j g', j < d -> l !! j = Some g' ->
       exists v, g' (attempts (Synchronizer (index + j)) log0) value =
                   Returns (Promise (Resolves v))) ->
    l !! d = Some g ->
    synchronizer_failure_text (g (attempts (Synchronizer (index + d)) log0) value) =
      Some text ->
    let rm := forEach_from (eachSynchronizer false value) index l p m in
    rm.1 = Rejected (length (errors m1)) /\
    errors rm.2 = errors m1 ++ [mkError text (Some (synchronizer_name (index + d)))] /\
    errorCatcher rm.2 = errorCatcher m1 /\
    configuration rm.2 = configuration m1 /\
    getInProgress rm.2 = getInProgress m1 /\
    doQuit (quitter rm.2) = true.
Proof.
  induction d as [|d IH]; intros l index p m m1 g text Hp Hatt Hbefore Hl Hfail;
    destruct l as [|g' l]; try done; simpl in Hl.
  - injection Hl as ->. rewrite Nat.add_0_r in *. rewrite <- Hatt in Hfail by lia.
    simpl.
    erewrite synchronizers_pass;
      [|by eapply eachSynchronizer_fails| |done].
    + done.
    + simpl. by rewrite lookup_app_r, Nat.sub_diag by lia.
  - destruct (Hbefore 0 g' ltac:(lia) eq_refl) as [v Hv].
    rewrite Nat.add_0_r, <- Hatt in Hv by lia.
    pose proof (eachSynchronizer_resolves false value g' index p m m1 value v Hp Hv) as Hstep.
    simpl.
    destruct (IH l (S index) (eachSynchronizer false value g' index p) m _ g text Hstep)
      as (Hr & He & Hc & Hcfg & Hgip & Hq).
    + intros j Hj. simpl. rewrite attempts_other by (intros [= Heq]; lia). apply Hatt. lia.
    + intros j g'' Hj Hg''. replace (S index + j) with (index + S j) by lia.
      by apply (Hbefore (S j)); [lia|].
    + done.
    + by replace (S index + d) with (index + S d) by lia.
    + replace (index + S d) with (S index + d) by lia. done.
Qed.

Lemma attempts_secondary_calls (f : callee) count : forall first (log : list (call V)),
  (forall j, first <= j < first + count -> f <> Secondary j) ->
  attempts f (log ++ secondary_calls first count) = attempts f log.
Proof.
  induction count as [|count IH]; intros first log Hf.
  - unfold secondary_calls. simpl. by rewrite app_nil_r.
  - rewrite secondary_calls_cons, cons_middle, app_assoc, IH.
    + apply attempts_other. apply Hf. lia.
    + intros j Hj. apply Hf. lia.
Qed.

(** When the primary source and the secondary sources before position
    [k] have failed, the source at position [k] has delivered a value
    that is accepted, the synchronizers before position [i] have
    resolved and the one at position [i] fails, with
    [ignoreSynchronizationErrors] not set, the promise of [get] is
    rejected with a new error whose message is
    [synchronization_report]: after the name of the getter, the lines
    of the sources that failed, the line of the source that delivered,
    with the value, and the line of the synchronizer that failed. *)
Theorem a_failed_synchronization_is_reported m p x k f value i g
    (primary : string) (secondary : nat -> string) (text : string) :
  let cfg := configuration m in
  getInProgress m = false ->
  primarySource cfg = Some p ->
  p (attempts Primary (calls m)) = Returns x ->
  failure_text cfg (Returns x) = Some primary ->
  (forall j f', j < k -> secondarySources cfg !! j = Some f' ->
     failure_text cfg (f' (attempts (Secondary j) (calls m))) = Some (secondary j)) ->
  secondarySources cfg !! k = Some f ->
  f (attempts (Secondary k) (calls m)) = Returns (Promise (Resolves value)) ->
  accepts cfg value = true ->
  ignoreSynchronizationErrors cfg = false ->
  (forall j g', j < i -> primarySourceSynchronizers cfg !! j = Some g' ->
     exists v, g' (attempts (Synchronizer j) (calls m)) value =
                 Returns (Promise (Resolves v))) ->
  primarySourceSynchronizers cfg !! i = Some g ->
  synchronizer_failure_text (g (attempts (Synchronizer i) (calls m)) value) = Some text ->
  exists e,
    (get m).1 = Gives (Rejected e) /\
    errors (get m).2 !! e =
      Some (mkError (synchronization_report primary secondary k value i text) None) /\
    errors m !! e = None /\
    getInProgress (get m).2 = false.
Proof.
  intros cfg Hgip Hp Hx Hprimary Hsecondary Hk Hf Hacc Hignore Hbefore Hi Hfail.
  rewrite (get_unfold m p Hgip Hp), Hx, (failure_text_gave _ _ _ Hprimary). simpl.
  rewrite (primary_stage_fails x (started m) primary) by done.
  unfold fall_back. rewrite getFromSecondaries_loop. simpl.
  fold cfg. rewrite <- (take_drop_middle _ _ _ Hk), secondaries_from_app.
  assert (k <= length (secondarySources cfg)) as Hlen.
  { apply Nat.lt_le_incl. by eapply lookup_lt_Some. }
  rewrite length_take_le by done.
  match goal with |- context [secondaries_from 0 ?l ?e1 ?m1] =>
    destruct (secondaries_all_fail secondary l 0 e1 m1)
      as (e' & Hr & Hres & Herr & Hname & Hcfg & Hquit & Hcalls) end.
  { done. }
  { intros j f' Hf'. apply lookup_take_Some in Hf' as [Hf' Hj]. simpl.
    rewrite attempts_other by done. by apply Hsecondary. }
  rewrite length_take_le in Hres, Herr, Hcalls by done.
  simpl in Hres, Herr, Hname, Hcfg, Hquit, Hcalls.
  match goal with |- context [settle (match ?rm with _ => _ end)] =>
    destruct rm as [r m2] end.
  simpl in Hr, Hres, Herr, Hname, Hcfg, Hquit, Hcalls. subst r. simpl.
  assert (forall fn : callee, (forall j, fn <> Secondary j \/ k <= j) -> fn <> Primary ->
            attempts fn (calls m2) = attempts fn (calls m)) as Hatt.
  { intros fn Hfn Hprim. rewrite Hcalls, attempts_secondary_calls.
    - by apply attempts_other.
    - intros j Hj. destruct (Hfn j); [done|lia]. }
  rewrite (trySecondarySource_delivers f k e' m2 value).
  2:{ by rewrite Hquit. }
  2:{ rewrite Hatt; [done| |done]. intros j. destruct (decide (k <= j)); [by right|left].
      intros [= ->]. lia. }
  2:{ by rewrite Hcfg. }
  unfold performSynchronizationWithPrimary, forEach. simpl. rewrite Hcfg. fold cfg.
  rewrite Hignore.
  match goal with |- context [forEach_from _ 0 _ (resolve value) ?m3] =>
    destruct (synchronizers_fail_at value (calls m) i (primarySourceSynchronizers cfg) 0
                (resolve value) m3 m3 g text eq_refl)
      as (Hr4 & Herr4 & Hcatcher4 & _ & _ & Hquit4) end; try done.
  { intros j _. simpl. rewrite attempts_other by done. apply Hatt; [by left|done]. }
  match goal with |- context [settle (match ?rm with _ => _ end)] =>
    destruct rm as [r m4] end.
  simpl in Hr4, Herr4, Hcatcher4, Hquit4. subst r.
  rewrite secondaries_from_quit by done.
  unfold settle, handleFinalError, then_, catch_, modify, reject, throw_new, new_Error. simpl.
  exists (length (errors m4)).
  split; [done|]. split; [|split; [|done]].
  - rewrite lookup_last. do 2 f_equal.
    set (named := mkError text (Some (synchronizer_name i))) in *.
    assert (report_line (errors m2 ++ [named]) <$> (results (errorCatcher m2) ++ [Failure e']) =
            failure_line "primary source" primary ::
              ((fun j => failure_line (secondary_name j) (secondary j)) <$> seq 0 k))
      as Hfailed.
    { rewrite Hres, Herr, length_app, Nat.add_1_r. apply all_failed_lines_app. }
    assert (report_line (errors m2 ++ [named]) <$> [Failure (length (errors m2))] =
            [failure_line (synchronizer_name i) text]) as Hlast.
    { rewrite list_fmap_singleton. f_equal. apply report_line_failure, lookup_last. }
    rewrite reportError_lines. simpl. rewrite Hcatcher4, Herr4. simpl.
    rewrite fmap_app in Hfailed.
    rewrite Hname, !fmap_app, Hfailed, Hlast, !join_app.
    unfold synchronization_report, header.
    change (join (?a :: ?l)) with (a +:+ join l).
    change (join (report_line ?st <$> [Success (secondary_name k) value]))
      with (success_line (secondary_name k) value +:+ EmptyString).
    change (join []) with EmptyString.
    rewrite !append_assoc, !append_empty. reflexivity.
  - apply lookup_ge_None_2. rewrite Herr4, Herr, !length_app. simpl. lia.
Qed.

(** ** A secondary source that throws *)

Lemma trySecondarySource_throws f index e m msg :
  doQuit (quitter m) = false ->
  f (attempts (Secondary index) (calls m)) = Throws (NewError msg) ->
  trySecondarySource f index e m =
    (Rejected (length (errors m)),
     set_errors (errors m ++ [mkError msg None])
       (set_calls (calls m ++ [Call (Secondary index) None]) (push (Failure e) m))).
Proof.
  intros Hq Hf.
  transitivity
    ((called (Secondary index) None (fun _ => Throws (NewError msg))
        THEN (fun maybeAPromise =>
          returning (assertIsPromise maybeAPromise) (fun promise =>
            promise
              THEN verifyValue
              CATCH nameError (secondary_name index)
              THEN recordSuccess (secondary_name index)
              THEN performSynchronizationWithPrimary)))
       (push (Failure e) m)).
  { rewrite <- Hf.
    unfold trySecondarySource, maybeQuit, called, invoke, then_ at 1 2, modify.
    by rewrite Hq. }
  unfold called, invoke. by run_handlers.
Qed.

Lemma report_line_unnamed (st : list Error) e text :
  st !! e = Some (mkError text None) ->
  report_line (V:=V) st (Failure e) = unnamed_line text.
Proof.
  intros He. unfold report_line, unnamed_line, stepName_of, message_of. by rewrite He.
Qed.

(** A secondary source that throws, instead of returning a promise,
    does not break the call: the sources after it are tried as usual.
    When they fail as well, the promise of [get] is rejected with the
    report [report_with_an_exception], in which the source that threw
    has no name: its line starts with [undefined] and carries the
    message of the exception as it was thrown. *)
Theorem a_secondary_source_that_throws_is_reported_without_a_name m p x k f msg
    (primary : string) (secondary : nat -> string) :
  let cfg := configuration m in
  getInProgress m = false ->
  primarySource cfg = Some p ->
  p (attempts Primary (calls m)) = Returns x ->
  failure_text cfg (Returns x) = Some primary ->
  secondarySources cfg !! k = Some f ->
  f (attempts (Secondary k) (calls m)) = Throws (NewError msg) ->
  (forall j f', j <> k -> secondarySources cfg !! j = Some f' ->
     failure_text cfg (f' (attempts (Secondary j) (calls m))) = Some (secondary j)) ->
  exists e,
    (get m).1 = Gives (Rejected e) /\
    errors (get m).2 !! e =
      Some (mkError (report_with_an_exception primary secondary k msg
                       (length (secondarySources cfg) - S k)) None) /\
    errors m !! e = None /\
    getInProgress (get m).2 = false /\
    calls (get m).2 =
      calls m ++ Call Primary None :: secondary_calls 0 (length (secondarySources cfg)).
Proof.
  intros cfg Hgip Hp Hx Hprimary Hk Hf Hsecondary.
  assert (k < length (secondarySources cfg)) as Hlt by by eapply lookup_lt_Some.
  set (count := length (secondarySources cfg) - S k).
  rewrite (get_unfold m p Hgip Hp), Hx, (failure_text_gave _ _ _ Hprimary). simpl.
  rewrite (primary_stage_fails x (started m) primary) by done.
  unfold fall_back. rewrite getFromSecondaries_loop. simpl.
  fold cfg. rewrite <- (take_drop_middle _ _ _ Hk), secondaries_from_app.
  rewrite length_take_le by lia.
  match goal with |- context [secondaries_from 0 ?l ?e1 ?m1] =>
    destruct (secondaries_all_fail secondary l 0 e1 m1)
      as (e' & Hr & Hres & Herr & Hname & Hcfg & Hquit & Hcalls) end.
  { done. }
  { intros j f' Hf'. apply lookup_take_Some in Hf' as [Hf' Hj]. simpl.
    rewrite attempts_other by done. apply Hsecondary; [lia|done]. }
  rewrite length_take_le in Hres, Herr, Hcalls by lia.
  simpl in Hres, Herr, Hname, Hcfg, Hquit, Hcalls.
  match goal with |- context [settle (match ?rm with _ => _ end)] =>
    destruct rm as [r m2] end.
  simpl in Hr, Hres, Herr, Hname, Hcfg, Hquit, Hcalls. subst r. simpl.
  assert (forall fn : callee, (forall j, fn <> Secondary j \/ k <= j) -> fn <> Primary ->
            attempts fn (calls m2) = attempts fn (calls m)) as Hatt.
  { intros fn Hfn Hprim. rewrite Hcalls, attempts_secondary_calls.
    - by apply attempts_other.
    - intros j Hj. destruct (Hfn j); [done|lia]. }
  rewrite (trySecondarySource_throws f k e' m2 msg).
  2:{ by rewrite Hquit. }
  2:{ rewrite Hatt; [done| |done]. intros j. destruct (decide (k <= j)); [by right|left].
      intros [= ->]. lia. }
  match goal with |- context [secondaries_from (S k) ?l ?e1 ?m1] =>
    destruct (secondaries_all_fail secondary l (S k) e1 m1)
      as (e3 & Hr3 & Hres3 & Herr3 & Hname3 & _ & _ & Hcalls3) end.
  { simpl. by rewrite Hquit. }
  { intros j f' Hf'. rewrite lookup_drop in Hf'. simpl.
    rewrite attempts_other by (intros [= Heq]; lia).
    rewrite Hatt; [| |done].
    - rewrite Hcfg. apply Hsecondary; [lia|done].
    - intros i. destruct (decide (k <= i)); [by right|left]. intros [= Heq]. lia. }
  match type of Herr3 with context [seq (S k) ?c] => set (n := c) in * end.
  assert (count = n) as Hn by (subst count n; rewrite length_drop; reflexivity).
  assert (length (secondarySources cfg) = k + S n) as Hcount by lia.
  clearbody n count. subst count.
  simpl in Hres3, Herr3, Hname3, Hcalls3.
  match goal with |- context [settle ?rm] => destruct rm as [r m3] end.
  simpl in Hr3, Hres3, Herr3, Hname3, Hcalls3. subst r.
  unfold settle, handleFinalError, then_, catch_, modify, reject, throw_new, new_Error. simpl.
  exists (length (errors m3)).
  split; [done|]. split; [|split; [|split; [done|]]].
  - rewrite lookup_last. do 2 f_equal.
    set (thrown := mkError msg None) in *.
    set (mk := fun j => mkError (secondary j) (Some (secondary_name j))) in *.
    assert (report_line (errors m3) <$> (results (errorCatcher m2) ++ [Failure e']) =
            failure_line "primary source" primary ::
              ((fun j => failure_line (secondary_name j) (secondary j)) <$> seq 0 k))
      as Hfailed.
    { rewrite Hres, Herr3, Herr, length_app, Nat.add_1_r, <- app_assoc.
      apply all_failed_lines_app. }
    assert (report_line (V:=V) (errors m3) (Failure (length (errors m2))) =
            unnamed_line msg) as Hthrown.
    { apply report_line_unnamed. rewrite Herr3, <- app_assoc.
      by rewrite lookup_app_r, Nat.sub_diag by lia. }
    assert (report_line (V:=V) (errors m3) <$>
              (Failure <$> seq (length (errors m2 ++ [thrown])) n) =
            (fun j => failure_line (secondary_name j) (secondary j)) <$> seq (S k) n)
      as Hafter.
    { rewrite Herr3, <- app_assoc. by apply report_lines_failures. }
    rewrite reportError_lines. simpl. rewrite Hname3. simpl. rewrite Hname.
    rewrite Hres3.
    rewrite fmap_app, fmap_cons, Hthrown, Hafter, Hfailed, join_app.
    unfold report_with_an_exception, header.
    change (join (?a :: ?l)) with (a +:+ join l).
    rewrite !append_assoc. reflexivity.
  - apply lookup_ge_None_2. rewrite Herr3, Herr, !length_app. simpl. lia.
  - rewrite Hcalls3. simpl. rewrite Hcalls. simpl.
    rewrite take_drop_middle, Hcount by done.
    rewrite <- !app_assoc. simpl. do 2 f_equal.
    unfold secondary_calls. rewrite seq_app, fmap_app. simpl. done.
Qed.

(** ** An error object that is rejected twice *)

(** Error objects are shared, not copied. When the only secondary
    source is rejected with the very object that the primary source
    was rejected with, that object is reworded a second time and keeps
    the name it was given first; since the report reads the objects
    when it is written, both of its lines are the line of that one
    object: named after the primary source, with the message reworded
    twice. *)
Theorem an_error_rejected_twice_is_reported_under_its_first_name m p f msg :
  let cfg := configuration m in
  let text := "it was rejected with '" +:+
              Error_toString ("it was rejected with '" +:+ Error_toString msg +:+ "'") +:+
              "'" in
  getInProgress m = false ->
  primarySource cfg = Some p ->
  p (attempts Primary (calls m)) = Returns (Promise (Rejects (NewError msg))) ->
  secondarySources cfg = [f] ->
  f (attempts (Secondary 0) (calls m)) =
    Returns (Promise (Rejects (SameError (length (errors m))))) ->
  exists e,
    (get m).1 = Gives (Rejected e) /\
    e <> length (errors m) /\
    errors (get m).2 !! length (errors m) = Some (mkError text (Some "primary source")) /\
    errors (get m).2 !! e =
      Some (mkError (header +:+ failure_line "primary source" text +:+
                     failure_line "primary source" text) None).
Proof.
  intros cfg text Hgip Hp Hx Hsources Hf.
  rewrite (get_unfold m p Hgip Hp), Hx. cbv beta iota zeta.
  rewrite (primary_stage_fails _ (started m) ("it was rejected with '" +:+ Error_toString msg +:+ "'"))
    by done.
  unfold fall_back. rewrite getFromSecondaries_loop. simpl. fold cfg. rewrite Hsources.
  simpl.
  match goal with |- context [trySecondarySource f 0 ?e1 ?m1] =>
    assert (trySecondarySource f 0 e1 m1 =
              (Rejected (length (errors m)),
               set_errors (errors m ++ [mkError text (Some "primary source")])
                 (set_calls (calls m1 ++ [Call (Secondary 0) None])
                    (push (Failure e1) m1)))) as Htry end.
  { transitivity
      ((called (Secondary 0) None
          (fun _ => Returns (Promise (Rejects (SameError (length (errors m))))))
          THEN (fun maybeAPromise =>
            returning (assertIsPromise maybeAPromise) (fun promise =>
              promise
                THEN verifyValue
                CATCH nameError (secondary_name 0)
                THEN recordSuccess (secondary_name 0)
                THEN performSynchronizationWithPrimary)))
         (push (Failure (length (errors m)))
            (set_errors
               (errors m ++
                [mkError ("it was rejected with '" +:+ Error_toString msg +:+ "'")
                   (Some "primary source")])
               (started m)))).
    { rewrite <- Hf.
      unfold trySecondarySource, maybeQuit, called, invoke, then_ at 1 2, modify. simpl.
      unfold then_. cbv beta. unfold push at 1 4. simpl.
      by rewrite attempts_other by done. }
    unfold called, invoke, assertIsPromise. run_handlers. reflexivity. }
  rewrite Htry.
  unfold settle, handleFinalError, then_, catch_, modify, reject, throw_new, new_Error. simpl.
  rewrite length_app. simpl.
  exists (length (errors m) + 1).
  split; [done|]. split; [lia|]. split.
  - rewrite lookup_app_l by (rewrite length_app; simpl; lia). apply lookup_last.
  - replace (length (errors m) + 1)
      with (length (errors m ++ [mkError text (Some "primary source")]))
      by (rewrite length_app; done).
    rewrite lookup_last. do 2 f_equal.
    rewrite reportError_lines. simpl.
    unfold report_line, stepName_of, message_of. rewrite !lookup_last. simpl.
    unfold header, failure_line, join. simpl.
    rewrite !append_assoc, ?append_empty. reflexivity.
Qed.
End GetterReports.

Section ChainHelpers.
Import Getter.
Context {V : Type} `{JsValue V}.
Implicit Types (m : machine V).

Lemma update_named (st : list Error) e x name a s :
  st !! e = Some x -> stepName x = Some (String a s) ->
  update e (or_name name) st = st.
Proof.
  intros He Hx. apply (update_same _ _ x); [done|]. unfold or_name. by rewrite Hx.
Qed.

Lemma nameError_again (names : list string) : forall (p : chain (machine V) V) m e m1 x a s,
  p m = (Rejected e, m1) ->
  errors m1 !! e = Some x -> stepName x = Some (String a s) ->
  fold_left (fun q n => q CATCH nameError n) names p m = (Rejected e, m1).
Proof.
  induction names as [|n names IH]; intros p m e m1 x a s Hp He Hx; [done|].
  simpl. eapply IH; [|exact He|exact Hx].
  unfold catch_. rewrite Hp. unfold nameError, then_, modify, reject. simpl.
  rewrite (update_named _ _ _ _ _ _ He Hx). by destruct m1.
Qed.

(** An error is named once. Of the [nameError] handlers that a
    rejection passes, only the first has an effect, and only when the
    error does not carry a name already: the error is thrown again each
    time, it is the same object, and nothing but its name is touched. *)
Theorem an_error_keeps_its_first_name (name : string) (names : list string) e m x :
  errors m !! e = Some x ->
  name <> EmptyString ->
  let rm := fold_left (fun q n => q CATCH nameError n) (name :: names)
              (reject e : chain (machine V) V) m in
  rm.1 = Rejected e /\
  rm.2 = set_errors (update e (or_name name) (errors m)) m /\
  message_of (errors rm.2) e = message x /\
  stepName_of (errors rm.2) e =
    Some (match stepName x with
          | Some (String a s) => String a s
          | _ => name
          end).
Proof.
  intros He Hname rm.
  assert (exists a s, stepName (or_name name x) = Some (String a s)) as (a & s & Hnamed).
  { unfold or_name. destruct x as [msg [[|a s]|]|msg [[|a s]|]]; simpl;
      try (destruct name as [|a' s']; [done|]); eauto. }
  assert (update e (or_name name) (errors m) !! e = Some (or_name name x)) as He'.
  { unfold update. rewrite He. apply list_lookup_insert_eq. by eapply lookup_lt_Some. }
  assert (rm = (Rejected e, set_errors (update e (or_name name) (errors m)) m)) as ->.
  { unfold rm. simpl. eapply nameError_again; [|exact He'|exact Hnamed].
    unfold catch_, reject, nameError, then_, modify. done. }
  simpl. repeat split.
  - unfold message_of. rewrite He'. unfold or_name.
    by destruct x as [msg [[|? ?]|]|msg [[|? ?]|]].
  - unfold stepName_of. rewrite He'. simpl. unfold or_name.
    by destruct x as [msg [[|? ?]|]|msg [[|? ?]|]].
Qed.

(** What the error catcher records ends up in the report, one line
    for each result and in the order of recording: [catchError] turns a
    rejection into a fulfilment with [undefined] and records the error,
    so that a promise behind it is never rejected; [recordSuccess] lets
    the value through and records it; and either adds one line to the
    end of what [reportError] gives. *)
Theorem what_is_recorded_is_reported (name : string) (p : chain (machine V) V) m :
  let report := fun m' : machine V => reportError (errorCatcher m') (errors m') in
  (forall e m1, p m = (Rejected e, m1) ->
     (p CATCH catchError) m = (Fulfilled undefined, push (Failure e) m1) /\
     report (push (Failure e) m1) = report m1 +:+ report_line (errors m1) (Failure e)) /\
  (forall v m1, p m = (Fulfilled v, m1) ->
     (p THEN recordSuccess name) m = (Fulfilled v, push (Success name v) m1) /\
     report (push (Success name v) m1) = report m1 +:+ success_line name v) /\
  (forall e, ((p CATCH catchError) m).1 <> Rejected e).
Proof.
  intros report. split; [|split].
  - intros e m1 Hp. split.
    + unfold catch_. by rewrite Hp.
    + unfold report, reportError. simpl. by rewrite fold_left_app.
  - intros v m1 Hp. split.
    + unfold then_. by rewrite Hp.
    + unfold report, reportError. simpl. by rewrite fold_left_app.
  - intros e. unfold catch_. by destruct (p m) as [[v|e'|] m1].
Qed.
End ChainHelpers.

(* ================================================================== *)
(** * Properties of the transaction                                    *)
(* ================================================================== *)

Section TransactionRuns.
Import Tx.
Context {V R : Type} `{JsValue V} `{JsObject V} `{RegExpEngine R}.
Implicit Types (m : machine V R) (t : Transaction V R) (l : list (step V)).

Lemma remaining_le t : remaining t <= length (steps t).
Proof. unfold remaining. destruct (advance _); try lia. destruct (_ <=? _)%Z; lia. Qed.

Lemma step_at_Some l x f :
  step_at l x = Some f -> exists z, x = Index z /\ (0 <= z)%Z /\ (Z.to_nat z < length l)%nat.
Proof.
  destruct x as [| |z]; simpl; try discriminate.
  destruct (0 <=? z)%Z eqn:E; try discriminate.
  intros Hl. exists z. split; [done|]. split; [lia|].
  by apply lookup_lt_Some in Hl.
Qed.

Lemma afterStep_ext next1 next2 promise m :
  (forall m', steps (self m') = steps (self m) -> currentStep (self m') = currentStep (self m) ->
              next1 m' = next2 m') ->
  afterStep next1 promise m = afterStep next2 promise m.
Proof.
  intros Hext. destruct promise as [t|[v|[v|t|]]]; simpl; try done.
  unfold handleStepSuccess. by rewrite Hext.
Qed.

Lemma remaining_next t f :
  step_at (steps t) (advance (currentStep t)) = Some f ->
  forall t', steps t' = steps t -> currentStep t' = advance (currentStep t) ->
  S (remaining t') <= remaining t.
Proof.
  intros Hs t' Hst Hcs. apply step_at_Some in Hs as (z & Hz & Hz0 & Hzl).
  unfold remaining. rewrite Hcs, Hz, Hst. simpl.
  destruct (0 <=? z)%Z eqn:E1; [|lia].
  destruct (0 <=? z + 1)%Z eqn:E2; lia.
Qed.

Lemma runNextStep_within_total fuel m :
  remaining (self m) < fuel -> is_Some (runNextStep_within fuel m).
Proof.
  revert m. induction fuel as [|fuel IH]; intros m Hlt; [lia|].
  simpl. destruct (step_at _ _) as [f|] eqn:Hs; [|eauto].
  destruct (f _ _) as [t|[v|[v|t|]]]; simpl; try (repeat case_match; eauto; fail).
  unfold handleStepSuccess.
  match goal with |- context [runNextStep_within fuel ?m1] =>
    destruct (IH m1) as [[c m'] Hr] end.
  - pose proof (remaining_next _ _ Hs) as Hn. simpl in *.
    specialize (Hn (set_context (Some (merge_context (context (self m)) v))
                     (set_currentStep (advance (currentStep (self m))) (self m))) eq_refl eq_refl).
    simpl in Hn. unfold remaining in *. simpl in *. lia.
  - rewrite Hr. destruct c; eauto.
Qed.

Lemma runNextStep_within_mono fuel fuel' m r :
  runNextStep_within fuel m = Some r -> fuel <= fuel' -> runNextStep_within fuel' m = Some r.
Proof.
  revert fuel' m r. induction fuel as [|fuel IH]; intros fuel' m r Hr Hle; [done|].
  destruct fuel' as [|fuel']; [lia|].
  simpl in *. destruct (step_at _ _) as [f|] eqn:Hs; [|done].
  destruct (f _ _) as [t|[v|[v|t|]]]; simpl in *; try done.
  unfold handleStepSuccess in *.
  match type of Hr with context [runNextStep_within fuel ?m1] =>
    destruct (runNextStep_within fuel m1) as [r1|] eqn:Hr1; [|done];
    rewrite (IH fuel' m1 r1 Hr1 ltac:(lia)) end.
  done.
Qed.

Lemma runNextStep_within_eq fuel m r :
  runNextStep_within fuel m = Some r -> runNextStep m = r.
Proof.
  intros Hr. unfold runNextStep.
  destruct (runNextStep_within_total (S (length (steps (self m)))) m) as [r' Hr'].
  { pose proof (remaining_le (self m)). lia. }
  rewrite Hr'. simpl.
  destruct (Nat.le_ge_cases fuel (S (length (steps (self m))))) as [Hle|Hle].
  - rewrite (runNextStep_within_mono _ _ _ _ Hr Hle) in Hr'. congruence.
  - rewrite (runNextStep_within_mono _ _ _ _ Hr' Hle) in Hr. congruence.
Qed.

(** [runNextStep] never runs out of fuel, and satisfies the equation of the method. *)
Lemma runNextStep_unfold m :
  Some (runNextStep m) =
    let '(nextStep, t) := getNextStep (self m) in
    let m := set_self t m in
    match nextStep with
    | None => Some (afterTransactionIsComplete m)
    | Some nextStep =>
        afterStep (fun m => Some (runNextStep m))
          (nextStep (attempts (position t) (log m)) (context t))
          (emit (StepCalled (position t) (context t)) m)
    end.
Proof.
  destruct (runNextStep_within_total (S (length (steps (self m)))) m) as [r Hr].
  { pose proof (remaining_le (self m)). lia. }
  rewrite (runNextStep_within_eq _ _ _ Hr). rewrite <- Hr. simpl.
  destruct (step_at _ _) as [f|] eqn:Hs; [|done].
  apply afterStep_ext. intros m' Hst Hcs. simpl in *.
  destruct (runNextStep_within_total (length (steps (self m))) m') as [r' Hr'].
  { pose proof (remaining_next _ _ Hs (self m') Hst Hcs) as Hn.
    pose proof (remaining_le (self m)). lia. }
  by rewrite Hr', (runNextStep_within_eq _ _ _ Hr').
Qed.

(** ** What the private methods leave untouched *)

Lemma steps_called_app (l1 l2 : list (event V)) :
  steps_called (l1 ++ l2) = steps_called l1 ++ steps_called l2.
Proof. apply omap_app. Qed.


Lemma new_events_app m m' evs : log m' = log m ++ evs -> new_events m m' = evs.
Proof. unfold new_events. intros ->. by rewrite drop_app_length. Qed.

Lemma attempts_steps_called i (l : list (event V)) :
  attempts i l = length (List.filter (fun p => Nat.eqb i p.1) (steps_called l)).
Proof.
  unfold attempts, steps_called.
  induction l as [|ev l IH]; [done|].
  destruct ev; simpl; try apply IH.
  destruct (Nat.eqb i index); simpl; by rewrite IH.
Qed.

Lemma call_handlers_spec hs error m :
  self (call_handlers hs error m) = self m /\
  errors (call_handlers hs error m) = errors m /\
  log (call_handlers hs error m) =
    log m ++ ((fun h => ErrorCalled h error (message_of (errors m) error)) <$> hs).
Proof.
  unfold call_handlers. revert m. induction hs as [|h hs IH]; intros m; simpl.
  - by rewrite app_nil_r.
  - destruct (IH (emit (ErrorCalled h error (message_of (errors m) error)) m))
      as (Hs & He & Hl).
    rewrite Hs, He, Hl. simpl. by rewrite <- app_assoc.
Qed.

Lemma message_of_update st e f :
  message_of (update e f st) e = from_option (fun x => message (f x)) EmptyString (st !! e).
Proof.
  unfold message_of, update. destruct (st !! e) as [x|] eqn:Hx; simpl.
  - rewrite list_lookup_insert_eq; [done|]. by eapply lookup_lt_Some.
  - by rewrite Hx.
Qed.

(** What [handleStepError] does when it finds handlers to call. *)
Lemma handleStepError_dispatch error m hs :
  findErrorCallback (message_of (errors m) error) (self m) = Some hs ->
  is_Some (errors m !! error) ->
  exists m',
    handleStepError error m = (Normal, m') /\
    self m' = set_resumedBeforeNextTick false (self m) /\
    log m' = log m ++ ((fun h => ErrorCalled h error (prefixed error m)) <$> hs).
Proof.
  intros Hf [x Hx]. unfold handleStepError. rewrite Hf. simpl.
  match goal with |- context [call_handlers hs error ?m1] =>
    destruct (call_handlers_spec hs error m1) as (Hs & He & Hl) end.
  eexists. split; [reflexivity|]. simpl in *. split.
  - rewrite Hs. by destruct (self m).
  - rewrite Hl. rewrite message_of_update, Hx. simpl. rewrite message_set_message.
    unfold prefixed, message_of. by rewrite Hx.
Qed.

(** Whatever it finds, [handleStepError] only touches the error, the
    guard against synchronous resumption and the log, to which it adds
    no step. *)
Lemma handleStepError_frame error m :
  let r := handleStepError error m in
  steps (self r.2) = steps (self m) /\
  callbacks (self r.2) = callbacks (self m) /\
  currentStep (self r.2) = currentStep (self m) /\
  context (self r.2) = context (self m) /\
  steps_called (log r.2) = steps_called (log m) /\
  (is_Some (callbacks.onError (callbacks (self m))) ->
   r.1 = Normal /\ resumedBeforeNextTick (self r.2) = false).
Proof.
  unfold handleStepError.
  destruct (findErrorCallback _ _) as [hs|] eqn:Hf; simpl.
  - match goal with |- context [call_handlers hs error ?m1] =>
      destruct (call_handlers_spec hs error m1) as (Hs & He & Hl) end.
    rewrite Hs, Hl, steps_called_app. simpl.
    repeat split; try done.
    rewrite <- (app_nil_r (steps_called (log m))) at 2. f_equal.
    clear. induction hs; [done|]. simpl. done.
  - assert (~ is_Some (callbacks.onError (callbacks (self m)))) as Hno.
    { intros [h Hh]. unfold findErrorCallback in Hf. rewrite Hh in Hf.
      by destruct (callback <$> _). }
    repeat split; try done; by intros.
Qed.

Lemma afterTransactionIsComplete_frame m :
  let r := afterTransactionIsComplete m in
  self r.2 = self m /\ steps_called (log r.2) = steps_called (log m).
Proof.
  unfold afterTransactionIsComplete.
  destruct (callbacks.onSuccess _) as [cb|]; simpl; [|done].
  destruct (callback_raises cb) as [t|]; simpl.
  - destruct (materialize t (errors m)) as [e st]. simpl.
    rewrite steps_called_app. simpl. by rewrite app_nil_r.
  - rewrite steps_called_app. simpl. by rewrite app_nil_r.
Qed.

(** ** The constructor *)

Lemma check_steps_offender (fs : list (step V)) (x : V) rest i :
  check_steps i ((Function <$> fs) ++ NotFunction x :: rest) =
    inl (ordinal (Z.of_nat (i + length fs) + 1) +:+ " Transaction step is not a function").
Proof.
  revert i. induction fs as [|f fs IH]; intros i; simpl.
  - by rewrite Nat.add_0_r.
  - rewrite IH. do 3 f_equal. lia.
Qed.

(** C8. The constructor refuses an empty list with a message that
    contains [needs at least one step]; it refuses a list with an element
    that is not a function by naming the first such element with its
    position counted from 1, which for [fn, fn, x, ...] is [3rd]. *)
Theorem constructor_validation :
  (exists msg, new_Transaction (V:=V) (R:=R) (Array []) = inl msg /\
               includes "needs at least one step" msg = true) /\
  (forall (fs : list (step V)) (x : V) rest,
      new_Transaction (R:=R) (Array ((Function <$> fs) ++ NotFunction x :: rest)) =
        inl (ordinal (Z.of_nat (length fs) + 1) +:+ " Transaction step is not a function")) /\
  (forall (f1 f2 : step V) (x : V) rest,
      new_Transaction (R:=R) (Array (Function f1 :: Function f2 :: NotFunction x :: rest)) =
        inl "3rd Transaction step is not a function").
Proof.
  split; [|split].
  - eexists. split; [reflexivity|]. by vm_compute.
  - intros fs x rest. unfold new_Transaction.
    rewrite length_app, length_fmap. simpl.
    replace (length fs + S (length rest) <=? 0)%nat with false
      by (symmetry; apply Nat.leb_gt; lia).
    by rewrite check_steps_offender.
  - intros. reflexivity.
Qed.

(** ** Dispatch of a failure *)

Lemma findErrorCallback_matching msg t onErr :
  callbacks.onError (callbacks t) = Some onErr ->
  findErrorCallback msg t = Some (selected onErr (matching msg t)).
Proof.
  intros Hh. unfold findErrorCallback, matching, selected. rewrite Hh.
  by destruct (callback <$> _).
Qed.

Lemma handlers_called_errors (f : handler -> event V) hs error msg :
  (forall h, f h = ErrorCalled h error msg) ->
  handlers_called (f <$> hs) = (fun h => (h, error, msg)) <$> hs.
Proof.
  intros Hf. unfold handlers_called. induction hs as [|h hs IH]; [done|].
  rewrite !fmap_cons, Hf. cbn [omap list_omap]. by rewrite IH.
Qed.

(** C5, as amended. When a step fails, the patterns registered with
    [onSpecificError] are tested against the message the error carries
    when it reaches [handleStepError], before [Error in <label>: ] is put
    in front of it; the handlers so selected (or [onError] when there is
    none) are then called with the error, whose message now carries the
    prefix. A pattern given as a string [s] is the regular expression
    [^s$], a pattern given as a regular expression is used as it is. *)
Theorem specific_errors_tested_on_unprefixed_message m error onErr :
  callbacks.onError (callbacks (self m)) = Some onErr ->
  is_Some (errors m !! error) ->
  let raw := message_of (errors m) error in
  let hs := selected onErr (matching raw (self m)) in
  (exists m', handleStepError error m = (Normal, m') /\
     handlers_called (new_events m m') =
       (fun h => (h, error, "Error in " +:+ currentStepText (self m) +:+ ": " +:+ raw)) <$> hs) /\
  (forall s h (t : Transaction V R),
      callbacks.onSpecificErrors (callbacks (onSpecificError (Text s) h t)) =
        callbacks.onSpecificErrors (callbacks t) ++
          [{| callback := h; pattern := RegExp ("^" +:+ s +:+ "$") |}]) /\
  (forall re h (t : Transaction V R),
      callbacks.onSpecificErrors (callbacks (onSpecificError (Regex re) h t)) =
        callbacks.onSpecificErrors (callbacks t) ++ [{| callback := h; pattern := re |}]).
Proof.
  intros Hh Hx raw hs. split; [|split; reflexivity].
  destruct (handleStepError_dispatch error m hs) as (m' & Hr & _ & Hl); [|done|].
  { by apply findErrorCallback_matching. }
  exists m'. split; [done|].
  rewrite (new_events_app _ _ _ Hl). by apply handlers_called_errors.
Qed.

(** ** The step counter *)

Lemma afterStep_currentStep next promise m c m' (P : step_index -> Prop) :
  (forall m1 c1 m1', currentStep (self m1) = currentStep (self m) ->
                     next m1 = Some (c1, m1') -> P (currentStep (self m1'))) ->
  P (currentStep (self m)) ->
  afterStep next promise m = Some (c, m') ->
  P (currentStep (self m')).
Proof.
  intros Hnext HP.
  destruct promise as [t|[v|[v|t|]]]; simpl.
  - destruct (materialize t (errors m)) as [e st]. by intros [= <- <-].
  - destruct (has_then v); [by intros [= <- <-]|].
    intros [= Hr]. pose proof (handleStepError_frame (length (errors m))
      (set_errors (errors m ++ [mkError ("it didn't return a Promise. Instead, it returned " +:+ JSON_stringify v) None]) m))
      as (_ & _ & Hc & _).
    simpl in Hc. rewrite Hr in Hc. simpl in Hc. by rewrite Hc.
  - unfold handleStepSuccess.
    destruct (next _) as [[c1 m1']|] eqn:Hn; [|done].
    apply Hnext in Hn; [|done].
    destruct c1; intros [= <- <-]; [done|].
    by destruct (handleStepError_frame e m1') as (_ & _ & -> & _).
  - destruct (materialize t (errors m)) as [e st]. intros [= <- <-].
    by destruct (handleStepError_frame e (set_errors st m)) as (_ & _ & -> & _).
  - by intros [= <- <-].
Qed.

Lemma at_least_advance x : at_least x 0 = true -> at_least (advance x) 0 = true.
Proof. destruct x; simpl; try done. intros Hz. apply Z.leb_le. apply Z.leb_le in Hz. lia. Qed.

Lemma runNextStep_within_started fuel m c m' :
  at_least (advance (currentStep (self m))) 0 = true ->
  runNextStep_within fuel m = Some (c, m') ->
  at_least (currentStep (self m')) 0 = true.
Proof.
  revert m c m'. induction fuel as [|fuel IH]; intros m c m' Hadv; [done|].
  simpl. destruct (step_at _ _) as [f|] eqn:Hs.
  - apply (afterStep_currentStep _ _ _ _ _ (fun x => at_least x 0 = true)); [|done].
    intros m1 c1 m1' Hcs. apply IH. rewrite Hcs. simpl. by apply at_least_advance.
  - intros [= Hr]. destruct (afterTransactionIsComplete_frame
      (set_self (set_currentStep (advance (currentStep (self m))) (self m)) m)) as [Hself _].
    rewrite Hr in Hself. simpl in Hself. by rewrite Hself.
Qed.

Lemma runNextStep_started m :
  at_least (advance (currentStep (self m))) 0 = true ->
  at_least (currentStep (self (runNextStep m).2)) 0 = true.
Proof.
  intros Hadv.
  destruct (runNextStep_within_total (S (length (steps (self m)))) m) as [[c m'] Hr].
  { pose proof (remaining_le (self m)). lia. }
  rewrite (runNextStep_within_eq _ _ _ Hr). simpl.
  by eapply runNextStep_within_started.
Qed.

Lemma perform_started op m :
  at_least (currentStep (self m)) 0 = true ->
  at_least (currentStep (self (perform op m).2)) 0 = true.
Proof.
  intros Hs. destruct op; simpl; try done.
  - unfold execute. destruct (callbacks.onError _); [|done]. by rewrite Hs.
  - unfold resume. destruct (_ && _); [done|].
    match goal with |- context [runNextStep ?m1] =>
      pose proof (runNextStep_started m1) as Hr; destruct (runNextStep m1) as [c m'] end.
    simpl in *. apply Hr.
    destruct (callbacks.onResume _); simpl;
      destruct (currentStep (self m)) as [| |z]; simpl in *; try done;
      apply Z.leb_le; apply Z.leb_le in Hs; lia.
Qed.

Lemma perform_all_started ops m :
  at_least (currentStep (self m)) 0 = true ->
  at_least (currentStep (self (perform_all ops m))) 0 = true.
Proof.
  revert m. induction ops as [|op ops IH]; intros m Hs; [done|].
  simpl. apply IH. by apply perform_started.
Qed.

Lemma execute_started ctx m :
  is_Some (callbacks.onError (callbacks (self m))) ->
  at_least (currentStep (self m)) 0 = true ->
  execute ctx m =
    (Raised (UsageError "Transaction is already in progress. To resume the transaction, use the `resume` method instead of `execute`"), m).
Proof. intros [h Hh] Hs. unfold execute. by rewrite Hh, Hs. Qed.

(** C9. After the first [execute] the step counter is an integer that
    is at least 0, and it stays so whatever is called on the transaction
    afterwards, in particular when the last step has completed and
    [onSuccess] has been called; so any later [execute], as long as an
    [onError] handler is still registered, throws the usage error
    [Transaction is already in progress...] and changes nothing. *)
Theorem transaction_is_single_use m ctx ops :
  currentStep (self m) = Unset ->
  is_Some (callbacks.onError (callbacks (self m))) ->
  let m1 := (execute ctx m).2 in
  let m2 := perform_all ops m1 in
  at_least (currentStep (self m1)) 0 = true /\
  at_least (currentStep (self m2)) 0 = true /\
  (is_Some (callbacks.onError (callbacks (self m2))) ->
   forall ctx',
     execute ctx' m2 =
       (Raised (UsageError "Transaction is already in progress. To resume the transaction, use the `resume` method instead of `execute`"), m2)).
Proof.
  intros Hcs [h Hh] m1 m2.
  assert (at_least (currentStep (self m1)) 0 = true) as H1'.
  { unfold m1, execute. rewrite Hh, Hcs. simpl.
    match goal with |- context [runNextStep ?m0] =>
      pose proof (runNextStep_started m0) as Hr; destruct (runNextStep m0) as [c m'] end.
    simpl in *. apply Hr. by rewrite Hcs. }
  assert (at_least (currentStep (self m2)) 0 = true) as H2'
    by by apply perform_all_started.
  repeat split; try done. intros Herr ctx'. by apply execute_started.
Qed.

(** ** A transaction that was never executed *)

Lemma runNextStep_NaN m :
  currentStep (self m) = NaN ->
  runNextStep m = afterTransactionIsComplete m.
Proof.
  intros Hc. unfold runNextStep. simpl. rewrite Hc. simpl.
  destruct m as [[] ? ?]. simpl in *. by subst.
Qed.

Lemma resume_idle suppressWarning m :
  idle (self m) ->
  let r := resume suppressWarning m in
  (forall msg, r.1 <> Raised (UsageError msg)) /\
  idle (self r.2) /\ currentStep (self r.2) = NaN /\
  callbacks (self r.2) = callbacks (self m) /\
  log r.2 = log m ++ resume_events (self m) ++ success_events (self m).
Proof.
  intros [Hcs Hflag]. unfold resume. rewrite Hflag. simpl.
  rewrite runNextStep_NaN.
  2:{ destruct (callbacks.onResume _); simpl; by destruct Hcs as [-> | ->]. }
  unfold afterTransactionIsComplete, resume_events, success_events, idle.
  destruct (callbacks.onResume (callbacks (self m))) as [h|]; simpl;
    destruct (callbacks.onSuccess (callbacks (self m))) as [cb|]; simpl;
    try destruct (callback_raises cb) as [t|]; simpl;
    try destruct (materialize t _) as [e st]; simpl;
    rewrite ?app_nil_r, <- ?app_assoc; simpl;
    repeat split; try done;
    destruct Hcs as [-> | ->]; simpl; auto.
Qed.

Lemma perform_idle op m :
  is_execute op = false -> idle (self m) ->
  idle (self (perform op m).2) /\
  steps_called (log (perform op m).2) = steps_called (log m).
Proof.
  intros Hop Hidle. destruct op; simpl; try done.
  destruct (resume_idle suppressWarning m Hidle) as (_ & Hi & _ & _ & Hl).
  split; [done|]. rewrite Hl, !steps_called_app.
  unfold resume_events, success_events.
  destruct (callbacks.onResume _), (callbacks.onSuccess _); simpl; by rewrite ?app_nil_r.
Qed.

Lemma perform_all_idle ops m :
  forallb (fun op => negb (is_execute op)) ops = true -> idle (self m) ->
  idle (self (perform_all ops m)) /\
  steps_called (log (perform_all ops m)) = steps_called (log m).
Proof.
  revert m. induction ops as [|op ops IH]; intros m Hops Hidle; [done|].
  simpl in Hops. apply andb_true_iff in Hops as [Hop Hops].
  apply negb_true_iff in Hop.
  destruct (perform_idle op m Hop Hidle) as [Hi Hl].
  simpl. destruct (IH _ Hops Hi) as [Hi' Hl']. split; [done|]. by rewrite Hl'.
Qed.

Lemma new_Transaction_idle arg (t : Transaction V R) :
  new_Transaction arg = inr t -> currentStep t = Unset /\ idle t.
Proof.
  unfold new_Transaction. destruct arg as [l|v]; [|done].
  destruct (_ <=? _)%nat; [done|]. destruct (check_steps 0 l); [done|].
  intros [= <-]. unfold idle. simpl. auto.
Qed.

(** C10. On a transaction that was constructed and on which [execute]
    has not been called, [resume] throws no usage error: decrementing
    the missing counter gives [NaN], which [getNextStep] keeps and for
    which it finds no step; the call adds to the log the [onResume]
    callback, if one is registered, and the [onSuccess] callback, if one
    is registered, and no step is ever run. *)
Theorem resume_before_execute arg t suppressWarning ops st lg :
  new_Transaction arg = inr t ->
  forallb (fun op => negb (is_execute op)) ops = true ->
  let m := perform_all ops (Machine t st lg) in
  let r := resume suppressWarning m in
  decrement (currentStep t) = NaN /\
  (forall msg, r.1 <> Raised (UsageError msg)) /\
  currentStep (self r.2) = NaN /\
  (getNextStep (self r.2)).1 = None /\
  new_events m r.2 = resume_events (self m) ++ success_events (self m) /\
  steps_called (log r.2) = steps_called lg.
Proof.
  intros Hnew Hops m r.
  destruct (new_Transaction_idle _ _ Hnew) as [Hunset Hidle].
  destruct (perform_all_idle ops (Machine t st lg) Hops Hidle) as [Hi Hl].
  destruct (resume_idle suppressWarning m Hi) as (Hu & _ & Hnan & _ & Hlog).
  fold r in Hu, Hnan, Hlog.
  repeat split; try done.
  - by rewrite Hunset.
  - unfold getNextStep. simpl. by rewrite Hnan.
  - by apply new_events_app.
  - rewrite Hlog, !steps_called_app. fold m in Hl. rewrite Hl. simpl.
    unfold resume_events, success_events.
    destruct (callbacks.onResume _), (callbacks.onSuccess _); simpl; by rewrite ?app_nil_r.
Qed.

(** ** Runs, step by step *)

Lemma handleStepError_self error m :
  is_Some (callbacks.onError (callbacks (self m))) ->
  self (handleStepError error m).2 = set_resumedBeforeNextTick false (self m).
Proof.
  intros [h Hh]. unfold handleStepError.
  rewrite (findErrorCallback_matching _ _ _ Hh). simpl.
  match goal with |- context [call_handlers ?hs error ?m1] =>
    destruct (call_handlers_spec hs error m1) as (Hs & _ & _) end.
  simpl in *. rewrite Hs. by destruct (self m).
Qed.

Lemma finish_steps_called (r : completion * machine V R) :
  steps_called (log (finish r)) = steps_called (log r.2).
Proof.
  unfold finish. destruct r as [[|e] m']; simpl; [done|].
  by destruct (handleStepError_frame e m') as (_ & _ & _ & _ & -> & _).
Qed.

(** Rewrites the steps called once [handleStepError] has run into the
    steps called before it. *)
Ltac no_step_after_error :=
  match goal with
  | |- context [handleStepError ?e ?m1] =>
      destruct (handleStepError_frame e m1) as (_ & _ & _ & _ & -> & _)
  end.

Lemma runNextStep_resolves m f v :
  step_at (steps (self m)) (advance (currentStep (self m))) = Some f ->
  let t := set_currentStep (advance (currentStep (self m))) (self m) in
  f (attempts (position t) (log m)) (context (self m)) = Returns (Promise (Resolves v)) ->
  runNextStep m =
    (Normal,
     finish (runNextStep
               (Machine (set_context (Some (merge_context (context (self m)) v)) t)
                  (errors m) (log m ++ [StepCalled (position t) (context (self m))])))).
Proof.
  intros Hs t Hf. pose proof (runNextStep_unfold m) as Hu.
  simpl in Hu. rewrite Hs in Hu. fold t in Hu. rewrite Hf in Hu. simpl in Hu.
  unfold handleStepSuccess in Hu. unfold finish.
  set (m1 := Machine _ _ _).
  change (Some (runNextStep m) =
          (let (c, m) := runNextStep m1 in
           match c with
           | Normal => Some (Normal, m)
           | Threw error => Some (Normal, (handleStepError error m).2)
           end)) in Hu.
  destruct (runNextStep m1) as [[|e] m']; simpl in *; congruence.
Qed.

Lemma runNextStep_fails m f :
  step_at (steps (self m)) (advance (currentStep (self m))) = Some f ->
  let t := set_currentStep (advance (currentStep (self m))) (self m) in
  fails (f (attempts (position t) (log m)) (context (self m))) = true ->
  is_Some (callbacks.onError (callbacks (self m))) ->
  self (finish (runNextStep m)) = set_resumedBeforeNextTick false t /\
  steps_called (log (finish (runNextStep m))) =
    steps_called (log m) ++ [(position t, context (self m))].
Proof.
  intros Hs t Hf Herr. pose proof (runNextStep_unfold m) as Hu.
  simpl in Hu. rewrite Hs in Hu. fold t in Hu.
  destruct (f _ _) as [x|[v|[v|x|]]]; try done; simpl in Hu.
  - destruct (materialize x (errors m)) as [e st]. injection Hu as ->.
    unfold finish. simpl. rewrite handleStepError_self by done. split; [done|].
    no_step_after_error.
    simpl. by rewrite steps_called_app.
  - destruct (has_then v).
    { injection Hu as ->.
      unfold finish. simpl. rewrite handleStepError_self by done. split; [done|].
      no_step_after_error.
      simpl. by rewrite steps_called_app. }
    injection Hu as ->.
    match goal with |- context [handleStepError ?e ?m1] =>
      pose proof (handleStepError_self e m1 Herr) as Hself;
      destruct (handleStepError_frame e m1) as (_ & _ & _ & _ & Hl & Hn);
      destruct (Hn Herr) as [Hnormal _];
      destruct (handleStepError e m1) as [c m'] end.
    simpl in *. subst c. unfold finish. simpl. rewrite Hself, Hl.
    split; [done|]. by rewrite steps_called_app.
  - destruct (materialize x (errors m)) as [e st]. injection Hu as ->.
    unfold finish. simpl. rewrite handleStepError_self by done. split; [done|].
    no_step_after_error.
    simpl. by rewrite steps_called_app.
Qed.

(** Once the last step has been started, no other step is. *)
Lemma runNextStep_last m f z :
  advance (currentStep (self m)) = Index z ->
  step_at (steps (self m)) (Index z) = Some f ->
  S (Z.to_nat z) = length (steps (self m)) ->
  steps_called (log (runNextStep m).2) =
    steps_called (log m) ++ [(Z.to_nat z, context (self m))].
Proof.
  intros Hadv Hs Hlast. pose proof (runNextStep_unfold m) as Hu.
  simpl in Hu. rewrite Hadv, Hs in Hu. unfold position in Hu. simpl in Hu.
  apply step_at_Some in Hs as (? & [= <-] & Hz0 & _).
  destruct (f _ _) as [x|[v|[v|x|]]]; simpl in Hu.
  - destruct (materialize x (errors m)) as [e st]. injection Hu as ->.
    simpl. by rewrite steps_called_app.
  - destruct (has_then v); injection Hu as ->; [simpl; by rewrite steps_called_app|].
    no_step_after_error.
    simpl. by rewrite steps_called_app.
  - unfold handleStepSuccess in Hu.
    match type of Hu with context [runNextStep ?m1] =>
      assert (steps_called (log (finish (runNextStep m1))) =
              steps_called (log m) ++ [(Z.to_nat z, context (self m))]) as Hfin;
      [|unfold finish in Hfin; destruct (runNextStep m1) as [[|e] m']; simpl in *;
        injection Hu as ->; done] end.
    rewrite finish_steps_called.
    match goal with |- context [runNextStep ?m1] =>
      pose proof (runNextStep_unfold m1) as Hu1 end.
    simpl in Hu1.
    replace (0 <=? z + 1)%Z with true in Hu1 by (symmetry; apply Z.leb_le; lia).
    rewrite lookup_ge_None_2 in Hu1 by lia.
    injection Hu1 as ->.
    match goal with |- context [afterTransactionIsComplete ?m1] =>
      destruct (afterTransactionIsComplete_frame m1) as [_ ->] end.
    simpl. by rewrite steps_called_app.
  - destruct (materialize x (errors m)) as [e st]. injection Hu as ->. simpl.
    no_step_after_error.
    simpl. by rewrite steps_called_app.
  - injection Hu as ->. simpl. by rewrite steps_called_app.
Qed.

(** ** The log only grows *)

Lemma log_grows_refl m : extends m m.
Proof. exists []. by rewrite app_nil_r. Qed.

Lemma log_grows_trans m1 m2 m3 : extends m1 m2 -> extends m2 m3 -> extends m1 m3.
Proof. intros [e1 H1'] [e2 H2']. exists (e1 ++ e2). by rewrite H2', H1', <- app_assoc. Qed.

Lemma handleStepError_extends error m : extends m (handleStepError error m).2.
Proof.
  unfold handleStepError. destruct (findErrorCallback _ _) as [hs|]; simpl.
  - match goal with |- context [call_handlers hs error ?m1] =>
      destruct (call_handlers_spec hs error m1) as (_ & _ & Hl) end.
    eexists. simpl. exact Hl.
  - by (exists []; simpl; rewrite app_nil_r).
Qed.

Lemma afterTransactionIsComplete_extends m : extends m (afterTransactionIsComplete m).2.
Proof.
  unfold afterTransactionIsComplete. destruct (callbacks.onSuccess _) as [cb|]; simpl.
  - destruct (callback_raises cb) as [t|]; [destruct (materialize t _)|]; by eexists.
  - by (exists []; simpl; rewrite app_nil_r).
Qed.

Lemma afterStep_extends next promise m c m' :
  (forall m1 c1 m1', next m1 = Some (c1, m1') -> extends m1 m1') ->
  afterStep next promise m = Some (c, m') -> extends m m'.
Proof.
  intros Hnext. destruct promise as [t|[v|[v|t|]]]; simpl.
  - destruct (materialize t (errors m)) as [e st]. intros [= <- <-]. by (exists []; simpl; rewrite app_nil_r).
  - destruct (has_then v);
      [intros [= <- <-]; by (exists []; simpl; rewrite app_nil_r)|].
    intros [= Hr].
    match type of Hr with handleStepError ?e ?m1 = _ =>
      pose proof (handleStepError_extends e m1) as Hx end.
    by rewrite Hr in Hx.
  - unfold handleStepSuccess. destruct (next _) as [[c1 m1']|] eqn:Hn; [|done].
    apply Hnext in Hn. destruct c1; intros [= <- <-]; [done|].
    eapply log_grows_trans; [exact Hn|apply handleStepError_extends].
  - destruct (materialize t (errors m)) as [e st]. intros [= <- <-].
    apply (handleStepError_extends e (set_errors st m)).
  - intros [= <- <-]. by (exists []; simpl; rewrite app_nil_r).
Qed.

Lemma runNextStep_within_extends fuel m c m' :
  runNextStep_within fuel m = Some (c, m') -> extends m m'.
Proof.
  revert m c m'. induction fuel as [|fuel IH]; intros m c m'; [done|].
  simpl. destruct (step_at _ _) as [f|].
  - intros Hr. apply afterStep_extends in Hr; [|exact IH].
    destruct Hr as [evs Hl]. simpl in Hl. exists (StepCalled
      (position (set_currentStep (advance (currentStep (self m))) (self m)))
      (context (self m)) :: evs).
    by rewrite Hl, <- app_assoc.
  - intros [= Hr].
    match type of Hr with afterTransactionIsComplete ?m1 = _ =>
      pose proof (afterTransactionIsComplete_extends m1) as Hx end.
    by rewrite Hr in Hx.
Qed.

Lemma runNextStep_extends m : extends m (runNextStep m).2.
Proof.
  destruct (runNextStep_within_total (S (length (steps (self m)))) m) as [[c m'] Hr].
  { pose proof (remaining_le (self m)). lia. }
  rewrite (runNextStep_within_eq _ _ _ Hr). by eapply runNextStep_within_extends.
Qed.

Lemma resume_extends suppressWarning m : extends m (resume suppressWarning m).2.
Proof.
  unfold resume. destruct (_ && _); [by eexists|].
  match goal with |- context [runNextStep ?m1] =>
    pose proof (runNextStep_extends m1) as Hx; destruct (runNextStep m1) as [c m'] end.
  simpl in *. eapply log_grows_trans; [|exact Hx].
  destruct (callbacks.onResume _); [by eexists|by (exists []; simpl; rewrite app_nil_r)].
Qed.

Lemma finish_Normal m : finish (Normal, m) = m.
Proof. done. Qed.

Lemma attempts_of_calls i (l : list (event V)) calls :
  steps_called l = calls ->
  attempts i l = length (List.filter (fun p => Nat.eqb i p.1) calls).
Proof. intros <-. apply attempts_steps_called. Qed.

(** What [handleStepSuccess] leaves under a key: what the resolved
    value holds there when it is an object with that key, and what the
    context held before otherwise. *)
Lemma merge_context_lookup (c : gmap string V) (r : V) key :
  merge_context (Some c) r !! key =
    match (if is_object r then own_properties r !! key else None) with
    | Some v => Some v
    | None => c !! key
    end.
Proof.
  unfold merge_context. simpl. rewrite lookup_union.
  destruct (is_object r); [|by rewrite lookup_empty, (left_id_L None _)].
  by destruct (own_properties r !! key), (c !! key).
Qed.

(** C4. For a transaction of five steps in which steps 1 and 2 succeed
    and step 3 fails, [execute] invokes steps 1, 2 and 3 and no other;
    a following [resume] invokes step 3 again, with the context it saw
    the first time, and then, step 3 and step 4 succeeding, steps 4 and
    5. The context that step 4 receives is the initial context merged,
    in this order, with what steps 1, 2 and 3 resolved with, each once:
    under every key it holds what the last of the three that resolved
    with an object holding that key gave it, or else what the initial
    context held, and the failed attempt has added nothing. *)
Theorem resume_reruns_the_failed_step
    (s1 s2 s3 s4 s5 : step V) (t0 : Transaction V R) (cbs : callbacks.t R)
    (ctx : option (gmap string V)) (r1 r2 r3 r4 : V)
    (suppressWarning : option string) (st : store) :
  new_Transaction (Array (Function <$> [s1; s2; s3; s4; s5])) = inr t0 ->
  is_Some (callbacks.onError cbs) ->
  let c0 := default ∅ ctx in
  let c1 := merge_context (Some c0) r1 in
  let c2 := merge_context (Some c1) r2 in
  let c3 := merge_context (Some c2) r3 in
  let c4 := merge_context (Some c3) r4 in
  s1 0 (Some c0) = Returns (Promise (Resolves r1)) ->
  s2 0 (Some c1) = Returns (Promise (Resolves r2)) ->
  fails (s3 0 (Some c2)) = true ->
  s3 1 (Some c2) = Returns (Promise (Resolves r3)) ->
  s4 0 (Some c3) = Returns (Promise (Resolves r4)) ->
  let m0 := Machine (set_callbacks cbs t0) st [] in
  let m1 := (execute ctx m0).2 in
  let m2 := (resume suppressWarning m1).2 in
  let given (r : V) key := if is_object r then own_properties r !! key else None in
  (execute ctx m0).1 = Returned /\
  steps_called (log m1) = [(0, Some c0); (1, Some c1); (2, Some c2)] /\
  (resume suppressWarning m1).1 = Returned /\
  steps_called (new_events m1 m2) = [(2, Some c2); (3, Some c3); (4, Some c4)] /\
  c3 = fold_left (fun c r => merge_context (Some c) r) [r1; r2; r3] c0 /\
  (forall key,
      c3 !! key =
        match given r3 key, given r2 key, given r1 key with
        | Some v, _, _ => Some v
        | None, Some v, _ => Some v
        | None, None, Some v => Some v
        | None, None, None => default ∅ ctx !! key
        end).
Proof.
  intros Hnew Herr c0 c1 c2 c3 c4 H1' H2' H3' H3'' H4' m0 m1 m2 given.
  assert (forall key,
            c3 !! key =
              match given r3 key, given r2 key, given r1 key with
              | Some v, _, _ => Some v
              | None, Some v, _ => Some v
              | None, None, Some v => Some v
              | None, None, None => default ∅ ctx !! key
              end) as Hkeys.
  { intros key. unfold c3, c2, c1, given. rewrite !merge_context_lookup.
    by repeat case_match. }
  injection Hnew as <-.
  (* execute: steps 1 and 2 resolve, step 3 fails *)
  assert ((execute ctx m0).1 = Returned /\
          self m1 = {| steps := [s1; s2; s3; s4; s5]; callbacks := cbs;
                       currentStep := Index 2; context := Some c2;
                       resumedBeforeNextTick := false |} /\
          steps_called (log m1) = [(0, Some c0); (1, Some c1); (2, Some c2)])
    as (Ho1 & Hself1 & Hcalls1).
  { unfold m1, execute, m0. destruct Herr as [h Hh]. simpl. rewrite Hh. simpl.
    erewrite runNextStep_resolves; [|reflexivity|exact H1'].
    simpl. split; [done|].
    erewrite runNextStep_resolves; [|reflexivity|exact H2'].
    rewrite !finish_Normal.
    match goal with |- context [finish (runNextStep ?m)] =>
      destruct (runNextStep_fails m s3 eq_refl) as [Hs Hl] end;
      [exact H3'|by (simpl; rewrite Hh)|].
    by rewrite Hs, Hl. }
  (* resume: step 3 again, then steps 4 and 5 *)
  assert ((resume suppressWarning m1).1 = Returned /\
          steps_called (log m2) =
            steps_called (log m1) ++ [(2, Some c2); (3, Some c3); (4, Some c4)])
    as (Ho2 & Hcalls2).
  { unfold m2, resume. rewrite Hself1. simpl.
    set (m1' := match callbacks.onResume cbs with
                | Some h => emit (ResumeCalled h) m1
                | None => m1
                end).
    assert (self m1' = self m1 /\ steps_called (log m1') = steps_called (log m1))
      as [Hself1' Hcalls1'].
    { unfold m1'. destruct (callbacks.onResume cbs); [|done].
      simpl. rewrite steps_called_app. simpl. by rewrite app_nil_r. }
    rewrite Hself1'. rewrite Hself1. simpl.
    erewrite runNextStep_resolves; [|reflexivity|].
    2:{ simpl. rewrite (attempts_of_calls _ _ _ (eq_trans Hcalls1' Hcalls1)). exact H3''. }
    simpl. split; [done|].
    erewrite runNextStep_resolves; [|reflexivity|].
    2:{ simpl. erewrite attempts_of_calls.
        2:{ rewrite steps_called_app, Hcalls1', Hcalls1. reflexivity. }
        exact H4'. }
    rewrite !finish_Normal, finish_steps_called.
    erewrite runNextStep_last; [|reflexivity|reflexivity|reflexivity].
    simpl. rewrite !steps_called_app, Hcalls1'. simpl.
    by rewrite <- !app_assoc. }
  repeat split; try done.
  destruct (resume_extends suppressWarning m1) as [evs Hevs]. fold m2 in Hevs.
  rewrite (new_events_app _ _ _ Hevs).
  rewrite Hevs, steps_called_app in Hcalls2. by apply app_inv_head in Hcalls2.
Qed.
End TransactionRuns.

Section TransactionFlows.
Import Tx.
Context {V R : Type} `{JsValue V} `{JsObject V} `{RegExpEngine R}.
Implicit Types (m : machine V R) (t : Transaction V R) (c : gmap string V).

Lemma attempts_events_app i (l1 l2 : list (event V)) :
  attempts i (l1 ++ l2) = attempts i l1 + attempts i l2.
Proof. unfold attempts. by rewrite List.filter_app, length_app. Qed.

Lemma attempts_other_step i j ctx (l : list (event V)) :
  i <> j -> attempts i (l ++ [StepCalled j ctx]) = attempts i l.
Proof.
  intros Hne. rewrite attempts_events_app. unfold attempts at 2. simpl.
  destruct (Nat.eqb_spec i j); [done|]. simpl. lia.
Qed.

Lemma attempts_not_a_step i ev (l : list (event V)) :
  is_step i ev = false -> attempts i (l ++ [ev]) = attempts i l.
Proof.
  intros Hev. rewrite attempts_events_app. unfold attempts at 2. simpl. rewrite Hev. simpl. lia.
Qed.

Lemma resolve_in_turn_ext fs (lg lg' : list (event V)) rs : forall k c,
  (forall j, k <= j -> attempts j lg = attempts j lg') ->
  resolve_in_turn fs lg k c rs -> resolve_in_turn fs lg' k c rs.
Proof.
  induction rs as [|r rs IH]; intros k c Hatt; [done|].
  simpl. intros [(f & Hf & Hr) Hrest]. split.
  - exists f. rewrite <- Hatt by lia. done.
  - apply IH; [|done]. intros j Hj. apply Hatt. lia.
Qed.

Lemma finish_finish (r : completion * machine V R) : finish (Normal, finish r) = finish r.
Proof. done. Qed.

(** The steps that resolve, one after the other: [runNextStep] comes to
    stand in front of the step behind them, with the contexts merged
    and one invocation logged for each. *)
Lemma runNextStep_resolving rs : forall k c m,
  advance (currentStep (self m)) = Index (Z.of_nat k) ->
  context (self m) = Some c ->
  resolve_in_turn (steps (self m)) (log m) k c rs ->
  exists m',
    match rs with
    | [] => m' = m
    | _ => runNextStep m = (Normal, finish (runNextStep m'))
    end /\
    steps (self m') = steps (self m) /\
    callbacks (self m') = callbacks (self m) /\
    resumedBeforeNextTick (self m') = resumedBeforeNextTick (self m) /\
    advance (currentStep (self m')) = Index (Z.of_nat (k + length rs)) /\
    context (self m') = Some (merged c rs) /\
    errors m' = errors m /\
    log m' = log m ++ step_events k c rs /\
    (forall j, k + length rs <= j -> attempts j (log m') = attempts j (log m)).
Proof.
  induction rs as [|r rs IH]; intros k c m Hadv Hctx Hrs.
  - exists m. rewrite Nat.add_0_r, app_nil_r. done.
  - destruct Hrs as [(f & Hf & Hr) Hrest].
    pose proof (runNextStep_resolves m f r) as Hstep. simpl in Hstep.
    rewrite Hadv in Hstep. simpl in Hstep.
    replace (0 <=? Z.of_nat k)%Z with true in Hstep by (symmetry; apply Z.leb_le; lia).
    unfold position in Hstep. simpl in Hstep. rewrite Nat2Z.id, Hctx in Hstep.
    specialize (Hstep Hf Hr).
    match type of Hstep with context [finish (runNextStep ?m1)] =>
      destruct (IH (S k) (merge_context (Some c) r) m1) as
        (m' & Hrun & Hsteps & Hcbs & Hflag & Hadv' & Hctx' & Herrs & Hlog & Hatt) end.
    + simpl. f_equal. lia.
    + done.
    + simpl. eapply resolve_in_turn_ext; [|exact Hrest].
      intros j Hj. by rewrite attempts_other_step by lia.
    + exists m'. simpl in *.
      split.
      { rewrite Hstep. destruct rs; [by subst m'|]. by rewrite Hrun. }
      repeat split; try done.
      * rewrite Hadv'. f_equal. lia.
      * by rewrite Hlog, <- app_assoc.
      * intros j Hj. rewrite Hatt by lia. by rewrite attempts_other_step by lia.
Qed.

Lemma step_at_nat (l : list (step V)) k : step_at l (Index (Z.of_nat k)) = l !! k.
Proof.
  simpl. replace (0 <=? Z.of_nat k)%Z with true by (symmetry; apply Z.leb_le; lia).
  by rewrite Nat2Z.id.
Qed.

(** [runNextStep] in front of the step at position [k]. *)
Lemma runNextStep_at m k (f : step V) :
  advance (currentStep (self m)) = Index (Z.of_nat k) ->
  steps (self m) !! k = Some f ->
  Some (runNextStep m) =
    afterStep (fun m => Some (runNextStep m))
      (f (attempts k (log m)) (context (self m)))
      (emit (StepCalled k (context (self m)))
         (set_self (set_currentStep (Index (Z.of_nat k)) (self m)) m)).
Proof.
  intros Hadv Hf. rewrite runNextStep_unfold. unfold getNextStep, position.
  simpl. rewrite Hadv, step_at_nat, Hf. by rewrite Nat2Z.id.
Qed.

(** [runNextStep] behind the last step. *)
Lemma runNextStep_behind m k :
  advance (currentStep (self m)) = Index (Z.of_nat k) ->
  length (steps (self m)) <= k ->
  runNextStep m =
    afterTransactionIsComplete (set_self (set_currentStep (Index (Z.of_nat k)) (self m)) m).
Proof.
  intros Hadv Hk. pose proof (runNextStep_unfold m) as Hu. unfold getNextStep in Hu.
  simpl in Hu. rewrite Hadv, step_at_nat, lookup_ge_None_2 in Hu by done. by injection Hu.
Qed.

Lemma currentStepText_step t k :
  currentStep t = Index (Z.of_nat k) -> k < length (steps t) ->
  currentStepText t = ordinal (Z.of_nat k + 1) +:+ " step".
Proof.
  intros Hcs Hk. unfold currentStepText. rewrite Hcs. simpl.
  by replace (Z.of_nat (length (steps t)) <=? Z.of_nat k)%Z with false
    by (symmetry; apply Z.leb_gt; lia).
Qed.

Lemma currentStepText_behind t k :
  currentStep t = Index (Z.of_nat k) -> length (steps t) <= k ->
  currentStepText t = "onSuccess callback".
Proof.
  intros Hcs Hk. unfold currentStepText. rewrite Hcs. simpl.
  by replace (Z.of_nat (length (steps t)) <=? Z.of_nat k)%Z with true
    by (symmetry; apply Z.leb_le; lia).
Qed.

(** [handleStepError] on an error object that has just been made. *)
Lemma handleStepError_fresh m (st : list Error) text onErr :
  errors m = st ++ [mkError text None] ->
  callbacks.onError (callbacks (self m)) = Some onErr ->
  let msg := "Error in " +:+ currentStepText (self m) +:+ ": " +:+ text in
  handleStepError (length st) m =
    (Normal,
     Machine (set_resumedBeforeNextTick false (self m))
       (st ++ [mkError msg None])
       (log m ++ error_events (selected onErr (matching text (self m))) (length st) msg)).
Proof.
  intros Herrs Hh msg. unfold handleStepError.
  assert (message_of (errors m) (length st) = text) as Hmsg.
  { unfold message_of. by rewrite Herrs, lookup_last. }
  rewrite Hmsg, (findErrorCallback_matching _ _ _ Hh), Herrs, update_last.
  match goal with |- context [call_handlers ?hs ?e ?m1] =>
    destruct (call_handlers_spec hs e m1) as (Hs & He & Hl);
    destruct (call_handlers hs e m1) as [t' st' lg'] end.
  simpl in *. subst t' st' lg'. unfold message_of. rewrite lookup_last. simpl.
  by destruct (self m).
Qed.

(** A step that returns something other than a promise, or a promise
    that is rejected. *)
Lemma runNextStep_step_fails m k (f : step V) x text onErr :
  advance (currentStep (self m)) = Index (Z.of_nat k) ->
  steps (self m) !! k = Some f ->
  f (attempts k (log m)) (context (self m)) = Returns x ->
  step_failure_text x = Some text ->
  callbacks.onError (callbacks (self m)) = Some onErr ->
  let msg := "Error in " +:+ ordinal (Z.of_nat k + 1) +:+ " step: " +:+ text in
  runNextStep m =
    (Normal,
     Machine (set_resumedBeforeNextTick false (set_currentStep (Index (Z.of_nat k)) (self m)))
       (errors m ++ [mkError msg None])
       (log m ++ StepCalled k (context (self m)) ::
          error_events (selected onErr (matching text (self m))) (length (errors m)) msg)).
Proof.
  intros Hadv Hf Hx Htext Hh msg.
  pose proof (runNextStep_at m k f Hadv Hf) as Hu. rewrite Hx in Hu.
  assert (k < length (steps (self m))) as Hk by by eapply lookup_lt_Some.
  destruct x as [v|[v|t|]]; simpl in Htext; try done.
  - simpl in Hu. destruct (has_then v); [done|]. injection Htext as <-.
    match type of Hu with context [handleStepError _ ?m1] =>
      pose proof (handleStepError_fresh m1 (errors m) _ onErr eq_refl Hh) as Hhandle end.
    simpl in Hhandle. rewrite (currentStepText_step _ k), append_assoc in Hhandle by done.
    rewrite Hhandle in Hu. injection Hu as ->. simpl. by rewrite <- app_assoc.
  - destruct t as [msg'|r]; [|done]. injection Htext as <-. simpl in Hu.
    match type of Hu with context [handleStepError _ ?m1] =>
      pose proof (handleStepError_fresh m1 (errors m) _ onErr eq_refl Hh) as Hhandle end.
    simpl in Hhandle. rewrite (currentStepText_step _ k), append_assoc in Hhandle by done.
    rewrite Hhandle in Hu. injection Hu as ->. simpl. by rewrite <- app_assoc.
Qed.

(** What [runNextStep] comes to when the run it starts with resolving
    steps ends without an exception. *)
Lemma runNextStep_through (rs : list V) m m' final :
  match rs with
  | [] => m' = m
  | _ => runNextStep m = (Normal, finish (runNextStep m'))
  end ->
  runNextStep m' = (Normal, final) ->
  runNextStep m = (Normal, final).
Proof. intros Hrun Hend. destruct rs; [by subst m'|]. by rewrite Hrun, Hend. Qed.

Lemma new_events_of m m' evs : log m' = log m ++ evs -> new_events m m' = evs.
Proof. apply new_events_app. Qed.

(** [execute] on a transaction that has not been started. *)
Lemma execute_unfold ctx m onErr :
  currentStep (self m) = Unset ->
  callbacks.onError (callbacks (self m)) = Some onErr ->
  execute ctx m =
    (to_outcome (runNextStep (set_self (set_context (Some (default ∅ ctx)) (self m)) m)).1,
     (runNextStep (set_self (set_context (Some (default ∅ ctx)) (self m)) m)).2).
Proof.
  intros Hcs Hh. unfold execute. rewrite Hh, Hcs. simpl.
  by destruct (runNextStep _).
Qed.

(** When every step resolves, [execute] invokes the steps once each, in
    order, each with the context merged from what the steps before it
    resolved with, then the success callback, and nothing else: no
    error handler is called and no error object is made. The counter
    ends at the number of steps. *)
Theorem execute_runs_the_steps_in_order m ctx rs onErr :
  currentStep (self m) = Unset ->
  callbacks.onError (callbacks (self m)) = Some onErr ->
  resolve_in_turn (steps (self m)) (log m) 0 (default ∅ ctx) rs ->
  length rs = length (steps (self m)) ->
  succeeds_quietly (self m) ->
  let r := execute ctx m in
  r.1 = Returned /\
  new_events m r.2 = step_events 0 (default ∅ ctx) rs ++ success_events (self m) /\
  currentStep (self r.2) = Index (Z.of_nat (length (steps (self m)))) /\
  context (self r.2) = Some (merged (default ∅ ctx) rs) /\
  errors r.2 = errors m.
Proof.
  intros Hcs Hh Hrs Hlen Hquiet r. unfold r. rewrite (execute_unfold ctx m onErr Hcs Hh).
  set (m0 := set_self _ m).
  destruct (runNextStep_resolving rs 0 (default ∅ ctx) m0)
    as (m' & Hrun & Hsteps & Hcbs & Hflag & Hadv & Hctx & Herrs & Hlog & _).
  { simpl. by rewrite Hcs. }
  { done. }
  { done. }
  simpl in Hsteps, Hcbs, Hflag, Hadv, Hctx, Herrs, Hlog.
  pose proof (runNextStep_behind m' (length rs) Hadv) as Hend.
  rewrite Hsteps, Hlen in Hend. specialize (Hend (Nat.le_refl _)).
  unfold afterTransactionIsComplete in Hend. simpl in Hend. rewrite Hcbs in Hend.
  unfold success_events.
  destruct (callbacks.onSuccess (callbacks (self m))) as [cb|] eqn:Hcb.
  - rewrite (Hquiet cb Hcb) in Hend.
    rewrite (runNextStep_through rs m0 m' _ Hrun Hend). simpl.
    repeat split; try done.
    apply new_events_of. simpl. by rewrite Hlog, <- app_assoc.
  - rewrite (runNextStep_through rs m0 m' _ Hrun Hend). simpl.
    repeat split; try done.
    apply new_events_of. simpl. by rewrite Hlog, app_nil_r.
Qed.

(** What [runNextStep] comes to when the run it starts with resolving
    steps ends with an exception: the exception leaves [runNextStep]
    when no step came before, and is handled like a failure of the
    step otherwise. *)
Lemma runNextStep_through_exception (rs : list V) m m' e final :
  match rs with
  | [] => m' = m
  | _ => runNextStep m = (Normal, finish (runNextStep m'))
  end ->
  runNextStep m' = (Threw e, final) ->
  runNextStep m =
    match rs with
    | [] => (Threw e, final)
    | _ => (Normal, (handleStepError e final).2)
    end.
Proof. intros Hrun Hend. destruct rs; [by subst m'|]. by rewrite Hrun, Hend. Qed.

(** A step that throws instead of returning. When it is the first
    step, the error leaves [execute] as it is and no handler is called;
    when steps have resolved before it, it is thrown inside the
    callback of the promise of the step before, and is handled like a
    rejection: the error handlers are called with the message that
    names the step. *)
Theorem a_throwing_step_is_handled_unless_it_is_the_first
    m ctx rs (f : step V) thrown_message onErr :
  currentStep (self m) = Unset ->
  callbacks.onError (callbacks (self m)) = Some onErr ->
  resolve_in_turn (steps (self m)) (log m) 0 (default ∅ ctx) rs ->
  steps (self m) !! length rs = Some f ->
  f (attempts (length rs) (log m)) (Some (merged (default ∅ ctx) rs)) =
    Throws (NewError thrown_message) ->
  let r := execute ctx m in
  let msg := "Error in " +:+ ordinal (Z.of_nat (length rs) + 1) +:+ " step: "
             +:+ thrown_message in
  currentStep (self r.2) = Index (Z.of_nat (length rs)) /\
  (rs = [] ->
     r.1 = Raised (Propagated (length (errors m))) /\
     new_events m r.2 = [StepCalled 0 (Some (default ∅ ctx))] /\
     errors r.2 = errors m ++ [mkError thrown_message None]) /\
  (rs <> [] ->
     r.1 = Returned /\
     new_events m r.2 =
       step_events 0 (default ∅ ctx) rs ++
       StepCalled (length rs) (Some (merged (default ∅ ctx) rs)) ::
       error_events (selected onErr (matching thrown_message (self m)))
         (length (errors m)) msg /\
     errors r.2 = errors m ++ [mkError msg None]).
Proof.
  intros Hcs Hh Hrs Hf Hx r msg. unfold r.
  rewrite (execute_unfold ctx m onErr Hcs Hh).
  set (m0 := set_self _ m).
  destruct (runNextStep_resolving rs 0 (default ∅ ctx) m0)
    as (m' & Hrun & Hsteps & Hcbs & Hflag & Hadv & Hctx & Herrs & Hlog & Hatt).
  { simpl. by rewrite Hcs. }
  { done. }
  { done. }
  simpl in Hsteps, Hcbs, Hflag, Hadv, Hctx, Herrs, Hlog, Hatt.
  assert (length rs < length (steps (self m))) as Hk by by eapply lookup_lt_Some.
  pose proof (runNextStep_at m' (length rs) f Hadv) as Hend.
  rewrite Hsteps, Hctx, Hatt, Hx in Hend by done. specialize (Hend Hf).
  simpl in Hend. injection Hend as Hend.
  rewrite (runNextStep_through_exception rs m0 m' _ _ Hrun Hend).
  destruct rs as [|r0 rs]; simpl.
  - split; [done|]. split; [|intros Hne; by destruct Hne].
    intros _. rewrite Herrs. repeat split; try done.
    apply new_events_of. simpl. rewrite Hlog. simpl. by rewrite app_nil_r.
  - match goal with |- context [handleStepError _ ?m1] =>
      pose proof (handleStepError_fresh m1 (errors m) thrown_message onErr) as Hhandle end.
    simpl in Hhandle. rewrite Herrs, Hcbs in Hhandle. specialize (Hhandle eq_refl Hh).
    rewrite (currentStepText_step _ (S (length rs))), append_assoc in Hhandle
      by (simpl; rewrite ?Hsteps; done).
    rewrite Herrs, Hhandle. simpl.
    split; [done|]. split; [done|]. intros _. repeat split; try done.
    apply new_events_of. rewrite Hlog. simpl. rewrite <- !app_assoc. simpl.
    do 4 f_equal. unfold matching. simpl. by rewrite Hcbs.
Qed.

(** A step whose promise does not settle suspends the run: [execute]
    returns normally, the steps up to that one have been invoked, and
    nothing else happens, no callback is called and the counter stays
    at the step. *)
Theorem a_pending_step_suspends_the_run m ctx rs (f : step V) onErr :
  currentStep (self m) = Unset ->
  callbacks.onError (callbacks (self m)) = Some onErr ->
  resolve_in_turn (steps (self m)) (log m) 0 (default ∅ ctx) rs ->
  steps (self m) !! length rs = Some f ->
  f (attempts (length rs) (log m)) (Some (merged (default ∅ ctx) rs)) =
    Returns (Promise Pending) ->
  let r := execute ctx m in
  r.1 = Returned /\
  new_events m r.2 =
    step_events 0 (default ∅ ctx) rs ++
    [StepCalled (length rs) (Some (merged (default ∅ ctx) rs))] /\
  errors r.2 = errors m /\
  currentStep (self r.2) = Index (Z.of_nat (length rs)) /\
  context (self r.2) = Some (merged (default ∅ ctx) rs) /\
  callbacks (self r.2) = callbacks (self m).
Proof.
  intros Hcs Hh Hrs Hf Hx r. unfold r.
  rewrite (execute_unfold ctx m onErr Hcs Hh).
  set (m0 := set_self _ m).
  destruct (runNextStep_resolving rs 0 (default ∅ ctx) m0)
    as (m' & Hrun & Hsteps & Hcbs & Hflag & Hadv & Hctx & Herrs & Hlog & Hatt).
  { simpl. by rewrite Hcs. }
  { done. }
  { done. }
  simpl in Hsteps, Hcbs, Hflag, Hadv, Hctx, Herrs, Hlog, Hatt.
  pose proof (runNextStep_at m' (length rs) f Hadv) as Hend.
  rewrite Hsteps, Hctx, Hatt, Hx in Hend by done. specialize (Hend Hf).
  simpl in Hend. injection Hend as Hend.
  rewrite (runNextStep_through rs m0 m' _ Hrun Hend). simpl.
  repeat split; try done.
  apply new_events_of. simpl. by rewrite Hlog, <- app_assoc.
Qed.

(** When every step has resolved and the success callback throws, the
    error is handled like the failure of a step: the error handlers are
    called with a message that names the [onSuccess callback], and
    [execute] returns normally. *)
Theorem a_failing_success_callback_is_reported m ctx rs cb thrown_message onErr :
  currentStep (self m) = Unset ->
  callbacks.onError (callbacks (self m)) = Some onErr ->
  resolve_in_turn (steps (self m)) (log m) 0 (default ∅ ctx) rs ->
  length rs = length (steps (self m)) ->
  rs <> [] ->
  callbacks.onSuccess (callbacks (self m)) = Some cb ->
  callback_raises cb = Some (NewError thrown_message) ->
  let r := execute ctx m in
  let msg := "Error in onSuccess callback: " +:+ thrown_message in
  r.1 = Returned /\
  new_events m r.2 =
    step_events 0 (default ∅ ctx) rs ++
    SuccessCalled (callback_id cb) ::
    error_events (selected onErr (matching thrown_message (self m)))
      (length (errors m)) msg /\
  errors r.2 = errors m ++ [mkError msg None] /\
  currentStep (self r.2) = Index (Z.of_nat (length (steps (self m)))).
Proof.
  intros Hcs Hh Hrs Hlen Hne Hcb Hraises r msg. unfold r.
  rewrite (execute_unfold ctx m onErr Hcs Hh).
  set (m0 := set_self _ m).
  destruct (runNextStep_resolving rs 0 (default ∅ ctx) m0)
    as (m' & Hrun & Hsteps & Hcbs & Hflag & Hadv & Hctx & Herrs & Hlog & _).
  { simpl. by rewrite Hcs. }
  { done. }
  { done. }
  simpl in Hsteps, Hcbs, Hflag, Hadv, Hctx, Herrs, Hlog.
  pose proof (runNextStep_behind m' (length rs) Hadv) as Hend.
  rewrite Hsteps, Hlen in Hend. specialize (Hend (Nat.le_refl _)).
  unfold afterTransactionIsComplete in Hend. simpl in Hend.
  rewrite Hcbs, Hcb, Hraises in Hend. simpl in Hend.
  rewrite (runNextStep_through_exception rs m0 m' _ _ Hrun Hend).
  destruct rs as [|r0 rs]; [done|].
  match goal with |- context [handleStepError _ ?m1] =>
    pose proof (handleStepError_fresh m1 (errors m) thrown_message onErr) as Hhandle end.
  simpl in Hhandle. rewrite Herrs, Hcbs in Hhandle. specialize (Hhandle eq_refl Hh).
  rewrite (currentStepText_behind _ (length (steps (self m)))) in Hhandle
    by (simpl; rewrite ?Hsteps; done).
  rewrite Herrs, Hhandle. simpl.
  repeat split; try done.
  apply new_events_of. rewrite Hlog. simpl. rewrite <- !app_assoc. simpl.
  do 4 f_equal. unfold matching. simpl. by rewrite Hcbs.
Qed.

(** ** Resuming *)

Lemma resume_unfold suppressWarning m :
  resumedBeforeNextTick (self m) = false ->
  let resumed :=
    Machine (set_currentStep (decrement (currentStep (self m))) (self m))
      (errors m) (log m ++ resume_events (self m)) in
  resume suppressWarning m = (to_outcome (runNextStep resumed).1, (runNextStep resumed).2).
Proof.
  intros Hflag resumed. unfold resume, resumed, resume_events. rewrite Hflag. simpl.
  destruct (callbacks.onResume (callbacks (self m))); simpl; rewrite ?app_nil_r;
    by destruct (runNextStep _).
Qed.

Lemma attempts_resume_events i t (l : list (event V)) :
  attempts i (l ++ resume_events t) = attempts i l.
Proof.
  unfold resume_events. destruct (callbacks.onResume (callbacks t)).
  - by apply attempts_not_a_step.
  - by rewrite app_nil_r.
Qed.

(** [resume] on a transaction whose counter stands at position [k]
    calls the resume callback and invokes the step at that position
    again, with the context as it is, that is without what the failed
    attempt might have added; when that step and those behind it
    resolve, each is invoked once, in order, and the success callback
    is called. With the counter behind the last step, after a run that
    was completed, [resume] calls the resume and success callbacks and
    no step. *)
Theorem resume_continues_from_the_current_step m suppressWarning k c rs :
  currentStep (self m) = Index (Z.of_nat k) ->
  context (self m) = Some c ->
  resumedBeforeNextTick (self m) = false ->
  resolve_in_turn (steps (self m)) (log m) k c rs ->
  k + length rs = length (steps (self m)) ->
  succeeds_quietly (self m) ->
  let r := resume suppressWarning m in
  r.1 = Returned /\
  new_events m r.2 =
    resume_events (self m) ++ step_events k c rs ++ success_events (self m) /\
  currentStep (self r.2) = Index (Z.of_nat (length (steps (self m)))) /\
  context (self r.2) = Some (merged c rs) /\
  errors r.2 = errors m.
Proof.
  intros Hcs Hctx Hflag Hrs Hlen Hquiet r. unfold r.
  rewrite (resume_unfold suppressWarning m Hflag).
  set (m0 := Machine _ _ _).
  destruct (runNextStep_resolving rs k c m0)
    as (m' & Hrun & Hsteps & Hcbs & _ & Hadv & Hctx' & Herrs & Hlog & _).
  { simpl. rewrite Hcs. simpl. f_equal. lia. }
  { done. }
  { simpl. eapply resolve_in_turn_ext; [|exact Hrs].
    intros j _. by rewrite attempts_resume_events. }
  simpl in Hsteps, Hcbs, Hadv, Hctx', Herrs, Hlog.
  pose proof (runNextStep_behind m' (k + length rs) Hadv) as Hend.
  rewrite Hsteps, Hlen in Hend. specialize (Hend (Nat.le_refl _)).
  unfold afterTransactionIsComplete in Hend. simpl in Hend. rewrite Hcbs in Hend.
  unfold success_events.
  destruct (callbacks.onSuccess (callbacks (self m))) as [cb|] eqn:Hcb.
  - rewrite (Hquiet cb Hcb) in Hend.
    rewrite (runNextStep_through rs m0 m' _ Hrun Hend). simpl.
    repeat split; try done.
    apply new_events_of. simpl. by rewrite Hlog, <- !app_assoc.
  - rewrite (runNextStep_through rs m0 m' _ Hrun Hend). simpl.
    repeat split; try done.
    apply new_events_of. simpl. by rewrite Hlog, app_nil_r, <- !app_assoc.
Qed.

(** ** The constructor *)

Lemma functions_inj (fs fs' : list (step V)) :
  Function <$> fs = Function <$> fs' -> fs = fs'.
Proof.
  revert fs'. induction fs as [|f fs IH]; intros [|f' fs']; try done.
  intros [= -> Hfs]. f_equal. by apply IH.
Qed.

Lemma check_steps_functions (l : list (element V)) : forall i fs,
  check_steps i l = inr fs <-> l = Function <$> fs.
Proof.
  induction l as [|x l IH]; intros i fs; simpl.
  - split; [intros [= <-]; done|]. by destruct fs.
  - destruct x as [f|v].
    + destruct (check_steps (S i) l) as [msg|fs'] eqn:Hc.
      * split; [done|]. destruct fs as [|f' fs]; [done|]. intros [= -> Hl].
        apply (IH (S i)) in Hl. congruence.
      * pose proof (proj1 (IH (S i) fs') Hc) as Hl. split.
        -- intros [= <-]. by rewrite Hl.
        -- destruct fs as [|f' fs]; [done|]. intros [= -> Hfs].
           rewrite Hl in Hfs. apply functions_inj in Hfs. by subst.
    + split; [done|]. by destruct fs.
Qed.

(** The constructor accepts an array of one or more functions and
    nothing else; the transaction it makes has those steps, no
    callback, no counter and no context. For an argument that is not
    an array it throws the error that quotes the argument. *)
Theorem the_constructor_accepts_functions_only (arg : argument V) :
  (forall t : Transaction V R,
      new_Transaction arg = inr t <->
      exists fs, fs <> [] /\ arg = Array (Function <$> fs) /\
        t = {| steps := fs;
               callbacks := callbacks.make None None None [];
               currentStep := Unset;
               context := None;
               resumedBeforeNextTick := false |}) /\
  (forall v, arg = NotArray v ->
     new_Transaction (R:=R) arg =
       inl ("Expected a list of functions, got " +:+ JSON_stringify v)).
Proof.
  split; [|by intros v ->].
  intros t. destruct arg as [l|v]; unfold new_Transaction.
  - destruct l as [|x l].
    { split; [done|]. intros (fs & Hne & Hl & _). by destruct fs. }
    change (length (x :: l) <=? 0)%nat with false. cbv iota.
    destruct (check_steps 0 (x :: l)) as [msg|fs] eqn:Hc.
    + split; [done|]. intros (fs & _ & [= Hl] & _).
      apply (check_steps_functions _ 0) in Hl. congruence.
    + apply check_steps_functions in Hc. split.
      * intros [= <-]. exists fs. split; [by destruct fs|]. by rewrite Hc.
      * intros (fs' & _ & [= Hl] & ->). rewrite Hc in Hl.
        apply functions_inj in Hl. by subst.
  - split; [done|]. by intros (fs & _ & ? & _).
Qed.

(** ** Without an error handler *)

Lemma new_Transaction_callbacks arg (t : Transaction V R) :
  new_Transaction arg = inr t -> callbacks.onError (callbacks t) = None.
Proof.
  unfold new_Transaction. destruct arg as [l|v]; [|done].
  destruct (_ <=? _)%nat; [done|]. destruct (check_steps 0 l); [done|].
  by intros [= <-].
Qed.

Lemma register_idle (g : Transaction V R -> Transaction V R) m :
  (forall t, currentStep (g t) = currentStep t /\
             resumedBeforeNextTick (g t) = resumedBeforeNextTick t) ->
  idle (self m) -> idle (self (register g m).2).
Proof. intros Hg [Hcs Hflag]. unfold idle. simpl. by destruct (Hg (self m)) as [-> ->]. Qed.

Lemma perform_without_handler op m :
  registers_onError op = false ->
  callbacks.onError (callbacks (self m)) = None ->
  idle (self m) ->
  callbacks.onError (callbacks (self (perform op m).2)) = None /\
  idle (self (perform op m).2) /\
  steps_called (log (perform op m).2) = steps_called (log m).
Proof.
  intros Hop Hnone Hidle. destruct op as [ctx|cb|cb|cb|cb|pat cb|suppress]; simpl.
  - unfold execute. by rewrite Hnone.
  - done.
  - done.
  - done.
  - by destruct cb.
  - done.
  - destruct (resume_idle suppress m Hidle) as (_ & Hi & _ & Hcbs & Hl).
    rewrite Hcbs. split; [done|]. split; [done|].
    rewrite Hl, !steps_called_app.
    unfold resume_events, success_events.
    destruct (callbacks.onResume _), (callbacks.onSuccess _); simpl; by rewrite ?app_nil_r.
Qed.

Lemma perform_all_without_handler ops : forall m,
  forallb (fun op => negb (registers_onError op)) ops = true ->
  callbacks.onError (callbacks (self m)) = None ->
  idle (self m) ->
  callbacks.onError (callbacks (self (perform_all ops m))) = None /\
  idle (self (perform_all ops m)) /\
  steps_called (log (perform_all ops m)) = steps_called (log m).
Proof.
  induction ops as [|op ops IH]; intros m Hops Hnone Hidle; [done|].
  simpl in Hops. apply andb_true_iff in Hops as [Hop Hops].
  apply negb_true_iff in Hop.
  destruct (perform_without_handler op m Hop Hnone Hidle) as (Hn & Hi & Hl).
  simpl. destruct (IH _ Hops Hn Hi) as (? & ? & Hl'). by rewrite Hl' in *.
Qed.

(** As long as no [onError] handler has been registered on a new
    transaction, no step is ever invoked, whatever is called on it:
    every [execute] throws the usage error that asks for the handler
    and changes nothing. *)
Theorem no_step_runs_without_an_error_handler arg (t : Transaction V R) ops st lg :
  new_Transaction arg = inr t ->
  forallb (fun op => negb (registers_onError op)) ops = true ->
  let m := perform_all ops (Machine t st lg) in
  steps_called (log m) = steps_called lg /\
  callbacks.onError (callbacks (self m)) = None /\
  forall ctx,
    execute ctx m =
      (Raised (UsageError "You called `execute` before assigning an `onError` callback. This means that errors in steps will be silenced. Add an `onError` callback before calling `execute`."), m).
Proof.
  intros Hnew Hops m.
  destruct (new_Transaction_idle _ _ Hnew) as [_ Hidle].
  pose proof (new_Transaction_callbacks _ _ Hnew) as Hnone.
  destruct (perform_all_without_handler ops (Machine t st lg) Hops Hnone Hidle)
    as (Hn & _ & Hl).
  repeat split; try done.
  intros ctx. unfold m, execute. by rewrite Hn.
Qed.

(** ** The guard against synchronous resumption *)

(** An error handler is registered and no failure is being handled. *)
Lemma handleStepError_guard error m :
  is_Some (callbacks.onError (callbacks (self m))) ->
  callbacks (self (handleStepError error m).2) = callbacks (self m) /\
  resumedBeforeNextTick (self (handleStepError error m).2) = false.
Proof.
  intros Hh. destruct (handleStepError_frame error m) as (_ & Hcbs & _ & _ & _ & Hflag).
  split; [done|]. by destruct (Hflag Hh).
Qed.

Lemma afterStep_guard (next : machine V R -> option (completion * machine V R))
    promise m r :
  is_Some (callbacks.onError (callbacks (self m))) ->
  resumedBeforeNextTick (self m) = false ->
  (forall m1 r1, callbacks (self m1) = callbacks (self m) ->
                 resumedBeforeNextTick (self m1) = false ->
                 next m1 = Some r1 ->
                 callbacks (self r1.2) = callbacks (self m) /\
                 resumedBeforeNextTick (self r1.2) = false) ->
  afterStep next promise m = Some r ->
  callbacks (self r.2) = callbacks (self m) /\ resumedBeforeNextTick (self r.2) = false.
Proof.
  intros Hh Hflag Hnext.
  destruct promise as [t|[v|[v|t|]]]; simpl.
  - destruct (materialize t (errors m)) as [e st]. by intros [= <-].
  - destruct (has_then v); [by intros [= <-]|].
    intros [= <-].
    match goal with |- context [handleStepError ?e ?m1] =>
      exact (handleStepError_guard e m1 Hh) end.
  - unfold handleStepSuccess.
    destruct (next _) as [[c1 m1']|] eqn:Hn; [|done].
    apply Hnext in Hn as [Hcbs Hf]; [|done|done]. simpl in Hcbs, Hf.
    destruct c1; intros [= <-]; [done|]. simpl.
    destruct (handleStepError_guard e m1') as [-> ->]; [by rewrite Hcbs|done].
  - destruct (materialize t (errors m)) as [e st]. intros [= <-]. simpl.
    by apply (handleStepError_guard e (set_errors st m)).
  - by intros [= <-].
Qed.

Lemma runNextStep_within_guard fuel : forall m r,
  is_Some (callbacks.onError (callbacks (self m))) ->
  resumedBeforeNextTick (self m) = false ->
  runNextStep_within fuel m = Some r ->
  callbacks (self r.2) = callbacks (self m) /\ resumedBeforeNextTick (self r.2) = false.
Proof.
  induction fuel as [|fuel IH]; intros m r Hh Hflag; [done|].
  simpl. destruct (step_at _ _) as [f|].
  - intros Hr.
    match type of Hr with afterStep _ ?p ?m1 = _ =>
      destruct (afterStep_guard (runNextStep_within fuel) p m1 r) as [Hc Hf];
        [done|done| |done|by split] end.
    intros m1 r1 Hcbs Hf Hn. simpl in Hcbs |- *. rewrite <- Hcbs.
    apply IH; [by rewrite Hcbs|done|done].
  - intros [= <-].
    match goal with |- context [afterTransactionIsComplete ?m1] =>
      destruct (afterTransactionIsComplete_frame m1) as [-> _] end.
    done.
Qed.

Lemma runNextStep_guard m :
  is_Some (callbacks.onError (callbacks (self m))) ->
  resumedBeforeNextTick (self m) = false ->
  callbacks (self (runNextStep m).2) = callbacks (self m) /\
  resumedBeforeNextTick (self (runNextStep m).2) = false.
Proof.
  intros Hh Hflag.
  destruct (runNextStep_within_total (S (length (steps (self m)))) m) as [r Hr].
  { pose proof (remaining_le (self m)). lia. }
  rewrite (runNextStep_within_eq _ _ _ Hr). by eapply runNextStep_within_guard.
Qed.

Lemma perform_guard op m :
  removes_onError op = false ->
  is_Some (callbacks.onError (callbacks (self m))) ->
  resumedBeforeNextTick (self m) = false ->
  is_Some (callbacks.onError (callbacks (self (perform op m).2))) /\
  resumedBeforeNextTick (self (perform op m).2) = false.
Proof.
  intros Hop Hh Hflag. destruct op as [ctx|cb|cb|cb|cb|pat cb|suppress]; simpl; try done.
  - unfold execute. pose proof Hh as [h Hh']. rewrite Hh'.
    destruct (at_least _ _); [done|].
    match goal with |- context [runNextStep ?m1] =>
      destruct (runNextStep_guard m1) as [Hcbs Hf]; [done|done|];
      destruct (runNextStep m1) as [c m'] end.
    simpl in *. by rewrite Hcbs.
  - destruct cb; [by eexists|done].
  - rewrite (resume_unfold suppress m Hflag). simpl.
    match goal with |- context [runNextStep ?m1] =>
      destruct (runNextStep_guard m1) as [Hcbs Hf]; [done|done|] end.
    by rewrite Hcbs.
Qed.

(** ** The context *)

(** A step sees, under each key, what the latest of the steps before
    it that resolved with an object holding that key gave it, or else
    what the context held before; a value that is not an object adds
    nothing. *)
Theorem later_results_override_the_context c (rs : list V) (r : V) :
  (forall key,
      merged c (rs ++ [r]) !! key =
        match contribution r !! key with
        | Some v => Some v
        | None => merged c rs !! key
        end) /\
  (is_object r = false -> merged c (rs ++ [r]) = merged c rs).
Proof.
  unfold merged. rewrite fold_left_app. simpl.
  set (before := fold_left _ rs c). unfold merge_context, contribution. simpl. split.
  - intros key. rewrite lookup_union.
    destruct ((if is_object r then own_properties r else ∅) !! key) as [v|];
      by destruct (before !! key).
  - intros ->. by rewrite (left_id_L ∅ (∪)).
Qed.

(** ** An error object that fails twice *)

Lemma handleStepError_errors error m :
  is_Some (callbacks.onError (callbacks (self m))) ->
  errors (handleStepError error m).2 =
    update error (fun e => set_message (with_prefix (self m) (message e)) e) (errors m).
Proof.
  intros [h Hh]. unfold handleStepError.
  rewrite (findErrorCallback_matching _ _ _ Hh). simpl.
  match goal with |- context [call_handlers ?hs error ?m1] =>
    destruct (call_handlers_spec hs error m1) as (_ & He & _) end.
  by rewrite He.
Qed.

(** [handleStepError] writes the prefix into the error object it is
    given. When the same object fails a step a second time, the
    patterns of the specific handlers are tested against the message
    that carries the prefix of the first time, and the handlers are
    called with a message that carries the prefix twice. *)
Theorem the_prefix_accumulates_on_an_error_that_fails_twice m error onErr x :
  callbacks.onError (callbacks (self m)) = Some onErr ->
  errors m !! error = Some x ->
  let once := with_prefix (self m) (message x) in
  let twice := with_prefix (self m) once in
  let m1 := (handleStepError error m).2 in
  let m2 := (handleStepError error m1).2 in
  handlers_called (new_events m m1) =
    (fun h => (h, error, once)) <$> selected onErr (matching (message x) (self m)) /\
  message_of (errors m1) error = once /\
  handlers_called (new_events m1 m2) =
    (fun h => (h, error, twice)) <$> selected onErr (matching once (self m)) /\
  message_of (errors m2) error = twice.
Proof.
  intros Hh Hx once twice m1 m2.
  assert (message_of (errors m) error = message x) as Hmsg
    by (unfold message_of; by rewrite Hx).
  destruct (handleStepError_dispatch error m (selected onErr (matching (message x) (self m))))
    as (m1' & Hr1 & Hself1 & Hlog1); [|by eexists|].
  { rewrite Hmsg. by apply findErrorCallback_matching. }
  assert (m1 = m1') as Hm1 by (unfold m1; by rewrite Hr1).
  assert (errors m1 !! error = Some (set_message once x)) as Hx1.
  { unfold m1. rewrite handleStepError_errors by (by eexists).
    unfold update. rewrite Hx. apply list_lookup_insert_eq. by eapply lookup_lt_Some. }
  assert (message_of (errors m1) error = once) as Hmsg1
    by (unfold message_of; rewrite Hx1; apply message_set_message).
  assert (callbacks (self m1) = callbacks (self m) /\
          currentStepText (self m1) = currentStepText (self m)) as [Hcbs1 Htext1].
  { rewrite Hm1, Hself1. by destruct (self m). }
  destruct (handleStepError_dispatch error m1 (selected onErr (matching once (self m))))
    as (m2' & Hr2 & Hself2 & Hlog2); [|by eexists|].
  { rewrite Hmsg1, (findErrorCallback_matching _ _ onErr) by (by rewrite Hcbs1).
    unfold matching. by rewrite Hcbs1. }
  assert (m2 = m2') as Hm2 by (unfold m2; by rewrite Hr2).
  assert (prefixed error m = once) as Hp1 by (unfold prefixed; by rewrite Hmsg).
  assert (prefixed error m1 = twice) as Hp2.
  { unfold prefixed, twice, with_prefix. by rewrite Hmsg1, Htext1. }
  repeat split.
  - rewrite Hm1, (new_events_app _ _ _ Hlog1), Hp1. by apply handlers_called_errors.
  - done.
  - rewrite Hm2, (new_events_app _ _ _ Hlog2), Hp2. by apply handlers_called_errors.
  - unfold m2. rewrite handleStepError_errors by (rewrite Hcbs1; by eexists).
    rewrite message_of_update, Hx1. simpl. rewrite !message_set_message.
    unfold twice, with_prefix. by rewrite Htext1.
Qed.

(** ** Registering callbacks *)

(** The callbacks of a transaction after a series of registrations:
    [then] is [onSuccess], and of the success callbacks registered the
    last one is in place, the earlier ones being dropped; the specific
    error handlers accumulate, each behind those registered before it,
    a handler registered twice being kept twice; and registering
    touches neither the steps nor the counter. *)
Theorem registrations_replace_or_accumulate ops m :
  forallb is_registration ops = true ->
  let m' := perform_all ops m in
  callbacks.onSuccess (callbacks (self m')) =
    success_callback_after ops (callbacks.onSuccess (callbacks (self m))) /\
  callbacks.onSpecificErrors (callbacks (self m')) =
    callbacks.onSpecificErrors (callbacks (self m)) ++ specifics_of ops /\
  steps (self m') = steps (self m) /\
  currentStep (self m') = currentStep (self m) /\
  log m' = log m.
Proof.
  revert m. induction ops as [|op ops IH]; intros m Hops m'.
  - unfold m'. simpl. by rewrite app_nil_r.
  - simpl in Hops. apply andb_true_iff in Hops as [Hop Hops].
    unfold m'. simpl.
    destruct (IH (perform op m).2 Hops) as (Hs & Hsp & Hst & Hcs & Hl).
    rewrite Hs, Hsp, Hst, Hcs, Hl.
    destruct op as [ctx|cb|cb|cb|cb|pat cb|suppress]; simpl in *; try done.
    by rewrite <- app_assoc.
Qed.
End TransactionFlows.

Section TransactionCallbacks.
Import Tx.
Context {V R : Type} `{JsValue V} `{JsObject V} `{RegExpEngine R}.
Variable raises : handler -> option thrown.
Implicit Types (m : machine V R) (t : Transaction V R) (c : gmap string V).

(** ** Callbacks that return *)

Lemma call_handlers_return hs error m :
  (forall h, h ∈ hs -> raises h = None) ->
  Raising.call_handlers raises hs error m = (Normal, call_handlers hs error m).
Proof.
  revert m. induction hs as [|h hs IH]; intros m Hret; [done|].
  simpl. rewrite (Hret h) by apply list_elem_of_here.
  rewrite IH; [done|]. intros h' Hin. apply Hret. by apply list_elem_of_further.
Qed.

Lemma findErrorCallback_registered msg t hs :
  findErrorCallback msg t = Some hs -> forall h, h ∈ hs -> registered t h.
Proof.
  unfold findErrorCallback, registered.
  destruct (callback <$> List.filter _ _) as [|h0 hs0] eqn:Hsel.
  - destruct (callbacks.onError (callbacks t)) as [onErr|]; [|done].
    intros [= <-] h Hin. apply list_elem_of_singleton in Hin as ->. by left.
  - intros [= <-] h Hin. right. right. rewrite <- Hsel in Hin.
    apply list_elem_of_fmap in Hin as (sp & -> & Hin).
    apply list_elem_of_fmap. exists sp. split; [done|].
    apply list_elem_of_In. apply list_elem_of_In in Hin.
    by apply List.filter_In in Hin as [Hin _].
Qed.

Lemma callbacks_return_same t t' :
  callbacks t' = callbacks t ->
  Raising.callbacks_return raises t -> Raising.callbacks_return raises t'.
Proof.
  intros Hcbs Hret h Hh. apply Hret. unfold registered in *. by rewrite <- Hcbs.
Qed.

Lemma handleStepError_return error m :
  Raising.callbacks_return raises (self m) ->
  Raising.handleStepError raises error m = handleStepError error m.
Proof.
  intros Hret. unfold Raising.handleStepError, handleStepError.
  destruct (findErrorCallback _ _) as [hs|] eqn:Hf; [|done].
  rewrite call_handlers_return; [done|].
  intros h Hin. apply Hret. by eapply findErrorCallback_registered.
Qed.

(** A run leaves the callbacks as they are. *)
Lemma afterStep_callbacks (next : machine V R -> option (completion * machine V R))
    promise m r :
  (forall m1 r1, callbacks (self m1) = callbacks (self m) -> next m1 = Some r1 ->
                 callbacks (self r1.2) = callbacks (self m)) ->
  afterStep next promise m = Some r ->
  callbacks (self r.2) = callbacks (self m).
Proof.
  intros Hnext. destruct promise as [t|[v|[v|t|]]]; simpl.
  - destruct (materialize t (errors m)) as [e st]. by intros [= <-].
  - destruct (has_then v); [by intros [= <-]|]. intros [= <-].
    match goal with |- context [handleStepError ?e ?m1] =>
      by destruct (handleStepError_frame e m1) as (_ & -> & _) end.
  - unfold handleStepSuccess. destruct (next _) as [[c1 m1]|] eqn:Hn; [|done].
    apply Hnext in Hn; [|done]. simpl in Hn.
    destruct c1; intros [= <-]; [done|]. simpl.
    by destruct (handleStepError_frame e m1) as (_ & -> & _).
  - destruct (materialize t (errors m)) as [e st]. intros [= <-]. simpl.
    by destruct (handleStepError_frame e (set_errors st m)) as (_ & -> & _).
  - by intros [= <-].
Qed.

Lemma runNextStep_within_callbacks fuel : forall m r,
  runNextStep_within fuel m = Some r -> callbacks (self r.2) = callbacks (self m).
Proof.
  induction fuel as [|fuel IH]; intros m r; [done|].
  simpl. destruct (step_at _ _) as [f|].
  - intros Hr. apply afterStep_callbacks in Hr; [done|].
    intros m1 r1 Hcbs Hn. rewrite <- Hcbs. by apply IH.
  - intros [= <-].
    match goal with |- context [afterTransactionIsComplete ?m1] =>
      by destruct (afterTransactionIsComplete_frame m1) as [-> _] end.
Qed.

Lemma afterStep_return (next next' : machine V R -> option (completion * machine V R))
    promise m :
  Raising.callbacks_return raises (self m) ->
  (forall m1, callbacks (self m1) = callbacks (self m) -> next' m1 = next m1) ->
  (forall m1 r1, callbacks (self m1) = callbacks (self m) -> next m1 = Some r1 ->
                 callbacks (self r1.2) = callbacks (self m)) ->
  Raising.afterStep raises next' promise m = afterStep next promise m.
Proof.
  intros Hret Hnext Hcbs. destruct promise as [t|[v|[v|t|]]]; simpl; try done.
  - destruct (has_then v); [done|]. by rewrite handleStepError_return.
  - unfold handleStepSuccess. rewrite Hnext by done.
    destruct (next _) as [[[|e] m1]|] eqn:Hn; try done.
    apply Hcbs in Hn; [|done]. simpl in Hn.
    rewrite handleStepError_return; [done|]. by eapply callbacks_return_same.
  - destruct (materialize t (errors m)) as [e st].
    by rewrite handleStepError_return.
Qed.

Lemma runNextStep_within_return fuel : forall m,
  Raising.callbacks_return raises (self m) ->
  Raising.runNextStep_within raises fuel m = runNextStep_within fuel m.
Proof.
  induction fuel as [|fuel IH]; intros m Hret; [done|].
  simpl. destruct (step_at _ _) as [f|]; [|done].
  apply afterStep_return; [done| |].
  - intros m1 Hcbs. apply IH. by eapply callbacks_return_same.
  - intros m1 r1 Hcbs Hn. rewrite <- Hcbs. by apply runNextStep_within_callbacks in Hn.
Qed.

Lemma runNextStep_return m :
  Raising.callbacks_return raises (self m) ->
  Raising.runNextStep raises m = runNextStep m.
Proof.
  intros Hret. unfold Raising.runNextStep, runNextStep.
  by rewrite runNextStep_within_return.
Qed.

Lemma execute_return ctx m :
  Raising.callbacks_return raises (self m) ->
  Raising.execute raises ctx m = execute ctx m.
Proof.
  intros Hret. unfold Raising.execute, execute.
  destruct (callbacks.onError _); [|done]. destruct (at_least _ _); [done|].
  by rewrite runNextStep_return.
Qed.

Lemma resume_return suppressWarning m :
  Raising.callbacks_return raises (self m) ->
  Raising.resume raises suppressWarning m = resume suppressWarning m.
Proof.
  intros Hret. unfold Raising.resume, resume.
  destruct (_ && _); [done|].
  destruct (callbacks.onResume (callbacks (self m))) as [h|] eqn:Hh; simpl;
    rewrite ?Hh; simpl.
  - rewrite (Hret h) by (right; by left). by rewrite runNextStep_return.
  - by rewrite runNextStep_return.
Qed.

Lemma perform_return op m :
  Raising.callbacks_return raises (self m) ->
  Raising.perform raises op m = perform op m.
Proof.
  intros Hret. destruct op; simpl; try done.
  - by apply execute_return.
  - by apply resume_return.
Qed.

Lemma perform_all_return ops : forall m,
  (forall h, raises h = None) ->
  Raising.perform_all raises ops m = perform_all ops m.
Proof.
  induction ops as [|op ops IH]; intros m Hret; [done|].
  simpl. rewrite perform_return by (by intros h _). by apply IH.
Qed.

(** The methods for callbacks that throw never run out of fuel
    either. *)
Lemma raising_runNextStep_within_total fuel : forall m,
  remaining (self m) < fuel -> is_Some (Raising.runNextStep_within raises fuel m).
Proof.
  induction fuel as [|fuel IH]; intros m Hlt; [lia|].
  simpl. destruct (step_at _ _) as [f|] eqn:Hs; [|eauto].
  destruct (f _ _) as [t|[v|[v|t|]]]; simpl; try (repeat case_match; eauto; fail).
  unfold handleStepSuccess.
  match goal with |- context [Raising.runNextStep_within raises fuel ?m1] =>
    destruct (IH m1) as [[c m'] Hr] end.
  - pose proof (remaining_next _ _ Hs) as Hn. simpl in *.
    specialize (Hn (set_context (Some (merge_context (context (self m)) v))
                     (set_currentStep (advance (currentStep (self m))) (self m))) eq_refl eq_refl).
    simpl in Hn. unfold remaining in *. simpl in *. lia.
  - rewrite Hr. destruct c; eauto.
Qed.
(** ** Failures and the callbacks *)



(** ** A step that fails *)

(** When the steps before position [k] resolve and the step at
    position [k] returns a value that does not pass for a promise, or a
    promise that is rejected with a new error, and the registered
    callbacks return, [execute] returns normally; the steps invoked are
    those up to position [k], once each and in order; then the error
    callbacks are called, the specific ones whose pattern matches the
    message of the failure or else [onError], with an error whose
    message names the step by its ordinal; no later step and no success
    callback is called, and the counter stays at [k]. *)
Theorem a_failing_step_stops_the_run m ctx rs (f : step V) x text onErr :
  currentStep (self m) = Unset ->
  callbacks.onError (callbacks (self m)) = Some onErr ->
  Raising.callbacks_return raises (self m) ->
  resolve_in_turn (steps (self m)) (log m) 0 (default ∅ ctx) rs ->
  steps (self m) !! length rs = Some f ->
  f (attempts (length rs) (log m)) (Some (merged (default ∅ ctx) rs)) = Returns x ->
  step_failure_text x = Some text ->
  let r := Raising.execute raises ctx m in
  let msg := "Error in " +:+ ordinal (Z.of_nat (length rs) + 1) +:+ " step: " +:+ text in
  r.1 = Returned /\
  new_events m r.2 =
    step_events 0 (default ∅ ctx) rs ++
    StepCalled (length rs) (Some (merged (default ∅ ctx) rs)) ::
    error_events (selected onErr (matching text (self m))) (length (errors m)) msg /\
  errors r.2 = errors m ++ [mkError msg None] /\
  currentStep (self r.2) = Index (Z.of_nat (length rs)) /\
  context (self r.2) = Some (merged (default ∅ ctx) rs) /\
  resumedBeforeNextTick (self r.2) = false.
Proof.
  intros Hcs Hh Hret Hrs Hf Hx Htext r msg. unfold r.
  rewrite execute_return by done.
  rewrite (execute_unfold ctx m onErr Hcs Hh).
  set (m0 := set_self _ m).
  destruct (runNextStep_resolving rs 0 (default ∅ ctx) m0)
    as (m' & Hrun & Hsteps & Hcbs & Hflag & Hadv & Hctx & Herrs & Hlog & Hatt).
  { simpl. by rewrite Hcs. }
  { done. }
  { done. }
  simpl in Hsteps, Hcbs, Hflag, Hadv, Hctx, Herrs, Hlog, Hatt.
  pose proof (runNextStep_step_fails m' (length rs) f x text onErr Hadv) as Hend.
  rewrite Hsteps, Hctx, Hcbs, Hatt, Herrs in Hend by done.
  specialize (Hend Hf Hx Htext Hh). simpl in Hend.
  rewrite (runNextStep_through rs m0 m' _ Hrun Hend). simpl.
  repeat split; try done.
  apply new_events_of. rewrite Hlog, <- app_assoc. do 3 f_equal.
  unfold matching. by rewrite Hcbs.
Qed.

(** ** The guard against resuming at once *)

(** The calls of the callbacks end at the first that throws. *)
Lemma raising_call_handlers_spec hs error : forall m,
  let r := Raising.call_handlers raises hs error m in
  self r.2 = self m /\
  log r.2 =
    log m ++ ((fun h => ErrorCalled h error (message_of (errors m) error)) <$>
                Raising.reached raises hs) /\
  ((forall h, h ∈ hs -> raises h = None) -> r.1 = Normal /\ errors r.2 = errors m) /\
  ((exists h, h ∈ hs /\ is_Some (raises h)) -> exists e, r.1 = Threw e).
Proof.
  induction hs as [|h hs IH]; intros m; simpl.
  - rewrite app_nil_r. repeat split; try done.
    intros (h & Hin & _). by apply elem_of_nil in Hin.
  - destruct (raises h) as [t|] eqn:Hh.
    + destruct (materialize t _) as [e st] eqn:Hmat. simpl.
      split; [done|]. split; [done|]. split.
      * intros Hret. specialize (Hret h (list_elem_of_here _ _)). congruence.
      * intros _. by eexists.
    + destruct (IH (emit (ErrorCalled h error (message_of (errors m) error)) m))
        as (Hself & Hlog & Hnone & Hsome).
      simpl in *. split; [done|]. split; [by rewrite Hlog, <- app_assoc|]. split.
      * intros Hret. apply Hnone. intros h' Hin. apply Hret. by apply list_elem_of_further.
      * intros (h' & Hin & Hthrows). apply Hsome.
        apply elem_of_cons in Hin as [->|Hin].
        -- rewrite Hh in Hthrows. by destruct Hthrows.
        -- by exists h'.
Qed.

(** [resume] refuses to run while the mark [resumedBeforeNextTick] is
    set, unless it is given the words that suppress the warning: it
    writes the warning to the console, throws it, and touches nothing
    else. [handleStepError] sets the mark, calls the callbacks selected
    for the failure up to the first that throws, and clears the mark
    when all of them have returned; when one throws, those behind it are
    not called and the mark stays set, so that the next [resume] without
    the words throws the warning. When no callback throws and an
    [onError] callback stays registered, the mark is never set between
    calls, and [resume] never throws the warning, whatever was called on
    the transaction before. *)
Theorem resume_warns_only_while_a_failure_is_handled ops m :
  (forall suppressWarning,
      resumedBeforeNextTick (self m) = true ->
      suppressWarning <> Some "Yes this is in test code" ->
      Raising.resume raises suppressWarning m =
        (Raised (UsageError warning), emit (ConsoleWarn warning) m)) /\
  (forall error onErr,
      callbacks.onError (callbacks (self m)) = Some onErr ->
      is_Some (errors m !! error) ->
      let hs := selected onErr (matching (message_of (errors m) error) (self m)) in
      let r := Raising.handleStepError raises error m in
      handlers_called (new_events m r.2) =
        (fun h => (h, error, prefixed error m)) <$> Raising.reached raises hs /\
      ((forall h, h ∈ hs -> raises h = None) ->
         r.1 = Normal /\ resumedBeforeNextTick (self r.2) = false) /\
      ((exists h, h ∈ hs /\ is_Some (raises h)) ->
         (exists e, r.1 = Threw e) /\
         resumedBeforeNextTick (self r.2) = true /\
         forall suppressWarning,
           suppressWarning <> Some "Yes this is in test code" ->
           (Raising.resume raises suppressWarning r.2).1 = Raised (UsageError warning))) /\
  ((forall h, raises h = None) ->
   is_Some (callbacks.onError (callbacks (self m))) ->
   resumedBeforeNextTick (self m) = false ->
   forallb (fun op => negb (removes_onError op)) ops = true ->
   resumedBeforeNextTick (self (Raising.perform_all raises ops m)) = false /\
   forall suppressWarning msg,
     (Raising.resume raises suppressWarning (Raising.perform_all raises ops m)).1
       <> Raised (UsageError msg)).
Proof.
  assert (forall suppressWarning m',
            resumedBeforeNextTick (self m') = true ->
            suppressWarning <> Some "Yes this is in test code" ->
            Raising.resume raises suppressWarning m' =
              (Raised (UsageError warning), emit (ConsoleWarn warning) m')) as Hwarns.
  { intros suppressWarning m' Hflag Hs. unfold Raising.resume. rewrite Hflag. simpl.
    by rewrite bool_decide_eq_false_2. }
  split; [intros; by apply Hwarns|]. split.
  - intros error onErr Hh [x Hx] hs r. unfold r, Raising.handleStepError.
    rewrite (findErrorCallback_matching _ _ _ Hh). fold hs.
    match goal with |- context [Raising.call_handlers raises hs error ?m1] =>
      destruct (raising_call_handlers_spec hs error m1) as (Hself & Hlog & Hnone & Hsome);
      destruct (Raising.call_handlers raises hs error m1) as [c1 m2] end.
    simpl in Hself, Hlog, Hnone, Hsome.
    rewrite message_of_update, Hx in Hlog. simpl in Hlog. rewrite message_set_message in Hlog.
    assert (prefixed error m =
              "Error in " +:+ currentStepText (self m) +:+ ": " +:+ message x) as Hp.
    { unfold prefixed, message_of. by rewrite Hx. }
    split; [|split].
    + match goal with |- context [new_events m ?r2] =>
        replace (new_events m r2) with (new_events m m2) by (by destruct c1) end.
      rewrite (new_events_of _ _ _ Hlog), Hp. by apply handlers_called_errors.
    + intros Hret. destruct (Hnone Hret) as [-> _]. done.
    + intros Hthrows. destruct (Hsome Hthrows) as [e ->]. simpl.
      split; [by eexists|]. split; [by rewrite Hself|].
      intros suppressWarning Hs. rewrite Hwarns; [done| |done]. by rewrite Hself.
  - intros Hret Hh Hflag Hops. rewrite perform_all_return by done.
    assert (is_Some (callbacks.onError (callbacks (self (perform_all ops m)))) /\
            resumedBeforeNextTick (self (perform_all ops m)) = false) as [_ Hclear].
    { revert m Hh Hflag. induction ops as [|op ops IH]; intros m Hh Hflag; [done|].
      simpl in Hops. apply andb_true_iff in Hops as [Hop Hops].
      apply negb_true_iff in Hop.
      destruct (perform_guard op m Hop Hh Hflag) as [Hh' Hflag'].
      simpl. by apply IH. }
    split; [done|]. intros suppressWarning msg.
    rewrite resume_return by (by intros h _).
    rewrite (resume_unfold suppressWarning _ Hclear). simpl.
    by destruct (runNextStep _) as [[|e] m'].
Qed.
End TransactionCallbacks.

(* ================================================================== *)
(** * The properties on the scenarios                                  *)
(* ================================================================== *)

Section GetterScenarios.
Import Getter Sample Scenario.

(** The message the test suite expects from [detailed]. *)
Example detailed_error_message :
let r := get (getter detailed) in
exists e, r.1 = Gives (Rejected e) /\
  message_of (errors r.2) e =
    "The Really Determined Property Getter has failed." +:+ nl +:+
    "  - primary source failed because it was rejected with 'Error: no luck with the primary'" +:+ nl +:+
    "  - secondary source #1 failed because it was rejected with 'Error: no luck with the first secondary source'" +:+ nl +:+
    "  - secondary source #2 failed because the verifier function did not accept the value " +:+ quoted "1 2 3" +:+ nl +:+
    "  - secondary source #3 failed because it was expected to return a Promise, but instead it returned {" +:+ quoted "vanilla" +:+ ":" +:+ quoted "object" +:+ "}" +:+ nl +:+
    "  - secondary source #4 resolved with " +:+ quoted "1 2 3 4 5" +:+ nl +:+
    "  - primarySourceSynchronizer function #2 failed because it was rejected with 'Error: nope'" +:+ nl.
Proof. eexists. split; by vm_compute. Qed.

(** With [ignoreSynchronizationErrors] the value of the secondary source
  comes through, and the third synchronizer is called as well. *)
Example ignored_synchronization_error :
let r := get (getter (second_secondary_delivers true)) in
r.1 = Gives (Fulfilled (Str "good stuff")) /\
who <$> calls r.2 =
  [Primary; Secondary 0; Secondary 1; Synchronizer 0; Synchronizer 1; Synchronizer 2].
Proof. split; by vm_compute. Qed.

(** C1 on the getter [two_rejections]. *)
Lemma composite_message_of_two_rejections_witness :
getInProgress (getter two_rejections) = false /\
primarySource (configuration (getter two_rejections)) = Some (rejecting "X") /\
rejecting "X" (attempts Primary (calls (getter two_rejections))) =
  Returns (Promise (Rejects (NewError "X"))) /\
secondarySources (configuration (getter two_rejections)) = [rejecting "Y"] /\
rejecting "Y" (attempts (Secondary 0) (calls (getter two_rejections))) =
  Returns (Promise (Rejects (NewError "Y"))) /\
exists e, (get (getter two_rejections)).1 = Gives (Rejected e) /\
          message_of (errors (get (getter two_rejections)).2) e = expected_message.
Proof.
do 5 (split; [reflexivity|]).
apply (composite_message_of_two_rejections (getter two_rejections)
         (rejecting "X") (rejecting "Y")); reflexivity.
Defined.

(** C2 as it is worded fails: a synchronizer is registered, the value of
  the primary source is accepted, and the synchronizer is not called. *)
Lemma synchronizers_skipped_counterexample :
primarySourceSynchronizers primary_delivers = [synchronizing] /\
(get (getter primary_delivers)).1 = Gives (Fulfilled (Str "from primary")) /\
calls (get (getter primary_delivers)).2 = [Call Primary None].
Proof. repeat split; by vm_compute. Qed.

(** C2 as amended, on a getter whose primary source delivers and on one
  whose second secondary source does, with a second synchronizer that
  fails. *)
Lemma synchronizers_follow_a_secondary_source_witness :
(getInProgress (getter primary_delivers) = false /\
 primarySource (configuration (getter primary_delivers)) =
   Some (resolving (Str "from primary")) /\
 accepts primary_delivers (Str "from primary") = true /\
 (get (getter primary_delivers)).1 = Gives (Fulfilled (Str "from primary")) /\
 calls_during (getter primary_delivers) (get (getter primary_delivers)).2 =
   [Call Primary None]) /\
(let m := getter (second_secondary_delivers false) in
 getInProgress m = false /\
 source_fails (configuration m) (rejecting "no luck with the primary" 0) = true /\
 secondarySources (configuration m) !! 1 = Some (resolving (Str "good stuff")) /\
 accepts (configuration m) (Str "good stuff") = true /\
 calls_during m (get m).2 =
   [Call Primary None] ++ secondary_calls 0 2 ++ synchronizer_calls (Str "good stuff") 2).
Proof.
split.
- do 3 (split; [reflexivity|]).
  apply (proj1 (synchronizers_follow_a_secondary_source (getter primary_delivers)
                  (resolving (Str "from primary")) eq_refl eq_refl)); reflexivity.
- do 4 (split; [reflexivity|]).
  apply (proj2 (synchronizers_follow_a_secondary_source
                  (getter (second_secondary_delivers false))
                  (rejecting "no luck with the primary") eq_refl eq_refl)
           (Promise (Rejects (NewError "no luck with the primary"))) 1
           (resolving (Str "good stuff")) (Str "good stuff")); try reflexivity.
  intros j g Hj Hg. destruct j as [|j]; [|lia].
  injection Hg as <-. reflexivity.
Defined.

(** C3 on four secondary sources of which the second delivers. *)
Lemma later_secondaries_never_invoked_witness :
let m := getter (second_secondary_delivers false) in
source_fails (configuration m) (rejecting "no luck with the first secondary source" 0) = true /\
secondarySources (configuration m) !! 1 = Some (resolving (Str "good stuff")) /\
accepts (configuration m) (Str "good stuff") = true /\
length (secondarySources (configuration m)) = 4 /\
forall j, 1 < j -> Secondary j ∉ who <$> calls_during m (get m).2.
Proof.
do 4 (split; [reflexivity|]).
apply (later_secondaries_never_invoked (getter (second_secondary_delivers false)) 1
         (resolving (Str "good stuff")) (Str "good stuff")); try reflexivity.
intros j g Hj Hg. destruct j as [|j]; [|lia].
injection Hg as <-. reflexivity.
Defined.

(** C7 on a getter whose primary source has not settled, and on one
  whose sources are all rejected. *)
Lemma get_guard_and_reuse_witness :
(let m := getter primary_in_flight in
 get m = (Gives Unsettled, (get m).2) /\
 get (get m).2 = (Raises (UsageError reentrancy_message), (get m).2)) /\
(let m := getter two_rejections in
 get m = (Gives (Rejected 2), (get m).2) /\
 getInProgress (get m).2 = false /\
 (forall msg, (get (get m).2).1 <> Raises (UsageError msg))).
Proof.
assert (get (getter primary_in_flight) =
        (Gives Unsettled, (get (getter primary_in_flight)).2)) as Hflight
  by (vm_compute; reflexivity).
assert (get (getter two_rejections) =
        (Gives (Rejected 2), (get (getter two_rejections)).2)) as Hsettled
  by (vm_compute; reflexivity).
split.
- split; [exact Hflight|].
  apply (proj1 (get_guard_and_reuse _ _ _ Hflight)). reflexivity.
- split; [exact Hsettled|].
  destruct (proj2 (get_guard_and_reuse _ _ _ Hsettled))
    as (Hflag & _ & _ & Hpermitted & _); [discriminate|].
  split; [exact Hflag|exact Hpermitted].
Defined.
End GetterScenarios.

Section TransactionScenarios.
Import Tx Sample Scenario.

(** The five steps of the test suite run in order when none fails. *)
Example runs_each_step_in_order :
(steps_called
   (log (execute None
           (fresh (onError (Some 7)
                     (transaction_of ((fun _ => succeeding Undefined) <$> five_steps))))).2)).*1 =
  [0; 1; 2; 3; 4].
Proof. by vm_compute. Qed.

(** A failure in the fourth step is reported as such. *)
Example fourth_step_is_named :
handlers_called
  (log (execute None
          (fresh (onError (Some 7)
                    (transaction_of
                       [succeeding Undefined; succeeding Undefined; succeeding Undefined;
                        failing "some error"; succeeding Undefined])))).2) =
  [(7, 0, "Error in 4th step: some error")].
Proof. by vm_compute. Qed.

(** C4 on the five steps of the test suite. *)
Lemma resume_reruns_the_failed_step_witness :
let m0 := Machine (set_callbacks watched (transaction_of five_steps)) [] [] in
let c0 := initial in
let c1 := merge_context (Some c0) (Obj [("step1", "foo")]) in
let c2 := merge_context (Some c1) (Obj [("step2", "bar")]) in
let c3 := merge_context (Some c2) (Obj [("step3", "baz")]) in
let c4 := merge_context (Some c3) (Str "foobar") in
let m1 := (execute (Some initial) m0).2 in
let m2 := (resume None m1).2 in
new_Transaction (Array (Function <$> five_steps)) = inr (transaction_of five_steps) /\
is_Some (callbacks.onError watched) /\
fails (failing_once "step 3 failed" (Obj [("step3", "baz")]) 0 (Some c2)) = true /\
failing_once "step 3 failed" (Obj [("step3", "baz")]) 1 (Some c2) =
  Returns (Promise (Resolves (Obj [("step3", "baz")]))) /\
c3 = list_to_map [("initial", Str "zilch"); ("step1", Str "foo"); ("step2", Str "bar");
                  ("step3", Str "baz")] /\
steps_called (log m1) = [(0, Some c0); (1, Some c1); (2, Some c2)] /\
steps_called (new_events m1 m2) = [(2, Some c2); (3, Some c3); (4, Some c4)].
Proof.
intros m0 c0 c1 c2 c3 c4 m1 m2.
split; [reflexivity|]. split; [by eexists|]. do 2 (split; [reflexivity|]).
split; [by vm_compute|].
destruct (resume_reruns_the_failed_step
            (succeeding (Obj [("step1", "foo")]))
            (succeeding (Obj [("step2", "bar")]))
            (failing_once "step 3 failed" (Obj [("step3", "baz")]))
            (succeeding (Str "foobar"))
            (succeeding Undefined)
            (transaction_of five_steps) watched (Some initial)
            (Obj [("step1", "foo")]) (Obj [("step2", "bar")])
            (Obj [("step3", "baz")]) (Str "foobar") None [])
  as (_ & Hexecute & _ & Hresume & _); try reflexivity.
- by eexists.
- split; [exact Hexecute|exact Hresume].
Defined.

(** C5 as it is worded fails: tested against the prefixed message the
  pattern [fizzle-quux] does not match, which would leave the failure to
  the general handler 7; the transaction calls the specific handler 1. *)
Lemma specific_errors_prefixed_counterexample :
findErrorCallback_on_prefixed 0 routed_at_failure = Some [7] /\
handlers_called (new_events routed_at_failure (handleStepError 0 routed_at_failure).2) =
  [(1, 0, "Error in 2nd step: fizzle-quux")] /\
handlers_called (log (execute None (fresh routed)).2) =
  [(1, 0, "Error in 2nd step: fizzle-quux")].
Proof. repeat split; by vm_compute. Qed.

(** C5 as amended, on the same failure. *)
Lemma specific_errors_tested_on_unprefixed_message_witness :
callbacks.onError (callbacks (self routed_at_failure)) = Some 7 /\
is_Some (errors routed_at_failure !! 0) /\
message_of (errors routed_at_failure) 0 = "fizzle-quux" /\
selected 7 (matching "fizzle-quux" (self routed_at_failure)) = [1] /\
exists m', handleStepError 0 routed_at_failure = (Normal, m') /\
  handlers_called (new_events routed_at_failure m') =
    (fun h => (h, 0, "Error in " +:+ currentStepText (self routed_at_failure) +:+ ": " +:+
                     message_of (errors routed_at_failure) 0)) <$>
      selected 7 (matching (message_of (errors routed_at_failure) 0) (self routed_at_failure)).
Proof.
split; [reflexivity|]. split; [by eexists|]. do 2 (split; [reflexivity|]).
apply (proj1 (specific_errors_tested_on_unprefixed_message routed_at_failure 0 7
                eq_refl (ex_intro _ _ eq_refl))).
Defined.



(** C9 on a transaction of two steps that ran to completion. *)
Lemma transaction_is_single_use_witness :
let m1 := (execute None two_steps).2 in
let m2 := perform_all [Resume None; OnSuccess None] m1 in
currentStep (self two_steps) = Unset /\
is_Some (callbacks.onError (callbacks (self two_steps))) /\
SuccessCalled 9 ∈ log m1 /\
currentStep (self m1) = Index 2 /\
execute None m2 =
  (Raised (UsageError "Transaction is already in progress. To resume the transaction, use the `resume` method instead of `execute`"), m2).
Proof.
intros m1 m2. split; [reflexivity|]. split; [by eexists|].
split; [vm_compute; do 2 right; left|]. split; [reflexivity|].
destruct (transaction_is_single_use two_steps None [Resume None; OnSuccess None]
            eq_refl (ex_intro _ _ eq_refl)) as (_ & _ & Hraises).
apply Hraises. by eexists.
Defined.

(** C10 on a transaction with both callbacks registered. *)
Lemma resume_before_execute_witness :
let t := transaction_of [succeeding Undefined; succeeding Undefined] in
let ops := [OnSuccess (Some {| callback_id := 9; callback_raises := None |});
            OnResume (Some 8)] in
let m := perform_all ops (Machine t [] []) in
let r := resume None m in
new_Transaction (Array (Function <$> [succeeding Undefined; succeeding Undefined])) = inr t /\
forallb (fun op => negb (is_execute op)) ops = true /\
currentStep (self r.2) = NaN /\
new_events m r.2 = [ResumeCalled 8; SuccessCalled 9] /\
steps_called (log r.2) = [].
Proof.
intros t ops m r.
assert (new_Transaction (Array (Function <$> [succeeding Undefined; succeeding Undefined])) =
        inr t) as Hconstructed by reflexivity.
assert (forallb (fun op => negb (is_execute op)) ops = true) as Hops by reflexivity.
do 2 (split; [assumption|]).
destruct (resume_before_execute _ t None ops [] [] Hconstructed Hops)
  as (_ & _ & Hnan & _ & Hnew & Hsteps).
split; [exact Hnan|]. split; [exact Hnew|exact Hsteps].
Defined.
(** The second step of [doubly_routed] fails and the callback 1, the
  first of the two selected, throws: the callback 3 is not called,
  [execute] has returned, the mark stays set, and the next [resume]
  throws the warning although no failure is being handled. *)
Example a_throwing_callback_keeps_the_mark :
let r := Raising.execute touchy None (fresh doubly_routed) in
r.1 = Returned /\
handlers_called (log r.2) = [(1, 0, "Error in 2nd step: fizzle-quux")] /\
resumedBeforeNextTick (self r.2) = true /\
(Raising.resume touchy None r.2).1 = Raised (UsageError warning).
Proof. by vm_compute. Qed.

End TransactionScenarios.

(* ================================================================== *)
(** * Further properties on the scenarios                              *)
(* ================================================================== *)

Section GetterCases.
Import Getter Sample Scenario.

(** The first primary source and the first verifier of [registrations]
  stay, and a further registration of either is refused. *)
Lemma primary_source_and_verifier_are_set_once_witness :
let c := configure registrations new_ReallyDeterminedPropertyGetter in
(primarySource c = Some (resolving (Str "first")) /\
 forall g', primarySource' g' c =
   inl ("There can only be one primary source. You already registered this primary source:"
        +:+ nl +:+ "() => Promise.resolve(" +:+ quoted "first" +:+ ")")) /\
(verifier c = Some is_five /\
 forall v', verify v' c =
   inl ("There can only be one verifier function. You already registered this verifier function:"
        +:+ nl +:+ "value => check(value)")).
Proof.
split.
- exact (proj1 (primary_source_and_verifier_are_set_once
                  [SecondarySource (rejecting "Y")]
                  [Verify is_five; PrimarySource (resolving (Str "second"));
                   IgnoreSynchronizationErrors; Verify (fun _ => true)]
                  new_ReallyDeterminedPropertyGetter)
           (resolving (Str "first")) eq_refl eq_refl).
- exact (proj2 (primary_source_and_verifier_are_set_once
                  [SecondarySource (rejecting "Y"); PrimarySource (resolving (Str "first"))]
                  [PrimarySource (resolving (Str "second"));
                   IgnoreSynchronizationErrors; Verify (fun _ => true)]
                  new_ReallyDeterminedPropertyGetter)
           is_five eq_refl eq_refl).
Defined.

(** A getter with a secondary source and a verifier, and no primary
  source. *)
Lemma get_needs_a_primary_source_witness :
let rs := [SecondarySource (resolving (Str "good stuff")); Verify is_five] in
let m := getter (configure rs new_ReallyDeterminedPropertyGetter) in
forallb (fun r => negb (sets_primary r)) rs = true /\
getInProgress m = false /\
get m = (Raises (UsageError missing_primary_message), m).
Proof.
intros rs m. do 2 (split; [reflexivity|]).
apply (get_needs_a_primary_source rs m); reflexivity.
Defined.

(** The getter [primary_throws]: the error is thrown by [get], the
  secondary source is not asked, and the getter stays locked. *)
Lemma throwing_primary_source_latches_the_getter_witness :
let m := getter primary_throws in
getInProgress m = false /\
primarySource (configuration m) = Some (throwing_source "boom") /\
(get m).1 = Raises (Propagated 0) /\
errors (get m).2 = [mkError "boom" None] /\
calls_during m (get m).2 = [Call Primary None] /\
get (get_again 3 (get m).2) = (Raises (UsageError reentrancy_message), (get m).2).
Proof.
intros m. do 2 (split; [reflexivity|]).
destruct (throwing_primary_source_latches_the_getter m (throwing_source "boom")
            (NewError "boom") eq_refl eq_refl eq_refl)
  as (Hraises & Herrors & Hcalls & _ & _ & Hlocked).
split; [exact Hraises|]. split; [exact Herrors|]. split; [exact Hcalls|].
exact (Hlocked 3).
Defined.

(** The value that [second_secondary_delivers] resolves with is the one
  of its second secondary source. *)
Lemma a_resolved_value_was_verified_witness :
let m := getter (second_secondary_delivers true) in
(get m).1 = Gives (Fulfilled (Str "good stuff")) /\
accepts (configuration m) (Str "good stuff") = true /\
getInProgress (get m).2 = false.
Proof.
intros m.
assert ((get m).1 = Gives (Fulfilled (Str "good stuff"))) as Hget
  by (vm_compute; reflexivity).
split; [exact Hget|].
destruct (a_resolved_value_was_verified m (Str "good stuff") Hget) as (Hacc & Hflag & _).
split; [exact Hacc|exact Hflag].
Defined.

(** The second synchronizer of [second_secondary_delivers] fails: the
  call is rejected when failures count, and fulfilled when they are
  ignored. *)
Lemma synchronizers_decide_the_outcome_witness :
(let m := getter (second_secondary_delivers false) in
 stops_at false (Str "good stuff") (calls m) 0 (primarySourceSynchronizers (configuration m)) =
   Some (1, Returns (Promise (Rejects (NewError "nope")))) /\
 (exists e, (get m).1 = Gives (Rejected e)) /\
 getInProgress (get m).2 = false) /\
(let m := getter (second_secondary_delivers true) in
 stops_at true (Str "good stuff") (calls m) 0 (primarySourceSynchronizers (configuration m)) =
   None /\
 (get m).1 = Gives (Fulfilled (Str "good stuff")) /\
 getInProgress (get m).2 = false).
Proof.
assert (forall ignore j g, j < 1 ->
          secondarySources (second_secondary_delivers ignore) !! j = Some g ->
          source_fails (second_secondary_delivers ignore) (g 0) = true) as Hbefore.
{ intros ignore j g Hj Hg. destruct j as [|j]; [|lia]. injection Hg as <-. reflexivity. }
split.
- intros m. split; [reflexivity|].
  destruct (synchronizers_decide_the_outcome m (rejecting "no luck with the primary")
              (Promise (Rejects (NewError "no luck with the primary"))) 1
              (resolving (Str "good stuff")) (Str "good stuff")
              eq_refl eq_refl eq_refl eq_refl (Hbefore false) eq_refl eq_refl eq_refl)
    as (_ & _ & Hrejected).
  destruct (Hrejected 1 (Returns (Promise (Rejects (NewError "nope")))) eq_refl)
    as (_ & _ & Hr & Hflag); [discriminate|].
  split; [exact Hr|exact Hflag].
- intros m. split; [reflexivity|].
  destruct (synchronizers_decide_the_outcome m (rejecting "no luck with the primary")
              (Promise (Rejects (NewError "no luck with the primary"))) 1
              (resolving (Str "good stuff")) (Str "good stuff")
              eq_refl eq_refl eq_refl eq_refl (Hbefore true) eq_refl eq_refl eq_refl)
    as (Hfulfilled & _ & _).
  exact (Hfulfilled eq_refl).
Defined.

(** The report of [nothing_delivered], in the words of the test suite. *)
Lemma every_failure_is_reported_witness :
let m := getter nothing_delivered in
failure_report "it was rejected with 'Error: no luck with the primary'" reasons 3 =
  "The Really Determined Property Getter has failed." +:+ nl +:+
  "  - primary source failed because it was rejected with 'Error: no luck with the primary'" +:+ nl +:+
  "  - secondary source #1 failed because it was rejected with 'Error: no luck with the first secondary source'" +:+ nl +:+
  "  - secondary source #2 failed because the verifier function did not accept the value " +:+ quoted "1 2 3" +:+ nl +:+
  "  - secondary source #3 failed because it was expected to return a Promise, but instead it returned {" +:+ quoted "vanilla" +:+ ":" +:+ quoted "object" +:+ "}" +:+ nl /\
exists e,
  (get m).1 = Gives (Rejected e) /\
  errors (get m).2 !! e =
    Some (mkError
            (failure_report "it was rejected with 'Error: no luck with the primary'" reasons 3)
            None).
Proof.
intros m. split; [reflexivity|].
destruct (every_failure_is_reported m (rejecting "no luck with the primary")
            (Promise (Rejects (NewError "no luck with the primary")))
            "it was rejected with 'Error: no luck with the primary'" reasons
            eq_refl eq_refl eq_refl eq_refl) as (e & Hr & Hmsg & _).
{ intros j f Hf. destruct j as [|[|[|j]]]; try discriminate; injection Hf as <-; reflexivity. }
exists e. split; [exact Hr|exact Hmsg].
Defined.

(** The report of [detailed], in the words of the test suite. *)
Lemma a_failed_synchronization_is_reported_witness :
let m := getter detailed in
synchronization_report "it was rejected with 'Error: no luck with the primary'" reasons 3
  five 1 "it was rejected with 'Error: nope'" =
  "The Really Determined Property Getter has failed." +:+ nl +:+
  "  - primary source failed because it was rejected with 'Error: no luck with the primary'" +:+ nl +:+
  "  - secondary source #1 failed because it was rejected with 'Error: no luck with the first secondary source'" +:+ nl +:+
  "  - secondary source #2 failed because the verifier function did not accept the value " +:+ quoted "1 2 3" +:+ nl +:+
  "  - secondary source #3 failed because it was expected to return a Promise, but instead it returned {" +:+ quoted "vanilla" +:+ ":" +:+ quoted "object" +:+ "}" +:+ nl +:+
  "  - secondary source #4 resolved with " +:+ quoted "1 2 3 4 5" +:+ nl +:+
  "  - primarySourceSynchronizer function #2 failed because it was rejected with 'Error: nope'" +:+ nl /\
exists e,
  (get m).1 = Gives (Rejected e) /\
  errors (get m).2 !! e =
    Some (mkError
            (synchronization_report "it was rejected with 'Error: no luck with the primary'"
               reasons 3 five 1 "it was rejected with 'Error: nope'")
            None).
Proof.
intros m. split; [reflexivity|].
destruct (a_failed_synchronization_is_reported m (rejecting "no luck with the primary")
            (Promise (Rejects (NewError "no luck with the primary"))) 3 (resolving five) five
            1 (failing_to_synchronize "nope")
            "it was rejected with 'Error: no luck with the primary'" reasons
            "it was rejected with 'Error: nope'"
            eq_refl eq_refl eq_refl eq_refl) as (e & Hr & Hmsg & _); try reflexivity.
{ intros j f Hj Hf. destruct j as [|[|[|j]]]; try lia; injection Hf as <-; reflexivity. }
{ intros j g Hj Hg. destruct j as [|j]; [|lia]. injection Hg as <-. by eexists. }
exists e. split; [exact Hr|exact Hmsg].
Defined.

(** The getter [primary_looks_like_a_promise]. *)
Lemma a_value_that_only_looks_like_a_promise_latches_the_getter_witness :
let m := getter primary_looks_like_a_promise in
has_then (Obj [("then", "soon")]) = true /\
(get m).1 = Raises (Propagated 0) /\
errors (get m).2 = [mkTypeError "maybeAPromise.catch is not a function" None] /\
calls_during m (get m).2 = [Call Primary None] /\
get (get m).2 = (Raises (UsageError reentrancy_message), (get m).2).
Proof.
intros m. split; [reflexivity|].
destruct (a_value_that_only_looks_like_a_promise_latches_the_getter m
            (fun _ => Returns (NotPromise (Obj [("then", "soon")])))
            (Obj [("then", "soon")]) eq_refl eq_refl eq_refl) as [Hthrows _].
destruct (Hthrows eq_refl) as (Hr & Herr & Hcalls & _ & _ & Hagain).
split; [exact Hr|]. split; [exact Herr|]. split; [exact Hcalls|exact (Hagain 0)].
Defined.

(** The error of [with_an_error] passes two [nameError] handlers. *)
Lemma an_error_keeps_its_first_name_witness :
let rm := (reject 0 CATCH nameError "Foo Bar step" CATCH nameError "Failing step")
            with_an_error in
errors with_an_error !! 0 = Some (mkError "bad stuff" None) /\
rm.1 = Rejected (A:=value) 0 /\
message_of (errors rm.2) 0 = "bad stuff" /\
stepName_of (errors rm.2) 0 = Some "Foo Bar step".
Proof.
intros rm. split; [reflexivity|].
destruct (an_error_keeps_its_first_name "Foo Bar step" ["Failing step"] 0 with_an_error
            (mkError "bad stuff" None) eq_refl) as (Hr & _ & Hmsg & Hname); [discriminate|].
split; [exact Hr|]. split; [exact Hmsg|exact Hname].
Defined.

(** A named error that is caught by [catchError], and the line it adds
  to the report. *)
Lemma what_is_recorded_is_reported_witness :
let p : chain (machine value) value := reject 0 CATCH nameError "Unimportant step" in
let m1 := (p with_an_error).2 in
p with_an_error = (Rejected 0, m1) /\
(p CATCH catchError) with_an_error = (Fulfilled Undefined, push (Failure 0) m1) /\
reportError (errorCatcher (push (Failure 0) m1)) (errors m1) =
  "The chain has failed." +:+ nl +:+
  "  - Unimportant step failed because bad stuff" +:+ nl.
Proof.
intros p m1.
assert (p with_an_error = (Rejected 0, m1)) as Hp by reflexivity.
split; [exact Hp|].
destruct (proj1 (what_is_recorded_is_reported "Quux step" p with_an_error) 0 m1 Hp)
  as [Hcaught Hreport].
split; [exact Hcaught|]. exact Hreport.
Defined.
(** The report of [one_source_throws]: the second line of the secondary
  sources has no name. *)
Lemma a_secondary_source_that_throws_is_reported_without_a_name_witness :
let m := getter one_source_throws in
report_with_an_exception "it was rejected with 'Error: no luck with the primary'" excuses
  1 "kaboom" 1 =
  "The Really Determined Property Getter has failed." +:+ nl +:+
  "  - primary source failed because it was rejected with 'Error: no luck with the primary'" +:+ nl +:+
  "  - secondary source #1 failed because it was rejected with 'Error: no luck with the first secondary source'" +:+ nl +:+
  "  - undefined failed because kaboom" +:+ nl +:+
  "  - secondary source #3 failed because the verifier function did not accept the value " +:+ quoted "1 2 3" +:+ nl /\
exists e,
  (get m).1 = Gives (Rejected e) /\
  errors (get m).2 !! e =
    Some (mkError
            (report_with_an_exception "it was rejected with 'Error: no luck with the primary'"
               excuses 1 "kaboom" 1)
            None) /\
  calls_during m (get m).2 =
    [Call Primary None; Call (Secondary 0) None; Call (Secondary 1) None;
     Call (Secondary 2) None].
Proof.
intros m. split; [reflexivity|].
destruct (a_secondary_source_that_throws_is_reported_without_a_name m
            (rejecting "no luck with the primary")
            (Promise (Rejects (NewError "no luck with the primary")))
            1 (throwing_source "kaboom") "kaboom"
            "it was rejected with 'Error: no luck with the primary'" excuses
            eq_refl eq_refl eq_refl eq_refl eq_refl eq_refl)
  as (e & Hr & Hmsg & _ & _ & Hcalls).
{ intros j f Hj Hf. destruct j as [|[|[|j]]]; try discriminate; try done;
    injection Hf as <-; reflexivity. }
exists e. split; [exact Hr|]. split; [exact Hmsg|].
unfold calls_during. rewrite Hcalls. reflexivity.
Defined.

(** The report of [rejected_again]: two lines, both for the primary
  source. *)
Lemma an_error_rejected_twice_is_reported_under_its_first_name_witness :
let m := getter rejected_again in
let text := "it was rejected with 'Error: it was rejected with 'Error: X''" in
exists e,
  (get m).1 = Gives (Rejected e) /\
  errors (get m).2 !! 0 = Some (mkError text (Some "primary source")) /\
  errors (get m).2 !! e =
    Some (mkError ("The Really Determined Property Getter has failed." +:+ nl +:+
                   "  - primary source failed because " +:+ text +:+ nl +:+
                   "  - primary source failed because " +:+ text +:+ nl) None).
Proof.
intros m text.
destruct (an_error_rejected_twice_is_reported_under_its_first_name m
            (rejecting "X") (fun _ => Returns (Promise (Rejects (SameError 0)))) "X"
            eq_refl eq_refl eq_refl eq_refl eq_refl)
  as (e & Hr & _ & Hshared & Hmsg).
exists e. split; [exact Hr|]. split; [exact Hshared|exact Hmsg].
Defined.
End GetterCases.

Section TransactionCases.
Import Tx Sample Scenario.

(** Two steps that resolve, with all callbacks watched. *)
Lemma execute_runs_the_steps_in_order_witness :
let m := fresh (set_callbacks watched
                  (transaction_of [succeeding (Obj [("step1", "foo")]);
                                   succeeding (Str "foobar")])) in
let c1 := merge_context (Some initial) (Obj [("step1", "foo")]) in
let r := execute (Some initial) m in
r.1 = Returned /\
new_events m r.2 = [StepCalled 0 (Some initial); StepCalled 1 (Some c1); SuccessCalled 9] /\
currentStep (self r.2) = Index 2 /\
errors r.2 = [].
Proof.
intros m c1 r.
destruct (execute_runs_the_steps_in_order m (Some initial)
            [Obj [("step1", "foo")]; Str "foobar"] 7 eq_refl eq_refl)
  as (Hreturned & Hevents & Hcounter & _ & Herrors).
- simpl. split; [by eexists|]. split; [by eexists|done].
- reflexivity.
- intros cb [= <-]. reflexivity.
- split; [exact Hreturned|]. split; [exact Hevents|]. split; [exact Hcounter|exact Herrors].
Defined.

(** The second step of [routed] is rejected with [fizzle-quux], for
  which the specific handler 1 is registered. *)
Lemma a_failing_step_stops_the_run_witness :
let m := fresh routed in
let r := Raising.execute obliging None m in
r.1 = Returned /\
new_events m r.2 =
  [StepCalled 0 (Some ∅); StepCalled 1 (Some (merged ∅ [Undefined]));
   ErrorCalled 1 0 "Error in 2nd step: fizzle-quux"] /\
errors r.2 = [mkError "Error in 2nd step: fizzle-quux" None] /\
currentStep (self r.2) = Index 1.
Proof.
intros m r.
assert (Raising.callbacks_return obliging (self m)) as Hret by by intros h _.
assert (resolve_in_turn (steps (self m)) (log m) 0 (default ∅ None) [Undefined]) as Hrs
  by (simpl; split; [by eexists|done]).
pose proof (a_failing_step_stops_the_run obliging m None [Undefined] (failing "fizzle-quux")
              (Promise (Rejects (NewError "fizzle-quux"))) "fizzle-quux" 7
              eq_refl eq_refl Hret Hrs eq_refl eq_refl eq_refl)
  as (Hreturned & Hevents & Herrors & Hcounter & _).
split; [exact Hreturned|]. split; [exact Hevents|]. split; [exact Herrors|exact Hcounter].
Defined.

(** A step that throws: as the first step, and behind a step that
  resolved. *)
Lemma a_throwing_step_is_handled_unless_it_is_the_first_witness :
(let m := handled [throwing "boom"; succeeding Undefined] in
 let r := execute None m in
 r.1 = Raised (Propagated 0) /\
 new_events m r.2 = [StepCalled 0 (Some ∅)] /\
 errors r.2 = [mkError "boom" None]) /\
(let m := handled [succeeding Undefined; throwing "boom"] in
 let r := execute None m in
 r.1 = Returned /\
 new_events m r.2 =
   [StepCalled 0 (Some ∅); StepCalled 1 (Some (merged ∅ [Undefined]));
    ErrorCalled 7 0 "Error in 2nd step: boom"] /\
 errors r.2 = [mkError "Error in 2nd step: boom" None]).
Proof.
split.
- intros m r.
  destruct (a_throwing_step_is_handled_unless_it_is_the_first m None [] (throwing "boom")
              "boom" 7 eq_refl eq_refl I eq_refl eq_refl) as (_ & Hfirst & _).
  exact (Hfirst eq_refl).
- intros m r.
  destruct (a_throwing_step_is_handled_unless_it_is_the_first m None [Undefined]
              (throwing "boom") "boom" 7 eq_refl eq_refl) as (_ & _ & Hlater);
    try reflexivity.
  + simpl. split; [by eexists|done].
  + apply Hlater. discriminate.
Defined.

(** A second step that never settles. *)
Lemma a_pending_step_suspends_the_run_witness :
let m := handled [succeeding Undefined; hanging; succeeding Undefined] in
let r := execute None m in
r.1 = Returned /\
new_events m r.2 = [StepCalled 0 (Some ∅); StepCalled 1 (Some (merged ∅ [Undefined]))] /\
errors r.2 = [] /\
currentStep (self r.2) = Index 1.
Proof.
intros m r.
destruct (a_pending_step_suspends_the_run m None [Undefined] hanging 7 eq_refl eq_refl)
  as (Hreturned & Hevents & Herrors & Hcounter & _); try reflexivity.
- simpl. split; [by eexists|done].
- split; [exact Hreturned|]. split; [exact Hevents|]. split; [exact Herrors|exact Hcounter].
Defined.

(** One step that resolves, and a success callback that throws. *)
Lemma a_failing_success_callback_is_reported_witness :
let m := fresh (set_callbacks ungrateful (transaction_of [succeeding Undefined])) in
let r := execute None m in
r.1 = Returned /\
new_events m r.2 =
  [StepCalled 0 (Some ∅); SuccessCalled 9;
   ErrorCalled 7 0 "Error in onSuccess callback: oops"] /\
errors r.2 = [mkError "Error in onSuccess callback: oops" None].
Proof.
intros m r.
destruct (a_failing_success_callback_is_reported m None [Undefined]
            {| callback_id := 9; callback_raises := Some (NewError "oops") |} "oops" 7
            eq_refl eq_refl)
  as (Hreturned & Hevents & Herrors & _); try reflexivity.
- simpl. split; [by eexists|done].
- discriminate.
- split; [exact Hreturned|]. split; [exact Hevents|exact Herrors].
Defined.

(** [resume] on [stalled]: the second step again, then the third, then
  the success callback. *)
Lemma resume_continues_from_the_current_step_witness :
let c2 := merge_context (Some initial) (Obj [("second", "done")]) in
let r := resume None stalled in
currentStep (self stalled) = Index 1 /\
attempts 1 (log stalled) = 1 /\
r.1 = Returned /\
new_events stalled r.2 =
  [ResumeCalled 8; StepCalled 1 (Some initial); StepCalled 2 (Some c2); SuccessCalled 9] /\
currentStep (self r.2) = Index 3.
Proof.
intros c2 r. do 2 (split; [reflexivity|]).
destruct (resume_continues_from_the_current_step stalled None 1 initial
            [Obj [("second", "done")]; Str "third"] eq_refl eq_refl eq_refl)
  as (Hreturned & Hevents & Hcounter & _).
- simpl. split; [by eexists|]. split; [by eexists|done].
- reflexivity.
- intros cb [= <-]. reflexivity.
- split; [exact Hreturned|]. split; [exact Hevents|exact Hcounter].
Defined.

(** What is not an array is refused; an array of a function is taken. *)
Lemma the_constructor_accepts_functions_only_witness :
new_Transaction (R:=regexp) (NotArray (Str "steps")) =
  inl ("Expected a list of functions, got " +:+ quoted "steps") /\
new_Transaction (Array [Function (succeeding Undefined)]) =
  inr (transaction_of [succeeding Undefined]).
Proof.
split.
- exact (proj2 (the_constructor_accepts_functions_only (R:=regexp) (NotArray (Str "steps")))
           (Str "steps") eq_refl).
- apply (proj1 (the_constructor_accepts_functions_only
                  (Array [Function (succeeding Undefined)]))).
  exists [succeeding Undefined]. split; [discriminate|]. split; reflexivity.
Defined.

(** A new transaction on which everything but [onError] is called. *)
Lemma no_step_runs_without_an_error_handler_witness :
let t := transaction_of [succeeding Undefined] in
let ops := [Execute None;
            OnSuccess (Some {| callback_id := 9; callback_raises := None |});
            Resume None; OnError None; Execute (Some initial)] in
let m := perform_all ops (fresh t) in
new_Transaction (Array [Function (succeeding Undefined)]) = inr t /\
forallb (fun op => negb (registers_onError op)) ops = true /\
steps_called (log m) = [] /\
(execute None m).2 = m.
Proof.
intros t ops m.
assert (new_Transaction (Array [Function (succeeding Undefined)]) = inr t) as Hnew
  by reflexivity.
assert (forallb (fun op => negb (registers_onError op)) ops = true) as Hops by reflexivity.
do 2 (split; [assumption|]).
destruct (no_step_runs_without_an_error_handler _ t ops [] [] Hnew Hops)
  as (Hsteps & _ & Hrefused).
split; [exact Hsteps|]. fold (fresh t) in Hrefused. fold m in Hrefused.
by rewrite (Hrefused None).
Defined.

(** [resume] while a failure is handled; a failure that the callbacks
  1 and 3 are selected for, of which the first throws; and [resume]
  after the failure of [routed] has been handled by callbacks that
  return. *)
Lemma resume_warns_only_while_a_failure_is_handled_witness :
Raising.resume obliging None handling =
  (Raised (UsageError warning), emit (ConsoleWarn warning) handling) /\
(let m := doubly_routed_at_failure in
 let r := Raising.handleStepError touchy 0 m in
 selected 7 (matching (message_of (errors m) 0) (self m)) = [1; 3] /\
 Raising.reached touchy [1; 3] = [1] /\
 handlers_called (new_events m r.2) = [(1, 0, "Error in 2nd step: fizzle-quux")] /\
 resumedBeforeNextTick (self r.2) = true /\
 (Raising.resume touchy None r.2).1 = Raised (UsageError warning)) /\
(let m := Raising.perform_all obliging [Execute None] (fresh routed) in
 handlers_called (log m) = [(1, 0, "Error in 2nd step: fizzle-quux")] /\
 resumedBeforeNextTick (self m) = false /\
 forall msg, (Raising.resume obliging None m).1 <> Raised (UsageError msg)).
Proof.
split; [|split].
- apply (proj1 (resume_warns_only_while_a_failure_is_handled obliging [] handling));
    [reflexivity|discriminate].
- intros m r. do 2 (split; [reflexivity|]).
  pose proof (proj1 (proj2 (resume_warns_only_while_a_failure_is_handled touchy [] m))
                0 7 eq_refl (ex_intro _ _ eq_refl)) as (Hcalled & _ & Hthrows).
  split; [exact Hcalled|].
  destruct Hthrows as (_ & Hmark & Hwarns).
  { exists 1. split; [|by eexists]. apply list_elem_of_here. }
  split; [exact Hmark|]. by apply Hwarns.
- intros m. split; [by vm_compute|].
  destruct (proj2 (proj2 (resume_warns_only_while_a_failure_is_handled obliging
                            [Execute None] (fresh routed))))
    as [Hclear Hnever]; [done|by eexists|reflexivity|reflexivity|].
  split; [exact Hclear|]. exact (Hnever None).
Defined.

(** A string adds nothing to the context. *)
Lemma later_results_override_the_context_witness :
is_object (Str "foobar") = false /\
merged initial [Obj [("step1", "foo")]; Str "foobar"] =
  merged initial [Obj [("step1", "foo")]].
Proof.
split; [reflexivity|].
apply (proj2 (later_results_override_the_context initial [Obj [("step1", "foo")]]
                (Str "foobar"))).
reflexivity.
Defined.

(** The error of [routed_at_failure] fails the second step twice: the
  first time the handler for [fizzle-quux] is called, the second time
  the pattern does not match any more and the general handler is
  called. *)
Lemma the_prefix_accumulates_on_an_error_that_fails_twice_witness :
let m1 := (handleStepError 0 routed_at_failure).2 in
let m2 := (handleStepError 0 m1).2 in
callbacks.onError (callbacks (self routed_at_failure)) = Some 7 /\
errors routed_at_failure !! 0 = Some (mkError "fizzle-quux" None) /\
handlers_called (new_events routed_at_failure m1) =
  [(1, 0, "Error in 2nd step: fizzle-quux")] /\
handlers_called (new_events m1 m2) =
  [(7, 0, "Error in 2nd step: Error in 2nd step: fizzle-quux")] /\
message_of (errors m2) 0 = "Error in 2nd step: Error in 2nd step: fizzle-quux".
Proof.
intros m1 m2. do 2 (split; [reflexivity|]).
destruct (the_prefix_accumulates_on_an_error_that_fails_twice routed_at_failure 0 7
            (mkError "fizzle-quux" None) eq_refl eq_refl)
  as (Hfirst & _ & Hsecond & Hmessage).
split; [exact Hfirst|]. split; [exact Hsecond|exact Hmessage].
Defined.
(** The registrations [bookings] on a transaction without callbacks:
  the callback of [then] has replaced that of [onSuccess], and the
  specific handler is kept twice. *)
Lemma registrations_replace_or_accumulate_witness :
let m := perform_all bookings (fresh (transaction_of [succeeding Undefined])) in
forallb is_registration bookings = true /\
callbacks.onSuccess (callbacks (self m)) =
  Some {| callback_id := 10; callback_raises := None |} /\
callbacks.onSpecificErrors (callbacks (self m)) =
  [{| callback := 1; pattern := RegExp "^fizzle-quux$" |};
   {| callback := 1; pattern := RegExp "^fizzle-quux$" |}] /\
log m = [].
Proof.
intros m.
assert (forallb is_registration bookings = true) as Hops by reflexivity.
split; [assumption|].
destruct (registrations_replace_or_accumulate bookings
            (fresh (transaction_of [succeeding Undefined])) Hops)
  as (Hs & Hsp & _ & _ & Hl).
split; [exact Hs|]. split; [exact Hsp|exact Hl].
Defined.
End TransactionCases.
